(** * Focal-plane modelling notebook (notebooks/ztf/Focal_plane_modeling.ipynb)

    A shallow embedding of the computational cells of the notebook: the
    per-quadrant table [rcmeta] derived from the linear fit, the global
    coordinate loop, the distortion dictionary [pv_start], the output
    header and its text file.

    Python floats are idealised as exact rationals ([Qc], canonical
    fractions with Leibniz equality); [None] returned by
    [Series.get] on a missing label is [None] of [option Qc].  Python
    exceptions are values of [exn].  One step cannot be idealised: whether
    the inversion of a matrix that is exactly singular raises depends on the
    rounding of binary64, which [binary64] and [dgesv_inverse] follow. *)

From Stdlib Require Import QArith Qcanon Lia Ascii String.
From stdpp Require Import base numbers list strings pretty gmap sorting.

Local Open Scope Qc_scope.

(** ** Python values and exceptions *)

Inductive exn : Set :=
| TypeError      (* arithmetic or float() on None, linalg on an object array *)
| LinAlgError    (* numpy.linalg: Singular matrix (a zero pivot) *)
| KeyError       (* dict[key] on a missing key *)
| OSError.       (* file exists and overwrite is off *)

(** A computation either raises or returns. *)
Inductive result (A : Type) : Type :=
| Raise (e : exn)
| Ok (a : A).
Arguments Raise {A} e.
Arguments Ok {A} a.

#[global] Instance result_ret : MRet result := @Ok.
#[global] Instance result_bind : MBind result := λ A B k m,
  match m with
  | Raise e => Raise e
  | Ok a => k a
  end.

Definition raise {A} (e : exn) : result A := Raise e.
Definition ret {A} (a : A) : result A := Ok a.

(** A float or [None]. *)
Abbreviation pyfloat := (option Qc).

(** [a + b] on floats; [TypeError] when an operand is [None]. *)
Definition py_add (a b : pyfloat) : result pyfloat :=
  match a, b with
  | Some u, Some v => ret (Some (u + v))
  | _, _ => raise TypeError
  end.

(** Unary minus. *)
Definition py_neg (a : pyfloat) : result Qc :=
  match a with
  | Some u => ret (- u)
  | None => raise TypeError
  end.

(** [float(a)]. *)
Definition py_float (a : pyfloat) : result Qc :=
  match a with
  | Some u => ret u
  | None => raise TypeError
  end.

(** ** Regression results

    [res.params] is a pandas Series of coefficients labelled by the
    patsy column names; [params.get(label)] is the lookup [params !! label]. *)

Abbreviation Series := (gmap string Qc).

(** ['C(rcid)[{}]'.format(i)] *)
Definition label_level (i : nat) : string :=
  "C(rcid)[" +:+ pretty i +:+ "]".

(** ['C(rcid)[T.{}]:x_image'.format(i)] *)
Definition label_level_x (i : nat) : string :=
  "C(rcid)[T." +:+ pretty i +:+ "]:x_image".

(** ['C(rcid)[T.{}]:y_image'.format(i)] *)
Definition label_level_y (i : nat) : string :=
  "C(rcid)[T." +:+ pretty i +:+ "]:y_image".

(** ** numpy 2x2 matrices *)

Record matrix2 (A : Type) : Type := Matrix2 {
  m11 : A; m12 : A;
  m21 : A; m22 : A
}.
Arguments Matrix2 {A} _ _ _ _.
Arguments m11 {A} _.
Arguments m12 {A} _.
Arguments m21 {A} _.
Arguments m22 {A} _.

Definition det (a b c d : Qc) : Qc := a * d - b * c.

(** *** Binary64 arithmetic

    The rounding of IEEE 754 double precision on rationals: 53 significant
    bits, gradual underflow, round to nearest with ties to the even
    significand.  The range is not bounded above (no overflow to infinity). *)

(** [2 ^ e] for any integer [e]. *)
Definition pow2 (e : Z) : Qc :=
  if decide (0 ≤ e)%Z then Qc_of_Z (2 ^ e) else / Qc_of_Z (2 ^ (- e)).

Definition Qc_abs (x : Qc) : Qc := if decide (x < 0) then - x else x.

(** The binary exponent of [x ≠ 0]: the [e] with [2 ^ e ≤ |x| < 2 ^ (e + 1)]. *)
Definition exponent (x : Qc) : Z :=
  let e := (Z.log2 (Z.abs (Qnum x)) - Z.log2 (Zpos (Qden x)))%Z in
  if decide (pow2 e ≤ Qc_abs x) then e else (e - 1)%Z.

(** The nearest integer, a tie going to the even one. *)
Definition round_half_even (x : Qc) : Z :=
  let f := (Qnum x `div` Zpos (Qden x))%Z in
  let r := x - Qc_of_Z f in
  if decide (r + r < 1) then f
  else if decide (1 < r + r) then (f + 1)%Z
  else if Z.even f then f else (f + 1)%Z.

(** The nearest binary64 number: the last place of [x] is
    [2 ^ (exponent x - 52)], and [2 ^ -1074] below the normal range. *)
Definition binary64 (x : Qc) : Qc :=
  if decide (x = 0) then 0
  else
    let q := Z.max (exponent x - 52) (- 1074) in
    Qc_of_Z (round_half_even (x / pow2 q)) * pow2 q.

Definition fl_mul (x y : Qc) : Qc := binary64 (x * y).
Definition fl_div (x y : Qc) : Qc := binary64 (x / y).
Definition fl_sub (x y : Qc) : Qc := binary64 (x - y).

(** *** The LAPACK routine behind [numpy.linalg.inv]

    [inv] calls [dgesv] with the unit matrix on the right: [dgetrf]
    factorises with partial pivoting and [dgetrs] solves.  [dgetrf] reports
    a pivot that is exactly zero, and only then does numpy raise
    [LinAlgError]. *)

(** The factorisation of [[a, b], [c, d]]: whether the rows are swapped,
    the multiplier and the three entries of the upper factor; [None] when a
    pivot is exactly zero.  The pivot of the first column is its entry of
    largest absolute value, the first one on a tie; the multiplier is the
    other entry times the reciprocal of the pivot (a division when the
    pivot is below the smallest normal number). *)
Definition dgetrf (a b c d : Qc) : option (bool * Qc * Qc * Qc * Qc) :=
  let swap := bool_decide (Qc_abs a < Qc_abs c) in
  let '(u11, u12, r, s) := if swap then (c, d, a, b) else (a, b, c, d) in
  if decide (u11 = 0) then None
  else
    let l := if decide (pow2 (- 1022) ≤ Qc_abs u11)
             then fl_mul r (fl_div 1 u11) else fl_div r u11 in
    let u22 := fl_sub s (fl_mul l u12) in
    if decide (u22 = 0) then None else Some (swap, l, u11, u12, u22).

(** Forward and back substitution for one right-hand side. *)
Definition dgetrs (l u11 u12 u22 : Qc) (b : Qc * Qc) : Qc * Qc :=
  let y1 := b.1 in
  let y2 := fl_sub b.2 (fl_mul y1 l) in
  let x2 := fl_div y2 u22 in
  let x1 := fl_div (fl_sub y1 (fl_mul x2 u12)) u11 in
  (x1, x2).

Definition dgesv_inverse (a b c d : Qc) : option (matrix2 Qc) :=
  match dgetrf (binary64 a) (binary64 b) (binary64 c) (binary64 d) with
  | None => None
  | Some (swap, l, u11, u12, u22) =>
      let e1 : Qc * Qc := if swap then (0, 1) else (1, 0) in
      let e2 : Qc * Qc := if swap then (1, 0) else (0, 1) in
      let x := dgetrs l u11 u12 u22 e1 in
      let y := dgetrs l u11 u12 u22 e2 in
      Some (Matrix2 x.1 y.1 x.2 y.2)
  end.

(** [cd**-1], that is [numpy.linalg.inv]: numpy refuses an object array (an
    entry is [None]) with a [TypeError].  A regular matrix gets its inverse,
    which the idealisation of floats makes the exact one.  For a matrix that
    is exactly singular the exact elimination would stop at a zero pivot,
    but the routine works in binary64 and raises [LinAlgError] only when the
    rounded pivot is exactly zero; otherwise it returns what the rounded
    solve gives.  That case follows [dgesv]. *)
Definition matrix_inv (cd : matrix2 pyfloat) : result (matrix2 Qc) :=
  match m11 cd, m12 cd, m21 cd, m22 cd with
  | Some a, Some b, Some c, Some d =>
      if decide (det a b c d = 0) then
        match dgesv_inverse a b c d with
        | None => raise LinAlgError
        | Some inv => ret inv
        end
      else ret (Matrix2 (d / det a b c d) (- b / det a b c d)
                        (- c / det a b c d) (a / det a b c d))
  | _, _, _, _ => raise TypeError
  end.

(** [m * v] for a 2x2 matrix and a 2x1 column. *)
Definition matrix_mul_col (m : matrix2 Qc) (v : Qc * Qc) : Qc * Qc :=
  (m11 m * v.1 + m12 m * v.2, m21 m * v.1 + m22 m * v.2).

(** [m * n] for two 2x2 matrices, and the unit matrix. *)
Definition matrix_mul (m n : matrix2 Qc) : matrix2 Qc :=
  Matrix2 (m11 m * m11 n + m12 m * m21 n) (m11 m * m12 n + m12 m * m22 n)
          (m21 m * m11 n + m22 m * m21 n) (m21 m * m12 n + m22 m * m22 n).

Definition matrix_one : matrix2 Qc := Matrix2 1 0 0 1.

(** ** The per-quadrant table [rcmeta] *)

Record quadrant_model : Set := QuadrantModel {
  cd11 : Qc; cd12 : Qc; cd21 : Qc; cd22 : Qc;
  crpix1 : Qc; crpix2 : Qc
}.

(** The transform matrix of quadrant [i] as the loop body builds it, before
    inversion. *)
Definition quadrant_cd (xres yres : Series) (i : nat) : result (matrix2 pyfloat) :=
  let c11 := xres !! "x_image" in
  let c12 := xres !! "y_image" in
  let c21 := yres !! "x_image" in
  let c22 := yres !! "y_image" in
  if decide (0 < i)%nat then
    c11 ← py_add c11 (xres !! label_level_x i);
    c12 ← py_add c12 (xres !! label_level_y i);
    c21 ← py_add c21 (yres !! label_level_x i);
    c22 ← py_add c22 (yres !! label_level_y i);
    ret (Matrix2 c11 c12 c21 c22)
  else ret (Matrix2 c11 c12 c21 c22).

(** One pass of the loop body for quadrant [i]. *)
Definition rcmeta_entry (xres yres : Series) (i : nat) : result quadrant_model :=
  cd ← quadrant_cd xres yres i;
  invcd ← matrix_inv cd;
  ox ← py_neg (xres !! label_level i);
  oy ← py_neg (yres !! label_level i);
  let offset_pix := matrix_mul_col invcd (ox, oy) in
  c11 ← py_float (m11 cd);
  c12 ← py_float (m12 cd);
  c21 ← py_float (m21 cd);
  c22 ← py_float (m22 cd);
  ret (QuadrantModel c11 c12 c21 c22 offset_pix.1 offset_pix.2).

(** The loop [for i in range(64)] over the dictionary [rcmeta]: the state is
    the dictionary filled so far; an exception leaves it as it is at that
    point. *)
Fixpoint rcmeta_loop (xres yres : Series) (ids : list nat)
    (acc : gmap nat quadrant_model) : gmap nat quadrant_model * option exn :=
  match ids with
  | [] => (acc, None)
  | i :: ids' =>
      match rcmeta_entry xres yres i with
      | Raise e => (acc, Some e)
      | Ok m => rcmeta_loop xres yres ids' (<[i := m]> acc)
      end
  end.

Definition rcmeta (xres yres : Series) : gmap nat quadrant_model * option exn :=
  rcmeta_loop xres yres (seq 0 64) ∅.

(** [d[k]] on a Python dict. *)
Definition dict_get `{Countable K} {V} (d : gmap K V) (k : K) : result V :=
  match d !! k with
  | Some v => ret v
  | None => raise KeyError
  end.

(** ** The data frame *)

(** The seven columns of [df] as it is first built.  [rcid] is the readout
    channel number of the catalog header, one of [0..63] on this camera; it
    is kept as a natural number. *)
Record observation : Set := Observation {
  rcid : nat;
  x_image : Qc; y_image : Qc;
  eta : Qc; nu : Qc;
  ra : Qc; dec : Qc
}.

(** A row once the four derived columns exist. *)
Record row : Set := Row {
  obs : observation;
  x_global : Qc; y_global : Qc;
  etalin : Qc; nulin : Qc
}.

(** [df['x_global'] = df['x_image']] and the three assignments after it. *)
Definition add_global_columns (o : observation) : row :=
  Row o (x_image o) (y_image o) (eta o) (nu o).

Definition set_x_global (v : Qc) (r : row) : row :=
  Row (obs r) v (y_global r) (etalin r) (nulin r).
Definition set_y_global (v : Qc) (r : row) : row :=
  Row (obs r) (x_global r) v (etalin r) (nulin r).
Definition set_etalin (v : Qc) (r : row) : row :=
  Row (obs r) (x_global r) (y_global r) v (nulin r).
Definition set_nulin (v : Qc) (r : row) : row :=
  Row (obs r) (x_global r) (y_global r) (etalin r) v.

(** [df.loc[df.rcid==i, col] = f(row)]: rows of other quadrants are kept. *)
Definition loc_rcid (i : nat) (f : row → row) (df : list row) : list row :=
  (λ r, if decide (rcid (obs r) = i) then f r else r) <$> df.

(** The body of the global-coordinate loop for quadrant [i]: four
    assignments in sequence, each reading the columns as the previous
    one left them. *)
Definition assemble_step (rcmeta : gmap nat quadrant_model) (i : nat)
    (df : list row) : result (list row) :=
  m ← dict_get rcmeta i;
  let df := loc_rcid i (λ r, set_x_global (x_image (obs r) - crpix1 m) r) df in
  m ← dict_get rcmeta i;
  let df := loc_rcid i (λ r, set_y_global (y_image (obs r) - crpix2 m) r) df in
  m ← dict_get rcmeta i;
  let df := loc_rcid i
    (λ r, set_etalin (x_global r * cd11 m + y_global r * cd12 m) r) df in
  m ← dict_get rcmeta i;
  let df := loc_rcid i
    (λ r, set_nulin (x_global r * cd21 m + y_global r * cd22 m) r) df in
  ret df.

Fixpoint assemble_loop (rcmeta : gmap nat quadrant_model) (ids : list nat)
    (df : list row) : result (list row) :=
  match ids with
  | [] => ret df
  | i :: ids' => df' ← assemble_step rcmeta i df; assemble_loop rcmeta ids' df'
  end.

Definition assemble (rcmeta : gmap nat quadrant_model) (df : list row)
    : result (list row) :=
  assemble_loop rcmeta (seq 0 64) df.

(** ** The distortion dictionary *)

Definition pv_start (xres yres : Series) : result (gmap string Qc) :=
  PV1_1 ← py_float (xres !! "etalin");
  PV1_2 ← py_float (xres !! "nulin");
  PV1_4 ← py_float (xres !! "np.power(etalin, 2)");
  PV1_5 ← py_float (xres !! "etalin:nulin");
  PV1_6 ← py_float (xres !! "np.power(nulin, 2)");
  PV2_1 ← py_float (yres !! "nulin");
  PV2_2 ← py_float (yres !! "etalin");
  PV2_4 ← py_float (yres !! "np.power(nulin, 2)");
  PV2_5 ← py_float (yres !! "etalin:nulin");
  PV2_6 ← py_float (yres !! "np.power(etalin, 2)");
  ret (<["PV1_1" := PV1_1]> (<["PV1_2" := PV1_2]> (<["PV1_4" := PV1_4]>
      (<["PV1_5" := PV1_5]> (<["PV1_6" := PV1_6]> (<["PV2_1" := PV2_1]>
      (<["PV2_2" := PV2_2]> (<["PV2_4" := PV2_4]> (<["PV2_5" := PV2_5]>
      (<["PV2_6" := PV2_6]> (∅ : gmap string Qc))))))))))).

(** ** The output header *)

Inductive card_value : Set :=
| VInt (n : Z)
| VStr (s : string)
| VFloat (q : Qc).

(** A FITS header: the cards in order. *)
Abbreviation Header := (list (string * card_value)).

(** [header[k] = v]: the card of an existing keyword is updated in place, a
    new keyword is appended. *)
Fixpoint header_set (k : string) (v : card_value) (h : Header) : Header :=
  match h with
  | [] => [(k, v)]
  | c :: h' => if decide (c.1 = k) then (k, v) :: h' else c :: header_set k v h'
  end.

Definition my_rcid : nat := 32.

(** The cell that fills [output_header], for the selected quadrant [q];
    [TELRAD] and [TELDECD] are the two floats read from [sci_header]. *)
Definition output_header (TELRAD TELDECD : Qc)
    (rcmeta : gmap nat quadrant_model) (pv : gmap string Qc) (q : nat)
    : result Header :=
  let h : Header := [] in
  let h := header_set "NAXIS" (VInt 2) h in
  let h := header_set "NAXIS1" (VInt 3072) h in
  let h := header_set "NAXIS2" (VInt 3080) h in
  let h := header_set "CTYPE1" (VStr "RA---TPV") h in
  let h := header_set "CTYPE2" (VStr "DEC--TPV") h in
  let h := header_set "CRVAL1" (VFloat TELRAD) h in
  let h := header_set "CRVAL2" (VFloat TELDECD) h in
  m ← dict_get rcmeta q; let h := header_set "CRPIX1" (VFloat (crpix1 m)) h in
  m ← dict_get rcmeta q; let h := header_set "CRPIX2" (VFloat (crpix2 m)) h in
  m ← dict_get rcmeta q; let h := header_set "CD1_1" (VFloat (cd11 m)) h in
  m ← dict_get rcmeta q; let h := header_set "CD1_2" (VFloat (cd12 m)) h in
  m ← dict_get rcmeta q; let h := header_set "CD2_1" (VFloat (cd21 m)) h in
  m ← dict_get rcmeta q; let h := header_set "CD2_2" (VFloat (cd22 m)) h in
  v ← dict_get pv "PV1_1"; let h := header_set "PV1_1" (VFloat v) h in
  v ← dict_get pv "PV1_2"; let h := header_set "PV1_2" (VFloat v) h in
  v ← dict_get pv "PV1_4"; let h := header_set "PV1_4" (VFloat v) h in
  v ← dict_get pv "PV1_5"; let h := header_set "PV1_5" (VFloat v) h in
  v ← dict_get pv "PV1_6"; let h := header_set "PV1_6" (VFloat v) h in
  v ← dict_get pv "PV2_1"; let h := header_set "PV2_1" (VFloat v) h in
  v ← dict_get pv "PV2_2"; let h := header_set "PV2_2" (VFloat v) h in
  v ← dict_get pv "PV2_4"; let h := header_set "PV2_4" (VFloat v) h in
  v ← dict_get pv "PV2_5"; let h := header_set "PV2_5" (VFloat v) h in
  v ← dict_get pv "PV2_6"; let h := header_set "PV2_6" (VFloat v) h in
  ret h.

(** ** Writing the header *)

(** [f'{n:02}'] *)
Definition fmt02 (n : nat) : string :=
  if decide (n < 10)%nat then "0" +:+ pretty n else pretty n.

(** [f'quadrant_{my_rcid:02}.ahead'] *)
Definition ahead_name (q : nat) : string :=
  "quadrant_" +:+ fmt02 q +:+ ".ahead".

Section TextFile.
(** astropy's rendering of one card as a line of text; its float
    formatting is the library's and is left open. *)
Variable card_image : string * card_value → string.

(** [Header.tostring(sep='\n', endcard=False, padding=False)] *)
Definition tostring (h : Header) : string :=
  String.concat (String (ascii_of_nat 10) EmptyString) (card_image <$> h).

(** [Header.totextfile(path, overwrite=...)] on a file system that maps
    paths to contents. *)
Definition totextfile (path : string) (overwrite : bool) (h : Header)
    (fs : gmap string string) : result (gmap string string) :=
  match fs !! path with
  | Some _ => if overwrite then ret (<[path := tostring h]> fs)
              else raise OSError
  | None => ret (<[path := tostring h]> fs)
  end.

(** The last cell: write the header of quadrant [q]. *)
Definition write_ahead (q : nat) (h : Header) (fs : gmap string string)
    : result (gmap string string) :=
  totextfile (ahead_name q) true h fs.
End TextFile.

(** ** Ordinary least squares

    [smf.ols(formula, data).fit()] is statsmodels' code, not the notebook's.
    It is taken by its contract: the design matrix has one column per patsy
    term, [params] is labelled by the column names, and [params] minimises the
    sum of squared residuals.  The contract is a relation: when the design is
    rank deficient several coefficient vectors attain the minimum and
    statsmodels returns one of them. *)

(** The coefficient a fitted model uses for a column. *)
Definition coef (p : Series) (label : string) : Qc := default 0 (p !! label).

Section OLS.
Context {R : Type}.
(** The design: each column is its label and its value on a row. *)
Variable cols : list (string * (R → Qc)).
(** The left-hand side of the formula. *)
Variable resp : R → Qc.

(** The fitted value of a row. *)
Definition predict (p : Series) (r : R) : Qc :=
  foldr (λ c acc, coef p c.1 * c.2 r + acc) 0 cols.

(** The sum of squared residuals over the data. *)
Definition ssr (df : list R) (p : Series) : Qc :=
  foldr (λ r acc, (resp r - predict p r) ^ 2 + acc) 0 df.

Definition ols_fit (df : list R) (p : Series) : Prop :=
  dom p = list_to_set cols.*1 ∧
  ∀ p' : Series, dom p' = list_to_set cols.*1 → ssr df p ≤ ssr df p'.

(** The squared distance between the fitted values of two vectors. *)
Definition fitted_distance (df : list R) (p q : Series) : Qc :=
  foldr (λ r acc, (predict p r - predict q r) ^ 2 + acc) 0 df.

(** The design has full column rank on the data: the fitted values
    determine the coefficients. *)
Definition full_rank (df : list R) : Prop :=
  ∀ p q : Series,
    (∀ r, r ∈ df → predict p r = predict q r) →
    ∀ l, l ∈ cols.*1 → coef p l = coef q l.
End OLS.

(** [s * p] and the midpoint of two coefficient vectors. *)
Definition scale_series (s : Qc) (p : Series) : Series := Qcmult s <$> p.

Definition mid_series (p q : Series) : Series :=
  merge (λ a b, Some ((default 0 a + default 0 b) / (1 + 1))) p q.

(** The levels of the categorical [C(rcid)]: the distinct values, sorted. *)
Definition levels (df : list observation) : list nat :=
  merge_sort (≤)%nat (remove_dups (rcid <$> df)).

(** The dummy variable of level [l]. *)
Definition dummy (l : nat) (o : observation) : Qc :=
  if decide (rcid o = l) then 1 else 0.

(** The columns of
    ['eta ~ x_image + y_image + C(rcid) -1 + C(rcid)*x_image + C(rcid)*y_image']:
    no intercept, so [C(rcid)] has a dummy for every level; the interactions
    with [x_image] and [y_image] are treatment coded against the first level,
    whose slopes are the columns [x_image] and [y_image] themselves. *)
Definition linear_columns (lv : list nat) : list (string * (observation → Qc)) :=
  ((λ l, (label_level l, dummy l)) <$> lv) ++
  [("x_image", x_image)] ++
  ((λ l, (label_level_x l, λ o, dummy l o * x_image o)) <$> tail lv) ++
  [("y_image", y_image)] ++
  ((λ l, (label_level_y l, λ o, dummy l o * y_image o)) <$> tail lv).

Definition np_power (x : Qc) (n : nat) : Qc := x ^ n.

(** The columns of
    ['eta ~ np.power(etalin,2) + np.power(nulin,2) + etalin*nulin + etalin + nulin']:
    the formula does not remove the intercept, so patsy adds it. *)
Definition quadratic_columns : list (string * (row → Qc)) :=
  [("Intercept", λ _, 1);
   ("np.power(etalin, 2)", λ r, np_power (etalin r) 2);
   ("np.power(nulin, 2)", λ r, np_power (nulin r) 2);
   ("etalin", etalin);
   ("nulin", nulin);
   ("etalin:nulin", λ r, etalin r * nulin r)].

(** ** A run of the notebook *)

(** What a run that completes leaves behind. *)
Record run : Type := Run {
  linear_xres : Series;
  linear_yres : Series;
  run_rcmeta : gmap nat quadrant_model;
  run_df : list row;
  xres : Series;
  yres : Series;
  run_pv : gmap string Qc;
  run_header : Header
}.

(** The cells in order, from the data frame to the header of the selected
    quadrant. *)
Definition notebook (TELRAD TELDECD : Qc) (df : list observation) (r : run) : Prop :=
  ols_fit (linear_columns (levels df)) eta df (linear_xres r) ∧
  ols_fit (linear_columns (levels df)) nu df (linear_yres r) ∧
  rcmeta (linear_xres r) (linear_yres r) = (run_rcmeta r, None) ∧
  assemble (run_rcmeta r) (add_global_columns <$> df) = Ok (run_df r) ∧
  ols_fit quadratic_columns (λ w, eta (obs w)) (run_df r) (xres r) ∧
  ols_fit quadratic_columns (λ w, nu (obs w)) (run_df r) (yres r) ∧
  pv_start (xres r) (yres r) = Ok (run_pv r) ∧
  output_header TELRAD TELDECD (run_rcmeta r) (run_pv r) my_rcid = Ok (run_header r).

(** The projected coordinates in another unit: [s] times the original. *)
Definition rescale (s : Qc) (o : observation) : observation :=
  Observation (rcid o) (x_image o) (y_image o) (s * eta o) (s * nu o) (ra o) (dec o).

(** ** The fitted model of one quadrant *)

(** The offset and the two slopes of quadrant [i] in a fitted linear model,
    as the loop of [rcmeta] reads them off the labels. *)
Definition offset_of (p : Series) (i : nat) : Qc := coef p (label_level i).

Definition slope_x_of (p : Series) (i : nat) : Qc :=
  coef p "x_image" + (if decide (0 < i)%nat then coef p (label_level_x i) else 0).

Definition slope_y_of (p : Series) (i : nat) : Qc :=
  coef p "y_image" + (if decide (0 < i)%nat then coef p (label_level_y i) else 0).

(** ** Synthetic data *)

(** A known transform and offset of one quadrant. *)
Record affine : Set := Affine {
  a11 : Qc; a12 : Qc; a21 : Qc; a22 : Qc;
  t1 : Qc; t2 : Qc
}.

(** The projected coordinates of [o] are exactly the known transform of its
    quadrant applied to its local pixel coordinates. *)
Definition generated_by (known : nat → affine) (o : observation) : Prop :=
  eta o = t1 (known (rcid o)) + a11 (known (rcid o)) * x_image o
          + a12 (known (rcid o)) * y_image o ∧
  nu o = t2 (known (rcid o)) + a21 (known (rcid o)) * x_image o
         + a22 (known (rcid o)) * y_image o.

Definition non_collinear (p q r : observation) : Prop :=
  (x_image q - x_image p) * (y_image r - y_image p)
  - (x_image r - x_image p) * (y_image q - y_image p) ≠ 0.

(** Quadrant [i] has three stars that are not on one line. *)
Definition three_stars (df : list observation) (i : nat) : Prop :=
  ∃ p q r, p ∈ df ∧ q ∈ df ∧ r ∈ df ∧
    rcid p = i ∧ rcid q = i ∧ rcid r = i ∧ non_collinear p q r.

(** The entry of [rcmeta] for a known regular transform. *)
Definition known_entry (k : affine) : quadrant_model :=
  QuadrantModel (a11 k) (a12 k) (a21 k) (a22 k)
    (a22 k / det (a11 k) (a12 k) (a21 k) (a22 k) * - t1 k
     + - a12 k / det (a11 k) (a12 k) (a21 k) (a22 k) * - t2 k)
    (- a21 k / det (a11 k) (a12 k) (a21 k) (a22 k) * - t1 k
     + a11 k / det (a11 k) (a12 k) (a21 k) (a22 k) * - t2 k).

(** A star of quadrant [i] at local pixel [(x, y)], projected by the known
    transform. *)
Definition star_of (known : nat → affine) (i : nat) (x y : Qc) : observation :=
  Observation i x y
    (t1 (known i) + a11 (known i) * x + a12 (known i) * y)
    (t2 (known i) + a21 (known i) * x + a22 (known i) * y)
    0 0.

(** Quadrants [0 .. n-1] with three stars each, at [(0,0)], [(1,0)], [(0,1)]. *)
Definition synthetic (known : nat → affine) (n : nat) : list observation :=
  i ← seq 0 n; [star_of known i 0 0; star_of known i 1 0; star_of known i 0 1].

(** The coefficient vector that reproduces per-level offsets and slopes
    exactly, in the coding of [linear_columns]. *)
Definition exact_series (lv : list nat) (off sx sy : nat → Qc) : Series :=
  let ref := default 0%nat (head lv) in
  list_to_map (
    ((λ l, (label_level l, off l)) <$> lv) ++
    [("x_image", sx ref)] ++
    ((λ l, (label_level_x l, sx l - sx ref)) <$> tail lv) ++
    [("y_image", sy ref)] ++
    ((λ l, (label_level_y l, sy l - sy ref)) <$> tail lv)).

Definition exact_xres (known : nat → affine) (df : list observation) : Series :=
  exact_series (levels df) (λ i, t1 (known i)) (λ i, a11 (known i))
    (λ i, a12 (known i)).

Definition exact_yres (known : nat → affine) (df : list observation) : Series :=
  exact_series (levels df) (λ i, t2 (known i)) (λ i, a21 (known i))
    (λ i, a22 (known i)).

(** ** Names used in the statements *)

(** The cards of the output header, for the entry [m] of the selected
    quadrant and the distortion coefficients [pv]. *)
Definition header_cards (TELRAD TELDECD : Qc) (m : quadrant_model)
    (pv : string → Qc) : Header :=
  [("NAXIS", VInt 2); ("NAXIS1", VInt 3072); ("NAXIS2", VInt 3080);
   ("CTYPE1", VStr "RA---TPV"); ("CTYPE2", VStr "DEC--TPV");
   ("CRVAL1", VFloat TELRAD); ("CRVAL2", VFloat TELDECD);
   ("CRPIX1", VFloat (crpix1 m)); ("CRPIX2", VFloat (crpix2 m));
   ("CD1_1", VFloat (cd11 m)); ("CD1_2", VFloat (cd12 m));
   ("CD2_1", VFloat (cd21 m)); ("CD2_2", VFloat (cd22 m));
   ("PV1_1", VFloat (pv "PV1_1")); ("PV1_2", VFloat (pv "PV1_2"));
   ("PV1_4", VFloat (pv "PV1_4")); ("PV1_5", VFloat (pv "PV1_5"));
   ("PV1_6", VFloat (pv "PV1_6"));
   ("PV2_1", VFloat (pv "PV2_1")); ("PV2_2", VFloat (pv "PV2_2"));
   ("PV2_4", VFloat (pv "PV2_4")); ("PV2_5", VFloat (pv "PV2_5"));
   ("PV2_6", VFloat (pv "PV2_6"))].

(** The ten keys of [pv_start]. *)
Definition pv_keys : list string :=
  ["PV1_1"; "PV1_2"; "PV1_4"; "PV1_5"; "PV1_6";
   "PV2_1"; "PV2_2"; "PV2_4"; "PV2_5"; "PV2_6"].

(** The keywords of a header that start with a prefix. *)
Definition keys_with_prefix (pre : string) (h : Header) : list string :=
  filter (λ k, String.prefix pre k = true) h.*1.

(** What the loop body of the global coordinates makes of a row of its
    quadrant. *)
Definition assemble_row (m : quadrant_model) (w : row) : row :=
  Row (obs w)
    (x_image (obs w) - crpix1 m)
    (y_image (obs w) - crpix2 m)
    ((x_image (obs w) - crpix1 m) * cd11 m + (y_image (obs w) - crpix2 m) * cd12 m)
    ((x_image (obs w) - crpix1 m) * cd21 m + (y_image (obs w) - crpix2 m) * cd22 m).

(** The assignment of [pv_start] as the specification words it: the
    second axis swaps its two quadratic terms only, every other key takes
    the coefficient of the same term as on the first axis. *)
Definition quadratic_swap_only (xres yres : Series) (pv : gmap string Qc) : Prop :=
  pv !! "PV1_1" = xres !! "etalin" ∧
  pv !! "PV1_2" = xres !! "nulin" ∧
  pv !! "PV1_4" = xres !! "np.power(etalin, 2)" ∧
  pv !! "PV1_5" = xres !! "etalin:nulin" ∧
  pv !! "PV1_6" = xres !! "np.power(nulin, 2)" ∧
  pv !! "PV2_1" = yres !! "etalin" ∧
  pv !! "PV2_2" = yres !! "nulin" ∧
  pv !! "PV2_4" = yres !! "np.power(nulin, 2)" ∧
  pv !! "PV2_5" = yres !! "etalin:nulin" ∧
  pv !! "PV2_6" = yres !! "np.power(etalin, 2)".

(** A regression result with six different coefficients. *)
Definition sample_res : Series :=
  list_to_map
    [("Intercept", Qc_of_Z 7); ("np.power(etalin, 2)", Qc_of_Z 3);
     ("np.power(nulin, 2)", Qc_of_Z 5); ("etalin", Qc_of_Z 1);
     ("nulin", Qc_of_Z 2); ("etalin:nulin", Qc_of_Z 4)].

(** The global-coordinate loop, row by row. *)
Definition assemble_spec (tbl : gmap nat quadrant_model) (o : observation) : row :=
  match tbl !! rcid o with
  | Some m =>
      if decide (rcid o < 64)%nat then assemble_row m (add_global_columns o)
      else add_global_columns o
  | None => add_global_columns o
  end.

(** A row in the other unit of the projected coordinates. *)
Definition rescale_row (s : Qc) (w : row) : row :=
  Row (rescale s (obs w)) (x_global w) (y_global w) (s * etalin w) (s * nulin w).

(** The coefficients of the distortion polynomial in the other unit. *)
Definition rescale_quadratic (s : Qc) (p : Series) : Series :=
  list_to_map
    [("Intercept", s * coef p "Intercept");
     ("np.power(etalin, 2)", coef p "np.power(etalin, 2)" / s);
     ("np.power(nulin, 2)", coef p "np.power(nulin, 2)" / s);
     ("etalin", coef p "etalin");
     ("nulin", coef p "nulin");
     ("etalin:nulin", coef p "etalin:nulin" / s)].

Definition scale_affine (s : Qc) (k : affine) : affine :=
  Affine (s * a11 k) (s * a12 k) (s * a21 k) (s * a22 k) (s * t1 k) (s * t2 k).

(** Some row has the linearized coordinates [(e, n)]. *)
Definition has_point (rows : list row) (e n : Qc) : Prop :=
  ∃ w, w ∈ rows ∧ etalin w = e ∧ nulin w = n.

(** ** An exact run on synthetic data *)

Definition exact_table (known : nat → affine) : gmap nat quadrant_model :=
  list_to_map ((λ i, (i, known_entry (known i))) <$> seq 0 64).

(** The distortion fits when the linear model is already exact: [eta] is
    [etalin] and [nu] is [nulin]. *)
Definition identity_xres : Series :=
  list_to_map
    [("Intercept", 0); ("np.power(etalin, 2)", 0); ("np.power(nulin, 2)", 0);
     ("etalin", 1); ("nulin", 0); ("etalin:nulin", 0)].

Definition identity_yres : Series :=
  list_to_map
    [("Intercept", 0); ("np.power(etalin, 2)", 0); ("np.power(nulin, 2)", 0);
     ("etalin", 0); ("nulin", 1); ("etalin:nulin", 0)].

Definition identity_pv : gmap string Qc :=
  list_to_map
    [("PV1_1", 1); ("PV1_2", 0); ("PV1_4", 0); ("PV1_5", 0); ("PV1_6", 0);
     ("PV2_1", 1); ("PV2_2", 0); ("PV2_4", 0); ("PV2_5", 0); ("PV2_6", 0)].

Definition exact_run (known : nat → affine) (df : list observation)
    (TELRAD TELDECD : Qc) : run :=
  Run (exact_xres known df) (exact_yres known df)
      (exact_table known)
      (assemble_spec (exact_table known) <$> df)
      identity_xres identity_yres identity_pv
      (header_cards TELRAD TELDECD (known_entry (known my_rcid)) (coef identity_pv)).

(** The offset [n] as a float. *)
Fixpoint qnat (n : nat) : Qc :=
  match n with
  | O => 0
  | S n' => qnat n' + 1
  end.

(** A focal plane whose quadrant [i] stretches x by two and is shifted by
    [(i, i)]. *)
Definition demo_known (i : nat) : affine := Affine (1 + 1) 0 0 1 (qnat i) (qnat i).

Definition demo_df : list observation := synthetic demo_known 64.

(** The claim that the unit of the projection does not matter, as the
    specification words it: the table and the distortion coefficients of a
    run on rescaled coordinates are those of a run on the original ones. *)
Definition scale_cancels (TELRAD TELDECD : Qc) (df : list observation) (s : Qc)
    : Prop :=
  ∀ r r', notebook TELRAD TELDECD df r →
          notebook TELRAD TELDECD (rescale s <$> df) r' →
          run_rcmeta r' = run_rcmeta r ∧ run_pv r' = run_pv r.

(** The same focal plane with the projected coordinates doubled. *)
Definition demo_known2 (i : nat) : affine := scale_affine (1 + 1) (demo_known i).

Definition demo_df2 : list observation := rescale (1 + 1) <$> demo_df.

(** A run on [demo_df] and a run on the doubled coordinates. *)
Definition demo_run : run := exact_run demo_known demo_df 0 0.

Definition demo_run2 : run := exact_run demo_known2 demo_df2 0 0.

(** Data for the first five quadrants only. *)
Definition partial_df : list observation := synthetic demo_known 5.

(** Regression results whose matrix for quadrant 0 is singular. *)
Definition singular_xres : Series :=
  list_to_map [("x_image", 1); ("y_image", 1 + 1)].

Definition singular_yres : Series :=
  list_to_map [("x_image", 1 + 1); ("y_image", (1 + 1) * (1 + 1))].

(** Regression results whose matrix for quadrant 0 is the singular
    [[3, 3], [5, 5]], with the offsets [1] and [1]. *)
Definition skew_xres : Series :=
  list_to_map [("C(rcid)[0]", 1); ("x_image", Qc_of_Z 3); ("y_image", Qc_of_Z 3)].

Definition skew_yres : Series :=
  list_to_map [("C(rcid)[0]", 1); ("x_image", Qc_of_Z 5); ("y_image", Qc_of_Z 5)].

(** The claim that a singular matrix is always refused, as the
    specification words it: the body of the loop fails at the inversion and
    the table gets no entry for the quadrant. *)
Definition singular_is_refused (xres yres : Series) (i : nat) : Prop :=
  ∀ a b c d,
    quadrant_cd xres yres i = Ok (Matrix2 (Some a) (Some b) (Some c) (Some d)) →
    det a b c d = 0 →
    rcmeta_entry xres yres i = Raise LinAlgError ∧
    (rcmeta xres yres).1 !! i = None.

(** ** The catalog files *)

(** [s.replace(old, new)] for a non-empty [old]: the occurrences of [old] are
    taken from the left and do not overlap; [skip] counts the characters of
    an occurrence that are still to be passed over. *)
Fixpoint replace_from (old new : string) (skip : nat) (s : string) : string :=
  match s with
  | EmptyString => EmptyString
  | String c s' =>
      match skip with
      | S k => replace_from old new k s'
      | O =>
          if String.prefix old s
          then new +:+ replace_from old new (String.length old - 1) s'
          else String c (replace_from old new 0 s')
      end
  end.

(** With an empty [old] Python puts [new] before every character and at the
    end. *)
Fixpoint replace_empty (new s : string) : string :=
  match s with
  | EmptyString => new
  | String c s' => new +:+ String c (replace_empty new s')
  end.

Definition str_replace (old new s : string) : string :=
  match old with
  | EmptyString => replace_empty new s
  | String _ _ => replace_from old new 0 s
  end.

(** [f'{n:01}']: a width of one never pads. *)
Definition fmt01 (n : nat) : string := pretty n.

Definition template_url : string :=
  "https://irsa.ipac.caltech.edu/ibe/data/ztf/products/sci/2019/0408" +:+
  "/164213/ztf_20190408164213_000747_zr_c01_o_q1_psfcat.fits".

(** The address of the science image whose header is [sci_header]. *)
Definition sci_url : string :=
  str_replace "_psfcat.fits" "_sciimg.fits" template_url.

(** [psf_url] in the body of the download loop. *)
Definition psf_url (ccd quadrant : nat) : string :=
  str_replace "_c01_o_q1_psfcat.fits"
    ("_c" +:+ fmt02 ccd +:+ "_o_q" +:+ fmt01 quadrant +:+ "_psfcat.fits")
    template_url.

(** The pairs [(ccd, quadrant)] in the order the two nested loops visit
    them. *)
Definition ccd_quadrants : list (nat * nat) :=
  ccd ← seq 1 16; quadrant ← seq 1 4; [(ccd, quadrant)].

(** ** Reading the catalogs into the data frame *)

(** A row of a PSF catalog, with the four columns the notebook reads. *)
Record psf_star : Set := PsfStar {
  tab_ra : Qc; tab_dec : Qc;
  tab_xpos : Qc; tab_ypos : Qc
}.

(** A catalog file: the card [rcid] of its header, an integer, and its
    table. *)
Record catalog : Set := Catalog {
  header_rcid : Z;
  tab : list psf_star
}.

(** The seven lists the download loop appends to; [rcids] holds float
    arrays, the products of the header card and [np.ones_like(tab['ra'])]. *)
Record columns : Set := Columns {
  xvals : list (list Qc);
  yvals : list (list Qc);
  etavals : list (list Qc);
  nuvals : list (list Qc);
  rcids : list (list Qc);
  ras : list (list Qc);
  decs : list (list Qc)
}.

(** The conversion of a float to [int32] in [np.array(..., dtype=np.int32)]:
    the fraction is dropped; a value outside the range of [int32] gives
    [-2^31], the result of the conversion instruction of x86-64 (numpy leaves
    that case to the platform). *)
Definition int32_of_float (x : Qc) : Z :=
  let z := (Qnum x `quot` Zpos (Qden x))%Z in
  if decide (- 2 ^ 31 ≤ z < 2 ^ 31)%Z then z else (- 2 ^ 31)%Z.

(** A row of [df] as it is first built: [rcid] is an [int32], the other six
    columns are floats. *)
Record frame_row : Set := FrameRow {
  df_rcid : Z;
  df_x_image : Qc; df_y_image : Qc;
  df_eta : Qc; df_nu : Qc;
  df_ra : Qc; df_dec : Qc
}.

(** The row as an [observation], whose [rcid] is a natural number: the
    same row when [rcid] is not negative. *)
Definition observation_of (w : frame_row) : observation :=
  Observation (Z.to_nat (df_rcid w)) (df_x_image w) (df_y_image w)
    (df_eta w) (df_nu w) (df_ra w) (df_dec w).

(** [pd.DataFrame] of a dictionary of seven arrays: one row per index;
    arrays of different lengths are refused. *)
Definition data_frame (rcid : list Z) (x_image y_image eta nu ra dec : list Qc)
    : option (list frame_row) :=
  if decide (length x_image = length rcid ∧ length y_image = length rcid ∧
             length eta = length rcid ∧ length nu = length rcid ∧
             length ra = length rcid ∧ length dec = length rcid)
  then Some (zip_with (λ r c, FrameRow r c.1 c.2.1 c.2.2.1 c.2.2.2.1
                                c.2.2.2.2.1 c.2.2.2.2.2)
               rcid (zip x_image (zip y_image (zip eta (zip nu (zip ra dec))))))
  else None.

Section Load.
(** A run in which every download succeeds: [fits_file url] is what
  [fits.getheader] and [Table.read] give for the file at [url]. *)
Variable fits_file : string → catalog.
(** [proj_wcs.wcs_world2pix] on one pair [(ra, dec)]; the projection is
  astropy's. *)
Variable wcs_world2pix : Qc * Qc → Qc * Qc.

(** The body of the download loop. *)
Definition load_catalog (ccd quadrant : nat) (acc : columns) : columns :=
let cat := fits_file (psf_url ccd quadrant) in
let plane_coords :=
  wcs_world2pix <$> ((λ s, (tab_ra s, tab_dec s)) <$> tab cat) in
Columns (xvals acc ++ [tab_xpos <$> tab cat])
        (yvals acc ++ [tab_ypos <$> tab cat])
        (etavals acc ++ [fst <$> plane_coords])
        (nuvals acc ++ [snd <$> plane_coords])
        (rcids acc ++ [(λ _, Qc_of_Z (header_rcid cat) * 1) <$> (tab_ra <$> tab cat)])
        (ras acc ++ [tab_ra <$> tab cat])
        (decs acc ++ [tab_dec <$> tab cat]).

(** [for ccd in range(1, 17): for quadrant in range(1, 5): ...] *)
Definition load_columns : columns :=
foldl (λ acc ccd,
         foldl (λ acc quadrant, load_catalog ccd quadrant acc) acc (seq 1 4))
      (Columns [] [] [] [] [] [] []) (seq 1 16).

(** The cells that stack the lists with [np.hstack], convert [rcid] to
  [int32] and build [df]. *)
Definition load : option (list frame_row) :=
let c := load_columns in
data_frame (int32_of_float <$> concat (rcids c))
  (concat (xvals c)) (concat (yvals c))
  (concat (etavals c)) (concat (nuvals c)) (concat (ras c)) (concat (decs c)).

(** The rows one catalog contributes. *)
Definition catalog_rows (cat : catalog) : list frame_row :=
(λ s, FrameRow (int32_of_float (Qc_of_Z (header_rcid cat) * 1))
        (tab_xpos s) (tab_ypos s)
        (wcs_world2pix (tab_ra s, tab_dec s)).1
        (wcs_world2pix (tab_ra s, tab_dec s)).2
        (tab_ra s) (tab_dec s)) <$> tab cat.
End Load.

(** ** Residuals *)

(** [res.resid]: the response minus the fitted value. *)
Definition resid {R : Type} (cols : list (string * (R → Qc))) (resp : R → Qc)
    (p : Series) (r : R) : Qc :=
  resp r - predict cols p r.

(** [df['etaresid'] = xres.resid*3600] and [df['nuresid'] = yres.resid*3600],
    after the linear fits. *)
Definition etaresid (df : list observation) (xres : Series) (o : observation) : Qc :=
  resid (linear_columns (levels df)) eta xres o * Qc_of_Z 3600.

Definition nuresid (df : list observation) (yres : Series) (o : observation) : Qc :=
  resid (linear_columns (levels df)) nu yres o * Qc_of_Z 3600.

(** [df['etaresid2']] and [df['nuresid2']], after the distortion fits. *)
Definition etaresid2 (xres : Series) (w : row) : Qc :=
  resid quadratic_columns (λ w, eta (obs w)) xres w * Qc_of_Z 3600.

Definition nuresid2 (yres : Series) (w : row) : Qc :=
  resid quadratic_columns (λ w, nu (obs w)) yres w * Qc_of_Z 3600.

(** The sum of a column, and the rows of one quadrant. *)
Definition Qc_sum (l : list Qc) : Qc := foldr Qcplus 0 l.

Definition quadrant_rows (i : nat) (df : list observation) : list observation :=
  filter (λ o, rcid o = i) df.

(** ** Printed output *)

(** ['%2d' % n] and ['%d' % n] for a non-negative integer. *)
Definition fmt_2d (n : nat) : string :=
  if decide (n < 10)%nat then " " +:+ pretty n else pretty n.

Definition fmt_d (n : nat) : string := pretty n.

(** The double quote character. *)
Definition dquote : string := String (ascii_of_nat 34) EmptyString.

(** [print(line)], where evaluating the line may raise: what was printed
    before stays printed. *)
Definition print_line (line : result string) (out : list string)
    : list string * option exn :=
  match line with
  | Raise e => (out, Some e)
  | Ok s => (out ++ [s], None)
  end.

(** A [for] loop whose body prints: the state is the list of the lines
    printed so far, and an exception in the body ends the loop. *)
Fixpoint for_each {A : Type}
    (body : A → list string → list string * option exn)
    (items : list A) (out : list string) : list string * option exn :=
  match items with
  | [] => (out, None)
  | a :: items' =>
      match body a out with
      | (out', Some e) => (out', Some e)
      | (out', None) => for_each body items' out'
      end
  end.

(** The order of strings that [sorted] uses: by character code. *)
Definition str_le (a b : string) : Prop := String.leb a b = true.

#[global] Instance str_le_dec (a b : string) : Decision (str_le a b).
Proof. unfold str_le. apply _. Defined.

Section Printing.
(** ['%W.Pf' % v], the fixed-point rendering of a float in a field of
  width [W] with [P] decimals, and [str(v)]; both are Python's and are
  left open. *)
Variable fmt_f : nat → nat → Qc → string.
Variable fmt_repr : Qc → string.

(** ['WCSDATA="%2d  %d  %13.10f %13.10f %13.10f %13.10f %10.3f %10.3f 0.0"' % (...)] *)
Definition wcsdata_format (ccdid qid : nat) (c11 c12 c21 c22 p1 p2 : Qc) : string :=
"WCSDATA=" +:+ dquote +:+ fmt_2d ccdid +:+ "  " +:+ fmt_d qid +:+ "  " +:+
fmt_f 13 10 c11 +:+ " " +:+ fmt_f 13 10 c12 +:+ " " +:+
fmt_f 13 10 c21 +:+ " " +:+ fmt_f 13 10 c22 +:+ " " +:+
fmt_f 10 3 p1 +:+ " " +:+ fmt_f 10 3 p2 +:+ " 0.0" +:+ dquote.

(** The body of the loop that prints the linear parameters. *)
Definition wcsdata_line (rcmeta : gmap nat quadrant_model) (ccdid qid : nat)
  : result string :=
let k := ((ccdid - 1) * 4 + qid)%nat in
m ← dict_get rcmeta k; let c11 := cd11 m in
m ← dict_get rcmeta k; let c12 := cd12 m in
m ← dict_get rcmeta k; let c21 := cd21 m in
m ← dict_get rcmeta k; let c22 := cd22 m in
m ← dict_get rcmeta k; let p1 := crpix1 m in
m ← dict_get rcmeta k; let p2 := crpix2 m in
ret (wcsdata_format ccdid qid c11 c12 c21 c22 p1 p2).

(** [for ccdid in range(1,17): for qid in [2,3,0,1]: print(...)] *)
Definition print_wcsdata (rcmeta : gmap nat quadrant_model)
  : list string * option exn :=
for_each (λ ccdid,
            for_each (λ qid, print_line (wcsdata_line rcmeta ccdid qid))
                     [2; 3; 0; 1]%nat)
         (seq 1 16) [].

(** [for k in sorted(pv_start.keys()): print('{}: {}'.format(k, pv_start[k]))] *)
Definition print_pv (pv : gmap string Qc) : list string * option exn :=
for_each (λ k, print_line (v ← dict_get pv k; ret (k +:+ ": " +:+ fmt_repr v)))
         (merge_sort str_le (map_to_list pv).*1) [].
End Printing.

(** ** Names used in the statements of the remaining properties *)

(** A character is a decimal digit; a string of digits. *)
Definition is_digit (c : ascii) : bool :=
  (48 <=? nat_of_ascii c)%nat && (nat_of_ascii c <=? 57)%nat.

Fixpoint digits (s : string) : bool :=
  match s with
  | EmptyString => true
  | String c s' => is_digit c && digits s'
  end.

(** The pairs [(ccdid, qid)] in the order in which the loop that prints the
    linear parameters visits them, and the place of quadrant [k] among
    them. *)
Definition ccdid_qids : list (nat * nat) :=
  ccdid ← seq 1 16; qid ← [2; 3; 0; 1]%nat; [(ccdid, qid)].

Definition wcsdata_position (k : nat) : nat :=
  (4 * (k / 4) + (k `mod` 4 + 2) `mod` 4)%nat.

(** ** More demonstration data *)

(** Four stars of quadrant 0 whose projected coordinates are not an affine
    function of the pixel: [eta = nu = x * y]. *)
Definition noisy_df : list observation :=
  [Observation 0 0 0 0 0 0 0; Observation 0 1 0 0 0 0 0;
   Observation 0 0 1 0 0 0 0; Observation 0 1 1 1 1 0 0].

(** The least-squares plane through them: [-1/4 + x/2 + y/2]. *)
Definition noisy_res : Series :=
  list_to_map [(label_level 0, - (1 / ((1 + 1) * (1 + 1))));
               ("x_image", 1 / (1 + 1)); ("y_image", 1 / (1 + 1))].

(** Two rows with the same linearized coordinates and different projected
    ones, and the distortion fit through them: the constant [1/2]. *)
Definition noisy_rows : list row :=
  [Row (Observation 0 0 0 0 0 0 0) 0 0 0 0;
   Row (Observation 0 0 0 1 1 0 0) 0 0 0 0].

Definition noisy_quadratic : Series :=
  list_to_map
    [("Intercept", 1 / (1 + 1)); ("np.power(etalin, 2)", 0);
     ("np.power(nulin, 2)", 0); ("etalin", 0); ("nulin", 0); ("etalin:nulin", 0)].

(** The demonstration data with one more star, alone in quadrant 70, whose
    slopes the data do not determine; and the same focal plane with another
    slope in that quadrant. *)
Definition lone_df : list observation := demo_df ++ [star_of demo_known 70 0 0].

Definition lone_known (i : nat) : affine :=
  if decide (i = 70)%nat then Affine (1 + 1 + 1) 0 0 1 (qnat 70) (qnat 70)
  else demo_known i.

Definition lone_run : run := exact_run demo_known lone_df 0 0.

Definition lone_run' : run := exact_run lone_known lone_df 0 0.

(** ** The fit of one quadrant on its own *)

(** The design of ['eta ~ x_image + y_image'] on the stars of one quadrant,
    and the vector with a given offset and slopes. *)
Definition affine_columns : list (string * (observation → Qc)) :=
  [("Intercept", λ _, 1); ("x_image", x_image); ("y_image", y_image)].

Definition affine_series (a b c : Qc) : Series :=
  list_to_map [("Intercept", a); ("x_image", b); ("y_image", c)].

(** The offset and slopes of quadrant [i] in a fit of the pooled formula. *)
Definition quadrant_fit (p : Series) (i : nat) : Series :=
  affine_series (offset_of p i) (slope_x_of p i) (slope_y_of p i).



(** ** A run on rescaled coordinates *)

(** An entry of [rcmeta] in the other unit of the projected coordinates. *)
Definition rescale_entry (s : Qc) (m : quadrant_model) : quadrant_model :=
  QuadrantModel (s * cd11 m) (s * cd12 m) (s * cd21 m) (s * cd22 m)
    (crpix1 m) (crpix2 m).

(** The distortion dictionary in the other unit. *)
Definition rescale_pv (s : Qc) (pv : gmap string Qc) : gmap string Qc :=
  list_to_map
    [("PV1_1", coef pv "PV1_1"); ("PV1_2", coef pv "PV1_2");
     ("PV1_4", coef pv "PV1_4" / s); ("PV1_5", coef pv "PV1_5" / s);
     ("PV1_6", coef pv "PV1_6" / s);
     ("PV2_1", coef pv "PV2_1"); ("PV2_2", coef pv "PV2_2");
     ("PV2_4", coef pv "PV2_4" / s); ("PV2_5", coef pv "PV2_5" / s);
     ("PV2_6", coef pv "PV2_6" / s)].

(** What a run leaves behind, carried to the data with every [(eta, nu)]
    multiplied by [s]. *)
Definition rescale_run (s TELRAD TELDECD : Qc) (r : run) : run :=
  Run (scale_series s (linear_xres r)) (scale_series s (linear_yres r))
      (rescale_entry s <$> run_rcmeta r)
      (rescale_row s <$> run_df r)
      (rescale_quadratic s (xres r)) (rescale_quadratic s (yres r))
      (rescale_pv s (run_pv r))
      (header_cards TELRAD TELDECD
         (rescale_entry s
            (default (QuadrantModel 0 0 0 0 0 0) (run_rcmeta r !! my_rcid)))
         (coef (rescale_pv s (run_pv r)))).

(** ** A focal plane with a distortion

    Four stars at the corners of the unit square in each of the 64
    quadrants.  The linear part of quadrant [i] is [curved_known i]; it maps
    the unit square to a rectangle centred at [(1/2, 1/2)].  The projected
    coordinates are bent: for the linear coordinates [(u, v)] of a star,
    [eta = u + (2u - 1)(2v - 1)] and [nu = v]. *)
Definition curved_known (i : nat) : affine :=
  match i with
  | 0%nat => Affine 1 0 0 1 0 0
  | 1%nat => Affine (Qc_of_Z 3) 0 0 1 (- (1)) 0
  | 2%nat => Affine (Qc_of_Z 5) 0 0 1 (- Qc_of_Z 2) 0
  | _ => Affine 1 0 0 (Qc_of_Z 3) 0 (- (1))
  end.

Definition bend (o : observation) : observation :=
  Observation (rcid o) (x_image o) (y_image o)
    (eta o + ((1 + 1) * eta o - 1) * ((1 + 1) * nu o - 1)) (nu o)
    (ra o) (dec o).

Definition corners (i : nat) : list observation :=
  bend <$> [star_of curved_known i 0 0; star_of curved_known i 1 0;
            star_of curved_known i 0 1; star_of curved_known i 1 1].

Definition curved_df : list observation := i ← seq 0 64; corners i.

(** The distortion fit of the bent coordinates:
    [eta = 1 - etalin - 2 nulin + 4 etalin nulin]. *)
Definition curved_xres : Series :=
  list_to_map
    [("Intercept", 1); ("np.power(etalin, 2)", 0); ("np.power(nulin, 2)", 0);
     ("etalin", - (1)); ("nulin", - Qc_of_Z 2); ("etalin:nulin", Qc_of_Z 4)].

Definition curved_pv : gmap string Qc :=
  list_to_map
    [("PV1_1", - (1)); ("PV1_2", - Qc_of_Z 2); ("PV1_4", 0);
     ("PV1_5", Qc_of_Z 4); ("PV1_6", 0);
     ("PV2_1", 1); ("PV2_2", 0); ("PV2_4", 0); ("PV2_5", 0); ("PV2_6", 0)].

Definition curved_run : run :=
  Run (exact_xres curved_known curved_df) (exact_yres curved_known curved_df)
      (exact_table curved_known)
      (assemble_spec (exact_table curved_known) <$> curved_df)
      curved_xres identity_yres curved_pv
      (header_cards 0 0 (known_entry (curved_known my_rcid)) (coef curved_pv)).

(** * Properties *)

(** Membership in a list that is written out. *)
Ltac in_list :=
  simpl; repeat first [apply list_elem_of_here | apply list_elem_of_further].

(** ** The error monad *)

Lemma bind_Ok {A B} (m : result A) (k : A → result B) (b : B) :
  m ≫= k = Ok b ↔ ∃ a, m = Ok a ∧ k a = Ok b.
Proof.
  destruct m as [e|a]; simpl; split.
  - discriminate.
  - intros (a & Ha & _). discriminate.
  - eauto.
  - intros (a' & [= ->] & Hk). exact Hk.
Qed.

Lemma py_float_Ok (a : pyfloat) (v : Qc) : py_float a = Ok v ↔ a = Some v.
Proof. destruct a; simpl; unfold ret, raise; split; congruence. Qed.

Lemma py_neg_Ok (a : pyfloat) (v : Qc) : py_neg a = Ok v ↔ ∃ u, a = Some u ∧ v = - u.
Proof.
  destruct a; simpl; unfold ret, raise; split.
  - intros [= <-]. eauto.
  - intros (u & [= ->] & ->). reflexivity.
  - discriminate.
  - intros (u & Hu & _). discriminate.
Qed.

Lemma py_add_Ok (a b r : pyfloat) :
  py_add a b = Ok r ↔ ∃ u v, a = Some u ∧ b = Some v ∧ r = Some (u + v).
Proof.
  destruct a, b; simpl; unfold ret, raise; split;
    try discriminate; try (intros (u & v & ? & ? & ?); discriminate).
  - intros [= <-]. eauto.
  - intros (u & v & [= ->] & [= ->] & ->). reflexivity.
Qed.

Lemma dict_get_Ok `{Countable K} {V} (d : gmap K V) (k : K) (v : V) :
  dict_get d k = Ok v ↔ d !! k = Some v.
Proof. unfold dict_get. destruct (d !! k); unfold ret, raise; split; congruence. Qed.

(** ** The loop that fills [rcmeta] *)

(** A loop that ends without exception has passed every index, and holds
    exactly the old keys and the indices. *)
Lemma rcmeta_loop_done xres yres ids acc st :
  rcmeta_loop xres yres ids acc = (st, None) →
  dom st = dom acc ∪ list_to_set ids ∧
  (∀ i, i ∈ ids → ∃ m, rcmeta_entry xres yres i = Ok m ∧ st !! i = Some m) ∧
  (∀ i, i ∉ ids → st !! i = acc !! i).
Proof.
  revert acc. induction ids as [|j ids IH]; intros acc; simpl.
  - intros [= ->]. split; [set_solver|]. split; [|done].
    intros i Hi. by apply elem_of_nil in Hi.
  - destruct (rcmeta_entry xres yres j) as [e|m] eqn:Hj; [discriminate|].
    intros Hloop. destruct (IH _ Hloop) as (Hdom & Hin & Hout).
    split; [rewrite Hdom, dom_insert_L; set_solver|]. split.
    + intros i Hi. destruct (decide (i ∈ ids)) as [Hi'|Hi']; [by apply Hin|].
      apply elem_of_cons in Hi as [->|Hi]; [|done].
      exists m. split; [done|]. by rewrite (Hout _ Hi'), lookup_insert_eq.
    + intros i Hi. apply not_elem_of_cons in Hi as [Hne Hi].
      by rewrite (Hout _ Hi), lookup_insert_ne.
Qed.

(** A loop that meets an index whose body raises ends with an exception,
    and that index is not in the dictionary (unless it was before). *)
Lemma rcmeta_loop_raises xres yres ids acc i e :
  i ∈ ids → rcmeta_entry xres yres i = Raise e → acc !! i = None →
  ∃ st e', rcmeta_loop xres yres ids acc = (st, Some e') ∧ st !! i = None.
Proof.
  revert acc. induction ids as [|j ids IH]; intros acc Hi He Hacc.
  - by apply elem_of_nil in Hi.
  - simpl. destruct (rcmeta_entry xres yres j) as [e1|m] eqn:Hj.
    + eauto.
    + assert (i ≠ j) as Hne by congruence.
      apply elem_of_cons in Hi as [?|Hi]; [done|].
      apply IH; [done..|]. by rewrite lookup_insert_ne.
Qed.

(** When the indices before [i] pass, the exception is the one of [i] and
    the dictionary holds exactly the indices before it. *)
Lemma rcmeta_loop_first xres yres pre i post acc e :
  (∀ j, j ∈ pre → ∃ m, rcmeta_entry xres yres j = Ok m) →
  rcmeta_entry xres yres i = Raise e →
  ∃ st, rcmeta_loop xres yres (pre ++ i :: post) acc = (st, Some e) ∧
        dom st = dom acc ∪ list_to_set pre.
Proof.
  revert acc. induction pre as [|j pre IH]; intros acc Hpre He; simpl.
  - rewrite He. exists acc. split; [done|set_solver].
  - destruct (Hpre j) as [m Hm]; [set_solver|]. rewrite Hm.
    destruct (IH (<[j:=m]> acc)) as (st & Hst & Hdom); [|done|].
    { intros k Hk. apply Hpre. set_solver. }
    exists st. split; [done|]. rewrite Hdom, dom_insert_L. set_solver.
Qed.

Lemma seq_split_at (n i : nat) :
  (i < n)%nat → seq 0 n = seq 0 i ++ i :: seq (S i) (n - S i).
Proof.
  intros Hi. replace n with (i + S (n - S i))%nat at 1 by lia.
  rewrite seq_app. reflexivity.
Qed.

Lemma size_dom_seq (n : nat) : size (list_to_set (seq 0 n) : gset nat) = n.
Proof.
  rewrite size_list_to_set; [apply length_seq|apply NoDup_seq].
Qed.

(** ** Entries of the table *)

(** A regular matrix gets its exact inverse. *)
Lemma matrix_inv_regular (a b c d : Qc) :
  det a b c d ≠ 0 →
  matrix_inv (Matrix2 (Some a) (Some b) (Some c) (Some d)) =
    Ok (Matrix2 (d / det a b c d) (- b / det a b c d)
                (- c / det a b c d) (a / det a b c d)).
Proof.
  intros Hdet. unfold matrix_inv. simpl.
  by destruct (decide (det a b c d = 0)).
Qed.

(** A singular matrix is left to the rounded elimination. *)
Lemma matrix_inv_singular (a b c d : Qc) :
  det a b c d = 0 →
  matrix_inv (Matrix2 (Some a) (Some b) (Some c) (Some d)) =
    match dgesv_inverse a b c d with
    | None => Raise LinAlgError
    | Some inv => Ok inv
    end.
Proof.
  intros Hdet. unfold matrix_inv. cbn [m11 m12 m21 m22].
  destruct (decide (det a b c d = 0)); [|done].
  by destruct (dgesv_inverse a b c d).
Qed.

Lemma matrix_inv_Ok cd inv :
  matrix_inv cd = Ok inv →
  ∃ a b c d, cd = Matrix2 (Some a) (Some b) (Some c) (Some d) ∧
    (det a b c d ≠ 0 →
     inv = Matrix2 (d / det a b c d) (- b / det a b c d)
                   (- c / det a b c d) (a / det a b c d)).
Proof.
  destruct cd as [[a|] [b|] [c|] [d|]]; try discriminate.
  intros H. exists a, b, c, d. split; [done|]. intros Hdet.
  rewrite matrix_inv_regular in H by done. by injection H as <-.
Qed.

(** The inversion raises nothing but [LinAlgError], and that on a singular
    matrix only. *)
Lemma matrix_inv_Raise (a b c d : Qc) (e : exn) :
  matrix_inv (Matrix2 (Some a) (Some b) (Some c) (Some d)) = Raise e →
  e = LinAlgError ∧ det a b c d = 0 ∧ dgesv_inverse a b c d = None.
Proof.
  destruct (decide (det a b c d = 0)) as [Hdet|Hdet].
  - rewrite matrix_inv_singular by done.
    destruct (dgesv_inverse a b c d); [discriminate|]. by intros [= <-].
  - by rewrite matrix_inv_regular.
Qed.

(** What the body of the loop returns when the four entries of the matrix
    and the two offsets are floats and the matrix is regular. *)
Lemma rcmeta_entry_regular xres yres i a b c d ox oy :
  quadrant_cd xres yres i = Ok (Matrix2 (Some a) (Some b) (Some c) (Some d)) →
  xres !! label_level i = Some ox →
  yres !! label_level i = Some oy →
  det a b c d ≠ 0 →
  rcmeta_entry xres yres i =
    Ok (QuadrantModel a b c d
          (d / det a b c d * - ox + - b / det a b c d * - oy)
          (- c / det a b c d * - ox + a / det a b c d * - oy)).
Proof.
  intros Hcd Hx Hy Hdet. unfold rcmeta_entry. rewrite Hcd. simpl.
  rewrite matrix_inv_regular by done.
  simpl. rewrite Hx, Hy. reflexivity.
Qed.

(** Conversely a body that returns had floats everywhere, and the entry
    holds the matrix as it was built. *)
Lemma rcmeta_entry_Ok xres yres i m :
  rcmeta_entry xres yres i = Ok m →
  ∃ ox oy,
    quadrant_cd xres yres i =
      Ok (Matrix2 (Some (cd11 m)) (Some (cd12 m)) (Some (cd21 m)) (Some (cd22 m))) ∧
    xres !! label_level i = Some ox ∧
    yres !! label_level i = Some oy.
Proof.
  unfold rcmeta_entry. intros H.
  apply bind_Ok in H as (cd & Hcd & H).
  apply bind_Ok in H as (inv & Hinv & H).
  apply bind_Ok in H as (nx & Hnx & H).
  apply bind_Ok in H as (ny & Hny & H).
  apply matrix_inv_Ok in Hinv as (a & b & c & d & -> & _).
  apply py_neg_Ok in Hnx as (ox & Hox & ->).
  apply py_neg_Ok in Hny as (oy & Hoy & ->).
  simpl in H. injection H as <-. simpl. by exists ox, oy.
Qed.

(** A singular matrix: the body raises when the rounded elimination meets
    a zero pivot, and otherwise stores what the rounded solve gives. *)
Lemma rcmeta_entry_singular xres yres i a b c d :
  quadrant_cd xres yres i = Ok (Matrix2 (Some a) (Some b) (Some c) (Some d)) →
  det a b c d = 0 →
  dgesv_inverse a b c d = None →
  rcmeta_entry xres yres i = Raise LinAlgError.
Proof.
  intros Hcd Hdet Hlu. unfold rcmeta_entry. rewrite Hcd. simpl.
  by rewrite matrix_inv_singular, Hlu.
Qed.

Lemma rcmeta_entry_rounded xres yres i a b c d inv ox oy :
  quadrant_cd xres yres i = Ok (Matrix2 (Some a) (Some b) (Some c) (Some d)) →
  det a b c d = 0 →
  dgesv_inverse a b c d = Some inv →
  xres !! label_level i = Some ox →
  yres !! label_level i = Some oy →
  rcmeta_entry xres yres i =
    Ok (QuadrantModel a b c d
          (matrix_mul_col inv (- ox, - oy)).1 (matrix_mul_col inv (- ox, - oy)).2).
Proof.
  intros Hcd Hdet Hlu Hx Hy. unfold rcmeta_entry. rewrite Hcd.
  cbn [mbind result_bind]. rewrite matrix_inv_singular, Hlu by done.
  cbn [mbind result_bind]. rewrite Hx, Hy. reflexivity.
Qed.

(** A missing offset label makes the body raise, at the inversion or at
    the unary minus. *)
Lemma rcmeta_entry_missing_level xres yres i :
  xres !! label_level i = None → ∃ e, rcmeta_entry xres yres i = Raise e.
Proof.
  intros Hx. destruct (rcmeta_entry xres yres i) as [e|m] eqn:H; [eauto|].
  apply rcmeta_entry_Ok in H as (ox & oy & _ & Hox & _). congruence.
Qed.

(** ** Column labels *)

Lemma string_app_cons (c : ascii) (s1 s2 : string) :
  String c s1 +:+ s2 = String c (s1 +:+ s2).
Proof. reflexivity. Qed.

Lemma string_app_assoc (s1 s2 s3 : string) :
  (s1 +:+ s2) +:+ s3 = s1 +:+ (s2 +:+ s3).
Proof.
  induction s1 as [|c s1 IH]; [done|]. rewrite !string_app_cons. by f_equal.
Qed.

Lemma string_app_length (s1 s2 : string) :
  String.length (s1 +:+ s2) = (String.length s1 + String.length s2)%nat.
Proof.
  induction s1 as [|c s1 IH]; [done|]. rewrite string_app_cons. simpl. by f_equal.
Qed.

(** Two concatenations with tails of equal length agree piecewise. *)
Lemma string_app_inj_tail (s1 s2 t1 t2 : string) :
  String.length t1 = String.length t2 →
  s1 +:+ t1 = s2 +:+ t2 → s1 = s2 ∧ t1 = t2.
Proof.
  intros Hlen. revert s2. induction s1 as [|c s1 IH]; intros [|c' s2];
    rewrite ?string_app_cons; change ("" +:+ ?s) with s.
  - done.
  - intros ->. simpl in Hlen. rewrite string_app_length in Hlen. lia.
  - intros <-. simpl in Hlen. rewrite string_app_length in Hlen. lia.
  - intros [= -> H]. destruct (IH _ H) as [-> ->]. done.
Qed.

#[global] Instance label_level_inj : Inj (=) (=) label_level.
Proof.
  intros i j H. unfold label_level in H. apply (inj _) in H.
  apply string_app_inj_tail in H as [H _]; [|done]. by apply (inj pretty).
Qed.

#[global] Instance label_level_x_inj : Inj (=) (=) label_level_x.
Proof.
  intros i j H. unfold label_level_x in H. apply (inj _) in H.
  apply string_app_inj_tail in H as [H _]; [|done]. by apply (inj pretty).
Qed.

#[global] Instance label_level_y_inj : Inj (=) (=) label_level_y.
Proof.
  intros i j H. unfold label_level_y in H. apply (inj _) in H.
  apply string_app_inj_tail in H as [H _]; [|done]. by apply (inj pretty).
Qed.

Lemma label_level_x_ne_y i j : label_level_x i ≠ label_level_y j.
Proof.
  unfold label_level_x, label_level_y. intros H. apply (inj _) in H.
  apply string_app_inj_tail in H as [_ H]; [discriminate|done].
Qed.

Lemma label_level_ne_x i j : label_level i ≠ label_level_x j.
Proof.
  unfold label_level, label_level_x. intros H.
  change "]:x_image" with ("]:x_imag" +:+ "e") in H.
  rewrite <-!string_app_assoc in H.
  apply string_app_inj_tail in H as [_ H]; [discriminate|done].
Qed.

Lemma label_level_ne_y i j : label_level i ≠ label_level_y j.
Proof.
  unfold label_level, label_level_y. intros H.
  change "]:y_image" with ("]:y_imag" +:+ "e") in H.
  rewrite <-!string_app_assoc in H.
  apply string_app_inj_tail in H as [_ H]; [discriminate|done].
Qed.

Lemma label_level_ne_x_image i : label_level i ≠ "x_image".
Proof. discriminate. Qed.
Lemma label_level_ne_y_image i : label_level i ≠ "y_image".
Proof. discriminate. Qed.
Lemma label_level_x_ne_x_image i : label_level_x i ≠ "x_image".
Proof. discriminate. Qed.
Lemma label_level_x_ne_y_image i : label_level_x i ≠ "y_image".
Proof. discriminate. Qed.
Lemma label_level_y_ne_x_image i : label_level_y i ≠ "x_image".
Proof. discriminate. Qed.
Lemma label_level_y_ne_y_image i : label_level_y i ≠ "y_image".
Proof. discriminate. Qed.

(** The labels of the linear design. *)
Lemma linear_labels (lv : list nat) :
  (linear_columns lv).*1 =
    (label_level <$> lv) ++ ["x_image"] ++ (label_level_x <$> tail lv) ++
    ["y_image"] ++ (label_level_y <$> tail lv).
Proof.
  unfold linear_columns. rewrite !fmap_app, <-!list_fmap_compose. reflexivity.
Qed.

Lemma elem_of_linear_labels (lv : list nat) (s : string) :
  s ∈ (linear_columns lv).*1 ↔
    (∃ l, l ∈ lv ∧ s = label_level l) ∨ s = "x_image" ∨
    (∃ l, l ∈ tail lv ∧ s = label_level_x l) ∨ s = "y_image" ∨
    (∃ l, l ∈ tail lv ∧ s = label_level_y l).
Proof.
  rewrite linear_labels, !elem_of_app, !list_elem_of_fmap, !list_elem_of_singleton.
  naive_solver.
Qed.

Lemma label_level_in_labels lv i :
  label_level i ∈ (linear_columns lv).*1 ↔ i ∈ lv.
Proof.
  rewrite elem_of_linear_labels. split.
  - intros [(l & Hl & Heq)|[?|[(l & _ & Heq)|[?|(l & _ & Heq)]]]].
    + by apply (inj _) in Heq as ->.
    + done.
    + by apply label_level_ne_x in Heq.
    + done.
    + by apply label_level_ne_y in Heq.
  - intros Hi. left. eauto.
Qed.

Lemma label_level_x_in_labels lv i :
  label_level_x i ∈ (linear_columns lv).*1 ↔ i ∈ tail lv.
Proof.
  rewrite elem_of_linear_labels. split.
  - intros [(l & _ & Heq)|[?|[(l & Hl & Heq)|[?|(l & _ & Heq)]]]].
    + symmetry in Heq. by apply label_level_ne_x in Heq.
    + done.
    + by apply (inj _) in Heq as ->.
    + done.
    + by apply label_level_x_ne_y in Heq.
  - intros Hi. right; right; left. eauto.
Qed.

Lemma label_level_y_in_labels lv i :
  label_level_y i ∈ (linear_columns lv).*1 ↔ i ∈ tail lv.
Proof.
  rewrite elem_of_linear_labels. split.
  - intros [(l & _ & Heq)|[?|[(l & _ & Heq)|[?|(l & Hl & Heq)]]]].
    + symmetry in Heq. by apply label_level_ne_y in Heq.
    + done.
    + symmetry in Heq. by apply label_level_x_ne_y in Heq.
    + done.
    + by apply (inj _) in Heq as ->.
  - intros Hi. do 4 right. eauto.
Qed.

Lemma NoDup_linear_labels (lv : list nat) :
  NoDup lv → NoDup (linear_columns lv).*1.
Proof.
  intros Hlv. assert (NoDup (tail lv)) as Htl.
  { destruct lv; [done|]. by apply NoDup_cons in Hlv as [_ ?]. }
  rewrite linear_labels.
  apply NoDup_app. split; [by apply (NoDup_fmap_2 _)|]. split.
  { intros s (l & -> & _)%list_elem_of_fmap.
    rewrite !elem_of_app, !list_elem_of_fmap, !list_elem_of_singleton.
    intros [?|[(k & Hk & _)|[?|(k & Hk & _)]]]; try done.
    - by apply label_level_ne_x in Hk.
    - by apply label_level_ne_y in Hk. }
  apply NoDup_app. split; [apply NoDup_singleton|]. split.
  { intros s ->%list_elem_of_singleton.
    rewrite !elem_of_app, !list_elem_of_fmap, !list_elem_of_singleton.
    intros [(k & Hk & _)|[?|(k & Hk & _)]]; done. }
  apply NoDup_app. split; [by apply (NoDup_fmap_2 _)|]. split.
  { intros s (l & -> & _)%list_elem_of_fmap.
    rewrite !elem_of_app, !list_elem_of_fmap, !list_elem_of_singleton.
    intros [?|(k & Hk & _)]; [done|]. by apply label_level_x_ne_y in Hk. }
  apply NoDup_app. split; [apply NoDup_singleton|]. split.
  { intros s ->%list_elem_of_singleton.
    rewrite list_elem_of_fmap. intros (k & Hk & _). done. }
  by apply (NoDup_fmap_2 _).
Qed.

(** ** Levels *)

Lemma levels_Permutation df : levels df ≡ₚ remove_dups (rcid <$> df).
Proof. apply merge_sort_Permutation. Qed.

Lemma elem_of_levels df i : i ∈ levels df ↔ ∃ o, o ∈ df ∧ rcid o = i.
Proof.
  rewrite levels_Permutation, elem_of_remove_dups, list_elem_of_fmap.
  naive_solver.
Qed.

Lemma NoDup_levels df : NoDup (levels df).
Proof. rewrite levels_Permutation. apply NoDup_remove_dups. Qed.

Lemma levels_sorted df : StronglySorted (≤)%nat (levels df).
Proof. unfold levels. apply (StronglySorted_merge_sort _). Qed.

(** The first level is the smallest; level 0, when present, is the
    reference level and no other level is. *)
Lemma levels_head_zero df :
  0%nat ∈ levels df → ∃ lv, levels df = 0%nat :: lv ∧ 0%nat ∉ lv.
Proof.
  intros H0. pose proof (levels_sorted df) as Hs.
  pose proof (NoDup_levels df) as Hnd.
  destruct (levels df) as [|l lv]; [by apply elem_of_nil in H0|].
  apply StronglySorted_inv in Hs as [_ Hall].
  apply NoDup_cons in Hnd as [Hl _].
  apply elem_of_cons in H0 as [<-|H0]; [eauto|].
  rewrite Forall_forall in Hall. specialize (Hall _ H0).
  assert (l = 0%nat) as -> by lia. done.
Qed.

Lemma elem_of_tail_levels df i :
  0%nat ∈ levels df → i ∈ tail (levels df) ↔ i ∈ levels df ∧ i ≠ 0%nat.
Proof.
  intros (lv & Heq & H0)%levels_head_zero. rewrite Heq. simpl.
  rewrite elem_of_cons. split.
  - intros Hi. split; [by right|]. intros ->. done.
  - intros [[->|Hi] Hne]; done.
Qed.

(** ** Rational arithmetic *)

Lemma Qc_pow2 (x : Qc) : x ^ 2 = x * x.
Proof. simpl. ring. Qed.

Lemma Qc_square_nonneg (x : Qc) : 0 ≤ x * x.
Proof.
  destruct (Qclt_le_dec x 0) as [Hneg|Hpos].
  - replace (x * x) with (- x * - x) by ring.
    assert (0 ≤ - x) as H.
    { apply Qclt_le_weak in Hneg. apply Qcopp_le_compat in Hneg.
      by replace (- 0) with 0 in Hneg by ring. }
    rewrite <-(Qcmult_0_l (- x)). by apply Qcmult_le_compat_r.
  - rewrite <-(Qcmult_0_l x). by apply Qcmult_le_compat_r.
Qed.

Lemma Qc_pow2_nonneg (x : Qc) : 0 ≤ x ^ 2.
Proof. rewrite Qc_pow2. apply Qc_square_nonneg. Qed.

Lemma Qc_pow2_zero (x : Qc) : x ^ 2 = 0 → x = 0.
Proof. rewrite Qc_pow2. intros H. by destruct (Qcmult_integral _ _ H). Qed.

Lemma Qc_sum_zero (x y : Qc) : 0 ≤ x → 0 ≤ y → x + y = 0 → x = 0 ∧ y = 0.
Proof.
  intros Hx Hy Hsum.
  assert (x ≤ 0) as Hx'.
  { rewrite <-Hsum. rewrite <-(Qcplus_0_r x) at 1. by apply Qcplus_le_mono_l. }
  assert (x = 0) as -> by by apply Qcle_antisym.
  split; [done|]. by rewrite Qcplus_0_l in Hsum.
Qed.

Lemma Qc_mult_le_l (k x y : Qc) : 0 ≤ k → x ≤ y → k * x ≤ k * y.
Proof.
  intros Hk Hxy. rewrite !(Qcmult_comm k). by apply Qcmult_le_compat_r.
Qed.

Lemma Qc_minus_zero (x y : Qc) : x - y = 0 ↔ x = y.
Proof.
  split.
  - intros H. replace x with (x - y + y) by ring. rewrite H. ring.
  - intros ->. ring.
Qed.

(** ** Least squares *)


Lemma coef_scale_series s p l : coef (scale_series s p) l = s * coef p l.
Proof.
  unfold coef, scale_series. rewrite lookup_fmap.
  destruct (p !! l); simpl; ring.
Qed.

Lemma dom_scale_series s p : dom (scale_series s p) = dom p.
Proof. unfold scale_series. apply dom_fmap_L. Qed.

Lemma coef_mid_series p q l :
  coef (mid_series p q) l = (coef p l + coef q l) / (1 + 1).
Proof.
  unfold coef, mid_series. rewrite lookup_merge.
  destruct (p !! l), (q !! l); simpl; try done. by field.
Qed.

Lemma dom_mid_series p q : dom p = dom q → dom (mid_series p q) = dom p.
Proof.
  intros Hdom. apply set_eq. intros l. rewrite !elem_of_dom.
  unfold mid_series. rewrite lookup_merge.
  assert (is_Some (p !! l) ↔ is_Some (q !! l)) as Hpq.
  { by rewrite <-!elem_of_dom, Hdom. }
  destruct (p !! l), (q !! l); simpl; [split; eauto..| |done].
  split; intros _; [apply Hpq|]; eauto.
Qed.

Section LeastSquares.
Context {R : Type}.
Variable cols : list (string * (R → Qc)).

Lemma predict_ext (p q : Series) (r : R) :
  (∀ l, l ∈ cols.*1 → coef p l = coef q l) → predict cols p r = predict cols q r.
Proof.
  unfold predict. induction cols as [|c cs IH]; simpl; [done|].
  intros H. rewrite IH, (H c.1); [done|set_solver|].
  intros l Hl. apply H. set_solver.
Qed.

Lemma predict_row_ext (p : Series) (r r' : R) :
  (∀ c, c ∈ cols → c.2 r = c.2 r') → predict cols p r = predict cols p r'.
Proof.
  unfold predict. induction cols as [|c cs IH]; simpl; [done|].
  intros H. rewrite IH, (H c); [done|set_solver|].
  intros c' Hc'. apply H. set_solver.
Qed.

Lemma predict_scale (s : Qc) (p : Series) (r : R) :
  predict cols (scale_series s p) r = s * predict cols p r.
Proof.
  unfold predict. induction cols as [|c cs IH]; simpl; [ring|].
  rewrite IH, coef_scale_series. ring.
Qed.

Lemma predict_mid (p q : Series) (r : R) :
  predict cols (mid_series p q) r =
    (predict cols p r + predict cols q r) / (1 + 1).
Proof.
  unfold predict. induction cols as [|c cs IH]; simpl; [by field|].
  rewrite IH, coef_mid_series. by field.
Qed.

Variable resp : R → Qc.

Lemma ssr_nonneg (df : list R) (p : Series) : 0 ≤ ssr cols resp df p.
Proof.
  induction df as [|r df IH]; simpl; [done|].
  apply Qcplus_nonneg_nonneg; [apply Qc_pow2_nonneg|done].
Qed.

(** The sum of squares vanishes exactly when every residual does. *)
Lemma ssr_zero (df : list R) (p : Series) :
  ssr cols resp df p = 0 ↔ ∀ r, r ∈ df → resp r = predict cols p r.
Proof.
  induction df as [|r df IH]; simpl.
  - split; [|done]. intros _ r Hr. by apply elem_of_nil in Hr.
  - split.
    + intros H. apply Qc_sum_zero in H as [H1 H2];
        [|apply Qc_pow2_nonneg|apply ssr_nonneg].
      intros r' [->|Hr']%elem_of_cons.
      * by apply Qc_minus_zero, Qc_pow2_zero.
      * by apply IH.
    + intros H. rewrite (proj2 IH), (H r); [|set_solver|].
      * replace (predict cols p r - predict cols p r) with 0 by ring.
        simpl. ring.
      * intros r' Hr'. apply H. set_solver.
Qed.

(** A vector without residual is a least-squares solution. *)
Lemma exact_fit_is_ols (df : list R) (p : Series) :
  dom p = list_to_set cols.*1 →
  (∀ r, r ∈ df → resp r = predict cols p r) →
  ols_fit cols resp df p.
Proof.
  intros Hdom Hres. split; [done|]. intros p' _.
  rewrite (proj2 (ssr_zero df p) Hres). apply ssr_nonneg.
Qed.

(** When some vector has no residual, every least-squares solution has
    none. *)
Lemma ols_fit_exact (df : list R) (p q : Series) :
  ols_fit cols resp df p →
  dom q = list_to_set cols.*1 →
  (∀ r, r ∈ df → resp r = predict cols q r) →
  ∀ r, r ∈ df → resp r = predict cols p r.
Proof.
  intros [_ Hmin] Hdom Hq. apply ssr_zero.
  apply Qcle_antisym; [|apply ssr_nonneg].
  rewrite <-(proj2 (ssr_zero df q) Hq). by apply Hmin.
Qed.

Lemma fitted_distance_nonneg df p q : 0 ≤ fitted_distance cols df p q.
Proof.
  induction df as [|r df IH]; simpl; [done|].
  apply Qcplus_nonneg_nonneg; [apply Qc_pow2_nonneg|done].
Qed.

Lemma fitted_distance_zero df p q :
  fitted_distance cols df p q = 0 →
  ∀ r, r ∈ df → predict cols p r = predict cols q r.
Proof.
  induction df as [|r df IH]; simpl.
  - intros _ r Hr. by apply elem_of_nil in Hr.
  - intros H. apply Qc_sum_zero in H as [H1 H2];
      [|apply Qc_pow2_nonneg|apply fitted_distance_nonneg].
    intros r' [->|Hr']%elem_of_cons.
    + by apply Qc_minus_zero, Qc_pow2_zero.
    + by apply IH.
Qed.

Lemma ssr_cons (r : R) (df : list R) (p : Series) :
  ssr cols resp (r :: df) p =
    (resp r - predict cols p r) ^ 2 + ssr cols resp df p.
Proof. reflexivity. Qed.

Lemma fitted_distance_cons (r : R) (df : list R) (p q : Series) :
  fitted_distance cols (r :: df) p q =
    (predict cols p r - predict cols q r) ^ 2 + fitted_distance cols df p q.
Proof. reflexivity. Qed.

(** The parallelogram identity for the sum of squares. *)
Lemma ssr_mid (df : list R) (p q : Series) :
  (1 + 1) * (1 + 1) * ssr cols resp df (mid_series p q) + fitted_distance cols df p q =
    (1 + 1) * (ssr cols resp df p + ssr cols resp df q).
Proof.
  induction df as [|r df IH]; [simpl; ring|].
  rewrite !ssr_cons, fitted_distance_cons, !Qc_pow2, predict_mid.
  set (a := predict cols p r). set (b := predict cols q r).
  set (S1 := ssr cols resp df p) in *. set (S2 := ssr cols resp df q) in *.
  set (Sm := ssr cols resp df (mid_series p q)) in *.
  set (D := fitted_distance cols df p q) in *.
  transitivity ((1 + 1) * ((resp r - a) * (resp r - a) + (resp r - b) * (resp r - b))
                + (1 + 1) * (S1 + S2)); [|ring].
  rewrite <-IH. by field.
Qed.

(** Two least-squares solutions have the same fitted values. *)
Lemma ols_fit_fitted_unique (df : list R) (p q : Series) :
  ols_fit cols resp df p → ols_fit cols resp df q →
  ∀ r, r ∈ df → predict cols p r = predict cols q r.
Proof.
  intros [Hdp Hp] [Hdq Hq]. apply fitted_distance_zero.
  apply Qcle_antisym; [|apply fitted_distance_nonneg].
  pose proof (ssr_mid df p q) as Hmid.
  assert (dom (mid_series p q) = list_to_set cols.*1) as Hdm.
  { rewrite dom_mid_series; congruence. }
  pose proof (Hp _ Hdm) as H1. pose proof (Hq _ Hdm) as H2.
  set (S1 := ssr cols resp df p) in *. set (S2 := ssr cols resp df q) in *.
  set (Sm := ssr cols resp df (mid_series p q)) in *.
  set (D := fitted_distance cols df p q) in *.
  assert ((1 + 1) * (S1 + S2) ≤ (1 + 1) * (1 + 1) * Sm) as Hle.
  { replace ((1 + 1) * (1 + 1) * Sm) with ((1 + 1) * (Sm + Sm)) by ring.
    apply Qc_mult_le_l; [done|]. by apply Qcplus_le_compat. }
  rewrite <-Hmid in Hle.
  apply (Qcplus_le_mono_l _ _ ((1 + 1) * (1 + 1) * Sm)).
  by rewrite Qcplus_0_r.
Qed.
End LeastSquares.

(** ** The linear design *)

Lemma predict_cons {R} (c : string * (R → Qc)) (cs : list (string * (R → Qc)))
    (p : Series) (r : R) :
  predict (c :: cs) p r = coef p c.1 * c.2 r + predict cs p r.
Proof. reflexivity. Qed.

Lemma predict_app {R} (c1 c2 : list (string * (R → Qc))) (p : Series) (r : R) :
  predict (c1 ++ c2) p r = predict c1 p r + predict c2 p r.
Proof.
  unfold predict. induction c1 as [|c c1 IH]; simpl; [ring|].
  rewrite IH. ring.
Qed.

(** Over a family of dummy-coded columns only the column of the row's own
    level contributes. *)
Lemma predict_dummies (lbl : nat → string) (f : nat → observation → Qc)
    (g : observation → Qc) (ls : list nat) (p : Series) (o : observation) :
  (∀ l, f l o = dummy l o * g o) → NoDup ls →
  predict ((λ l, (lbl l, f l)) <$> ls) p o =
    if decide (rcid o ∈ ls) then coef p (lbl (rcid o)) * g o else 0.
Proof.
  intros Hf. induction ls as [|l ls IH]; intros Hnd.
  - destruct (decide (rcid o ∈ [])) as [H|_]; [by apply elem_of_nil in H|done].
  - apply NoDup_cons in Hnd as [Hl Hnd].
    rewrite fmap_cons, predict_cons, (IH Hnd). simpl. rewrite Hf. unfold dummy.
    destruct (decide (rcid o = l)) as [->|Hne].
    + destruct (decide (l ∈ ls)); [done|].
      destruct (decide (l ∈ l :: ls)) as [_|H]; [ring|]. set_solver.
    + destruct (decide (rcid o ∈ ls)) as [Hin|Hin].
      * destruct (decide (rcid o ∈ l :: ls)) as [_|H]; [ring|]. set_solver.
      * destruct (decide (rcid o ∈ l :: ls)) as [H|_]; [|ring]. set_solver.
Qed.

(** The fitted value of a row is the affine model of its quadrant, provided
    the test [i > 0] of the loop agrees with the treatment coding. *)
Lemma predict_linear_coded (df : list observation) (p : Series) (o : observation) :
  rcid o ∈ levels df →
  ((0 < rcid o)%nat ↔ rcid o ∈ tail (levels df)) →
  predict (linear_columns (levels df)) p o =
    offset_of p (rcid o) + slope_x_of p (rcid o) * x_image o
    + slope_y_of p (rcid o) * y_image o.
Proof.
  intros Ho Htl. pose proof (NoDup_levels df) as Hnd.
  assert (NoDup (tail (levels df))) as Hndt.
  { destruct (levels df); [done|]. by apply NoDup_cons in Hnd as [_ ?]. }
  unfold linear_columns. rewrite !predict_app.
  rewrite (predict_dummies label_level dummy (λ _, 1)); [|intros; ring|done].
  rewrite (predict_dummies label_level_x _ x_image); [|done..].
  rewrite (predict_dummies label_level_y _ y_image); [|done..].
  unfold predict, offset_of, slope_x_of, slope_y_of. simpl.
  destruct (decide (rcid o ∈ levels df)); [|done].
  destruct (decide (0 < rcid o)%nat) as [Hpos|Hpos];
    destruct (decide (rcid o ∈ tail (levels df))) as [Hin|Hin].
  - ring.
  - destruct Hin. by apply Htl.
  - by apply Htl in Hin.
  - ring.
Qed.

(** Level 0 is first when it is present, and then it is the only level that
    is not in the tail. *)
Lemma levels_coded (df : list observation) (i : nat) :
  i ∈ levels df → (i = 0%nat ∨ i ∈ tail (levels df)) →
  ((0 < i)%nat ↔ i ∈ tail (levels df)).
Proof.
  intros Hi [->|Hti].
  - destruct (levels_head_zero df Hi) as (lv & Heq & H0). rewrite Heq. simpl.
    split; [lia|done].
  - split; [done|]. intros _.
    destruct (decide (i = 0%nat)) as [->|]; [|lia].
    destruct (levels_head_zero df Hi) as (lv & Heq & H0).
    rewrite Heq in Hti. done.
Qed.

Lemma predict_linear (df : list observation) (p : Series) (o : observation) :
  0%nat ∈ levels df → rcid o ∈ levels df →
  predict (linear_columns (levels df)) p o =
    offset_of p (rcid o) + slope_x_of p (rcid o) * x_image o
    + slope_y_of p (rcid o) * y_image o.
Proof.
  intros H0 Ho. apply predict_linear_coded; [done|].
  apply levels_coded; [done|].
  destruct (decide (rcid o = 0%nat)); [by left|right].
  by apply elem_of_tail_levels.
Qed.

Lemma lookup_coef (p : Series) (l : string) :
  l ∈ dom p → p !! l = Some (coef p l).
Proof. intros [v Hv]%elem_of_dom. unfold coef. by rewrite Hv. Qed.

(** A fit over data that has quadrant 0 and quadrant [i] gives the loop of
    [rcmeta] the floats it asks for. *)
Lemma quadrant_cd_fit (df : list observation) (px py : Series) (i : nat) :
  dom px = list_to_set (linear_columns (levels df)).*1 →
  dom py = list_to_set (linear_columns (levels df)).*1 →
  0%nat ∈ levels df → i ∈ levels df →
  quadrant_cd px py i =
    Ok (Matrix2 (Some (slope_x_of px i)) (Some (slope_y_of px i))
                (Some (slope_x_of py i)) (Some (slope_y_of py i))) ∧
  px !! label_level i = Some (offset_of px i) ∧
  py !! label_level i = Some (offset_of py i).
Proof.
  intros Hdx Hdy H0 Hi.
  assert (∀ p l, dom p = list_to_set (linear_columns (levels df)).*1 →
            l ∈ (linear_columns (levels df)).*1 → p !! l = Some (coef p l))
    as Hget.
  { intros p l Hd Hl. apply lookup_coef. rewrite Hd. set_solver. }
  assert ("x_image" ∈ (linear_columns (levels df)).*1) as Hx.
  { apply elem_of_linear_labels. auto. }
  assert ("y_image" ∈ (linear_columns (levels df)).*1) as Hy.
  { apply elem_of_linear_labels. auto. }
  split; [|split; apply Hget; try done; by apply label_level_in_labels].
  unfold quadrant_cd, slope_x_of, slope_y_of.
  rewrite !(Hget _ "x_image"), !(Hget _ "y_image") by done.
  destruct (decide (0 < i)%nat) as [Hpos|Hpos].
  - assert (i ∈ tail (levels df)) as Hti.
    { apply elem_of_tail_levels; [done|]. split; [done|lia]. }
    rewrite !(Hget _ (label_level_x i)), !(Hget _ (label_level_y i));
      [done|done|by apply label_level_y_in_labels|done
      |by apply label_level_y_in_labels|done|by apply label_level_x_in_labels
      |done|by apply label_level_x_in_labels].
  - rewrite !Qcplus_0_r. done.
Qed.

(** A quadrant without observations has no offset coefficient. *)
Lemma missing_level_label (df : list observation) (p : Series) (i : nat) :
  dom p = list_to_set (linear_columns (levels df)).*1 →
  i ∉ rcid <$> df →
  p !! label_level i = None.
Proof.
  intros Hd Hi. apply not_elem_of_dom. rewrite Hd, elem_of_list_to_set.
  rewrite label_level_in_labels, elem_of_levels.
  intros (o & Ho & <-). apply Hi, list_elem_of_fmap. eauto.
Qed.

(** ** Three stars fix an affine model *)

Lemma affine_unique (a b c a' b' c' x1 y1 x2 y2 x3 y3 : Qc) :
  (x2 - x1) * (y3 - y1) - (x3 - x1) * (y2 - y1) ≠ 0 →
  a + b * x1 + c * y1 = a' + b' * x1 + c' * y1 →
  a + b * x2 + c * y2 = a' + b' * x2 + c' * y2 →
  a + b * x3 + c * y3 = a' + b' * x3 + c' * y3 →
  a = a' ∧ b = b' ∧ c = c'.
Proof.
  intros HD H1 H2 H3.
  set (D := (x2 - x1) * (y3 - y1) - (x3 - x1) * (y2 - y1)) in *.
  assert ((b - b') * D = 0) as Hb.
  { transitivity
      (((a + b * x2 + c * y2) - (a' + b' * x2 + c' * y2)
        - ((a + b * x1 + c * y1) - (a' + b' * x1 + c' * y1))) * (y3 - y1)
       - ((a + b * x3 + c * y3) - (a' + b' * x3 + c' * y3)
          - ((a + b * x1 + c * y1) - (a' + b' * x1 + c' * y1))) * (y2 - y1));
      [unfold D; ring|]. rewrite H1, H2, H3. ring. }
  assert ((c - c') * D = 0) as Hc.
  { transitivity
      (((a + b * x3 + c * y3) - (a' + b' * x3 + c' * y3)
        - ((a + b * x1 + c * y1) - (a' + b' * x1 + c' * y1))) * (x2 - x1)
       - ((a + b * x2 + c * y2) - (a' + b' * x2 + c' * y2)
          - ((a + b * x1 + c * y1) - (a' + b' * x1 + c' * y1))) * (x3 - x1));
      [unfold D; ring|]. rewrite H1, H2, H3. ring. }
  apply Qcmult_integral in Hb as [Hb|Hb]; [|done].
  apply Qcmult_integral in Hc as [Hc|Hc]; [|done].
  apply Qc_minus_zero in Hb as ->. apply Qc_minus_zero in Hc as ->.
  split; [|done].
  replace a with (a + b' * x1 + c' * y1 - (b' * x1 + c' * y1)) by ring.
  rewrite H1. ring.
Qed.

(** Two fitted models that agree on the stars of a quadrant with three
    non-collinear stars agree on that quadrant. *)
Lemma three_stars_fix_quadrant (df : list observation) (p q : Series) (i : nat) :
  0%nat ∈ levels df → three_stars df i →
  (∀ o, o ∈ df → predict (linear_columns (levels df)) p o
                 = predict (linear_columns (levels df)) q o) →
  offset_of p i = offset_of q i ∧ slope_x_of p i = slope_x_of q i ∧
  slope_y_of p i = slope_y_of q i.
Proof.
  intros H0 (o1 & o2 & o3 & Ho1 & Ho2 & Ho3 & Hr1 & Hr2 & Hr3 & Hnc) Hagree.
  assert (∀ o, o ∈ df → rcid o = i →
    offset_of p i + slope_x_of p i * x_image o + slope_y_of p i * y_image o =
    offset_of q i + slope_x_of q i * x_image o + slope_y_of q i * y_image o)
    as Hpt.
  { intros o Ho Hr. specialize (Hagree o Ho).
    rewrite !predict_linear, Hr in Hagree; [done|done|..].
    - apply elem_of_levels. eauto.
    - done.
    - apply elem_of_levels. eauto. }
  eapply affine_unique; [exact Hnc|by apply Hpt..].
Qed.

(** ** Exact fits of synthetic data *)

Lemma exact_series_labels lv off sx sy :
  (((λ l, (label_level l, off l)) <$> lv) ++
    [("x_image", sx (default 0%nat (head lv)))] ++
    ((λ l, (label_level_x l, sx l - sx (default 0%nat (head lv)))) <$> tail lv) ++
    [("y_image", sy (default 0%nat (head lv)))] ++
    ((λ l, (label_level_y l, sy l - sy (default 0%nat (head lv)))) <$> tail lv)).*1
  = (linear_columns lv).*1.
Proof.
  unfold linear_columns. rewrite !fmap_app, <-!list_fmap_compose. reflexivity.
Qed.

Lemma dom_exact_series lv off sx sy :
  dom (exact_series lv off sx sy) = list_to_set (linear_columns lv).*1.
Proof.
  unfold exact_series. rewrite dom_list_to_map_L. by rewrite exact_series_labels.
Qed.

Lemma coef_exact_series lv off sx sy l v :
  NoDup lv →
  (l, v) ∈ ((λ l, (label_level l, off l)) <$> lv) ++
    [("x_image", sx (default 0%nat (head lv)))] ++
    ((λ l, (label_level_x l, sx l - sx (default 0%nat (head lv)))) <$> tail lv) ++
    [("y_image", sy (default 0%nat (head lv)))] ++
    ((λ l, (label_level_y l, sy l - sy (default 0%nat (head lv)))) <$> tail lv) →
  coef (exact_series lv off sx sy) l = v.
Proof.
  intros Hnd Hin. unfold coef, exact_series.
  erewrite elem_of_list_to_map_1; [done| |exact Hin].
  rewrite exact_series_labels. by apply NoDup_linear_labels.
Qed.

(** The exact vector has the offsets and slopes it was built from. *)
Lemma exact_series_model (df : list observation) off sx sy i :
  0%nat ∈ levels df → i ∈ levels df →
  offset_of (exact_series (levels df) off sx sy) i = off i ∧
  slope_x_of (exact_series (levels df) off sx sy) i = sx i ∧
  slope_y_of (exact_series (levels df) off sx sy) i = sy i.
Proof.
  intros H0 Hi. pose proof (NoDup_levels df) as Hnd.
  pose proof (elem_of_tail_levels df i H0) as Htl.
  destruct (levels_head_zero df H0) as (lv & Heq & _).
  assert (default 0%nat (head (levels df)) = 0%nat) as Hhd by by rewrite Heq.
  unfold offset_of, slope_x_of, slope_y_of.
  rewrite (coef_exact_series _ _ _ _ (label_level i) (off i)); [|done|].
  2:{ rewrite !elem_of_app, !list_elem_of_fmap. left. eauto. }
  rewrite (coef_exact_series _ _ _ _ "x_image" (sx 0%nat)); [|done|].
  2:{ rewrite !elem_of_app, !list_elem_of_fmap, !list_elem_of_singleton, Hhd. auto. }
  rewrite (coef_exact_series _ _ _ _ "y_image" (sy 0%nat)); [|done|].
  2:{ rewrite !elem_of_app, !list_elem_of_fmap, !list_elem_of_singleton, Hhd.
      auto 6. }
  split; [done|]. destruct (decide (0 < i)%nat) as [Hpos|Hpos].
  - assert (i ∈ tail (levels df)) as Hti by (apply Htl; split; [done|lia]).
    rewrite (coef_exact_series _ _ _ _ (label_level_x i) (sx i - sx 0%nat));
      [|done|].
    2:{ rewrite !elem_of_app, !list_elem_of_fmap, Hhd. right; right; left. eauto. }
    rewrite (coef_exact_series _ _ _ _ (label_level_y i) (sy i - sy 0%nat));
      [|done|].
    2:{ rewrite !elem_of_app, !list_elem_of_fmap, Hhd. do 4 right. eauto. }
    split; ring.
  - assert (i = 0%nat) as -> by lia. split; ring.
Qed.

(** On data generated by a known transform the exact vectors are
    least-squares solutions, with no residual. *)
Lemma exact_xres_predict known df o :
  0%nat ∈ levels df → o ∈ df → generated_by known o →
  eta o = predict (linear_columns (levels df)) (exact_xres known df) o.
Proof.
  intros H0 Ho [Heta _].
  assert (rcid o ∈ levels df) as Hl by (apply elem_of_levels; eauto).
  rewrite predict_linear by done. unfold exact_xres.
  destruct (exact_series_model df (λ i, t1 (known i)) (λ i, a11 (known i))
              (λ i, a12 (known i)) (rcid o) H0 Hl) as (-> & -> & ->).
  done.
Qed.

Lemma exact_yres_predict known df o :
  0%nat ∈ levels df → o ∈ df → generated_by known o →
  nu o = predict (linear_columns (levels df)) (exact_yres known df) o.
Proof.
  intros H0 Ho [_ Hnu].
  assert (rcid o ∈ levels df) as Hl by (apply elem_of_levels; eauto).
  rewrite predict_linear by done. unfold exact_yres.
  destruct (exact_series_model df (λ i, t2 (known i)) (λ i, a21 (known i))
              (λ i, a22 (known i)) (rcid o) H0 Hl) as (-> & -> & ->).
  done.
Qed.

Lemma exact_xres_fit known df :
  0%nat ∈ levels df → Forall (generated_by known) df →
  ols_fit (linear_columns (levels df)) eta df (exact_xres known df).
Proof.
  intros H0 Hgen. apply exact_fit_is_ols; [apply dom_exact_series|].
  intros o Ho. apply exact_xres_predict; [done..|].
  by eapply Forall_forall in Hgen.
Qed.

Lemma exact_yres_fit known df :
  0%nat ∈ levels df → Forall (generated_by known) df →
  ols_fit (linear_columns (levels df)) nu df (exact_yres known df).
Proof.
  intros H0 Hgen. apply exact_fit_is_ols; [apply dom_exact_series|].
  intros o Ho. apply exact_yres_predict; [done..|].
  by eapply Forall_forall in Hgen.
Qed.

(** The synthetic data. *)
Lemma elem_of_synthetic known n o :
  o ∈ synthetic known n ↔
  ∃ i, (i < n)%nat ∧
    (o = star_of known i 0 0 ∨ o = star_of known i 1 0 ∨ o = star_of known i 0 1).
Proof.
  unfold synthetic. rewrite list_elem_of_bind. split.
  - intros (i & Ho & Hi). apply elem_of_seq in Hi.
    exists i. split; [lia|]. set_solver.
  - intros (i & Hi & Ho). exists i. split; [set_solver|].
    apply elem_of_seq. lia.
Qed.

Lemma synthetic_generated known n : Forall (generated_by known) (synthetic known n).
Proof.
  apply Forall_forall. intros o Ho.
  apply elem_of_synthetic in Ho as (i & _ & [-> | [-> | ->]]); by split.
Qed.

Lemma synthetic_rcid known n i :
  i ∈ rcid <$> synthetic known n ↔ (i < n)%nat.
Proof.
  rewrite list_elem_of_fmap. split.
  - intros (o & -> & Ho).
    apply elem_of_synthetic in Ho as (j & Hj & [-> | [-> | ->]]); done.
  - intros Hi. exists (star_of known i 0 0). split; [done|].
    apply elem_of_synthetic. eauto.
Qed.

Lemma synthetic_levels known n i :
  i ∈ levels (synthetic known n) ↔ (i < n)%nat.
Proof.
  rewrite elem_of_levels, <-synthetic_rcid, list_elem_of_fmap. naive_solver.
Qed.

Lemma synthetic_three_stars known n i :
  (i < n)%nat → three_stars (synthetic known n) i.
Proof.
  intros Hi.
  exists (star_of known i 0 0), (star_of known i 1 0), (star_of known i 0 1).
  repeat split; try (apply elem_of_synthetic; eauto 6).
  unfold non_collinear. simpl. by vm_compute.
Qed.

(** ** The zero point of a quadrant *)

Lemma zero_point_unique (a b c d ox oy x y : Qc) :
  det a b c d ≠ 0 →
  (ox + a * x + b * y = 0 ∧ oy + c * x + d * y = 0) ↔
  (x = d / det a b c d * - ox + - b / det a b c d * - oy ∧
   y = - c / det a b c d * - ox + a / det a b c d * - oy).
Proof.
  intros Hdet. split.
  - intros [E1 E2].
    assert (x * det a b c d = d * - ox + - b * - oy) as Hx.
    { transitivity (d * (ox + a * x + b * y) - b * (oy + c * x + d * y)
                    + (d * - ox + - b * - oy)); [unfold det; ring|].
      rewrite E1, E2. ring. }
    assert (y * det a b c d = - c * - ox + a * - oy) as Hy.
    { transitivity (a * (oy + c * x + d * y) - c * (ox + a * x + b * y)
                    + (- c * - ox + a * - oy)); [unfold det; ring|].
      rewrite E1, E2. ring. }
    split.
    + transitivity (x * det a b c d / det a b c d); [by field|].
      rewrite Hx. by field.
    + transitivity (y * det a b c d / det a b c d); [by field|].
      rewrite Hy. by field.
  - intros [-> ->]. unfold det in *. split; by field.
Qed.

Lemma quadrant_cd_Ok px py i a b c d :
  quadrant_cd px py i = Ok (Matrix2 (Some a) (Some b) (Some c) (Some d)) →
  a = slope_x_of px i ∧ b = slope_y_of px i ∧
  c = slope_x_of py i ∧ d = slope_y_of py i ∧
  ((0 < i)%nat → label_level_x i ∈ dom px).
Proof.
  unfold quadrant_cd, slope_x_of, slope_y_of, coef.
  destruct (decide (0 < i)%nat) as [Hpos|Hpos].
  - intros H.
    apply bind_Ok in H as (c11 & H11 & H).
    apply bind_Ok in H as (c12 & H12 & H).
    apply bind_Ok in H as (c21 & H21 & H).
    apply bind_Ok in H as (c22 & H22 & H).
    apply py_add_Ok in H11 as (u1 & v1 & -> & Hv1 & ->).
    apply py_add_Ok in H12 as (u2 & v2 & -> & -> & ->).
    apply py_add_Ok in H21 as (u3 & v3 & -> & -> & ->).
    apply py_add_Ok in H22 as (u4 & v4 & -> & -> & ->).
    injection H as <- <- <- <-. rewrite Hv1. simpl.
    repeat split; try done. intros _. apply elem_of_dom. eauto.
  - intros [= -> -> -> ->]. simpl. repeat split; try ring. lia.
Qed.

(** C1: for a quadrant with stars whose fitted transform matrix is regular,
    the loop of [rcmeta] produces an entry, and its [(crpix1, crpix2)] is the
    one local pixel coordinate at which the two fitted models of that
    quadrant are both zero; it is the product of any inverse of the matrix
    with the negated pair of offsets. *)
Theorem crpix_is_zero_point (df : list observation) (px py : Series) (i : nat)
    (a b c d : Qc) :
  ols_fit (linear_columns (levels df)) eta df px →
  ols_fit (linear_columns (levels df)) nu df py →
  i ∈ rcid <$> df →
  quadrant_cd px py i = Ok (Matrix2 (Some a) (Some b) (Some c) (Some d)) →
  det a b c d ≠ 0 →
  ∃ m, rcmeta_entry px py i = Ok m ∧
    cd11 m = a ∧ cd12 m = b ∧ cd21 m = c ∧ cd22 m = d ∧
    (∀ o, rcid o = i →
       (predict (linear_columns (levels df)) px o = 0 ∧
        predict (linear_columns (levels df)) py o = 0) ↔
       (x_image o = crpix1 m ∧ y_image o = crpix2 m)) ∧
    (∀ inv, matrix_mul inv (Matrix2 a b c d) = matrix_one →
       (crpix1 m, crpix2 m) =
         matrix_mul_col inv (- offset_of px i, - offset_of py i)).
Proof.
  intros [Hdx _] [Hdy _] Hi Hcd Hdet.
  assert (i ∈ levels df) as Hlv.
  { apply elem_of_levels. apply list_elem_of_fmap in Hi as (o & -> & Ho). eauto. }
  assert (px !! label_level i = Some (offset_of px i)) as Hox.
  { apply lookup_coef. rewrite Hdx, elem_of_list_to_set.
    by apply label_level_in_labels. }
  assert (py !! label_level i = Some (offset_of py i)) as Hoy.
  { apply lookup_coef. rewrite Hdy, elem_of_list_to_set.
    by apply label_level_in_labels. }
  pose proof (quadrant_cd_Ok _ _ _ _ _ _ _ Hcd) as (Ha & Hb & Hc & Hd & Hdom).
  assert ((0 < i)%nat ↔ i ∈ tail (levels df)) as Hcoded.
  { apply levels_coded; [done|].
    destruct (decide (i = 0%nat)) as [|Hne]; [by left|right].
    apply label_level_x_in_labels.
    assert (label_level_x i ∈ dom px) as Hin by (apply Hdom; lia).
    by rewrite Hdx, elem_of_list_to_set in Hin. }
  eexists. split; [by apply rcmeta_entry_regular|]. simpl.
  do 4 (split; [done|]). split.
  - intros o Ho. rewrite !predict_linear_coded by (rewrite Ho; done).
    rewrite Ho, <-Ha, <-Hb, <-Hc, <-Hd. by apply zero_point_unique.
  - intros [e f g h]. unfold matrix_mul, matrix_one, matrix_mul_col. simpl.
    intros Hinv.
    pose proof (f_equal m11 Hinv) as H1. pose proof (f_equal m12 Hinv) as H2.
    pose proof (f_equal m21 Hinv) as H3. pose proof (f_equal m22 Hinv) as H4.
    cbn [m11 m12 m21 m22] in H1, H2, H3, H4.
    set (cp1 := d / det a b c d * - offset_of px i
                + - b / det a b c d * - offset_of py i).
    set (cp2 := - c / det a b c d * - offset_of px i
                + a / det a b c d * - offset_of py i).
    destruct (proj2 (zero_point_unique a b c d (offset_of px i)
      (offset_of py i) cp1 cp2 Hdet)) as [E1 E2]; [done|].
    f_equal.
    + transitivity ((e * a + f * c) * cp1 + (e * b + f * d) * cp2
                    - e * (offset_of px i + a * cp1 + b * cp2)
                    - f * (offset_of py i + c * cp1 + d * cp2)); [|ring].
      rewrite H1, H2, E1, E2. ring.
    + transitivity ((g * a + h * c) * cp1 + (g * b + h * d) * cp2
                    - g * (offset_of px i + a * cp1 + b * cp2)
                    - h * (offset_of py i + c * cp1 + d * cp2)); [|ring].
      rewrite H3, H4, E1, E2. ring.
Qed.

(** ** The table as a whole *)

Lemma rcmeta_loop_total xres yres ids acc :
  (∀ i, i ∈ ids → ∃ m, rcmeta_entry xres yres i = Ok m) →
  ∃ st, rcmeta_loop xres yres ids acc = (st, None).
Proof.
  revert acc. induction ids as [|j ids IH]; intros acc Hall; simpl; [eauto|].
  destruct (Hall j) as [m ->]; [set_solver|].
  apply IH. intros i Hi. apply Hall. set_solver.
Qed.

Lemma rcmeta_total xres yres (entry : nat → quadrant_model) :
  (∀ i, (i < 64)%nat → rcmeta_entry xres yres i = Ok (entry i)) →
  ∃ tbl, rcmeta xres yres = (tbl, None) ∧
    ∀ i, (i < 64)%nat → tbl !! i = Some (entry i).
Proof.
  intros Hall. unfold rcmeta.
  destruct (rcmeta_loop_total xres yres (seq 0 64) ∅) as [tbl Htbl].
  { intros i Hi%elem_of_seq. exists (entry i). apply Hall. lia. }
  exists tbl. split; [done|]. intros i Hi.
  apply rcmeta_loop_done in Htbl as (_ & Hin & _).
  destruct (Hin i) as (m & Hm & ->); [apply elem_of_seq; lia|].
  rewrite Hall in Hm by done. congruence.
Qed.

Lemma rcmeta_raises xres yres i e :
  (i < 64)%nat → rcmeta_entry xres yres i = Raise e →
  ∃ st e', rcmeta xres yres = (st, Some e') ∧ st !! i = None.
Proof.
  intros Hi He. eapply rcmeta_loop_raises; [|done|done].
  apply elem_of_seq. lia.
Qed.

Lemma rcmeta_raises_first xres yres i e :
  (i < 64)%nat →
  (∀ j, (j < i)%nat → ∃ m, rcmeta_entry xres yres j = Ok m) →
  rcmeta_entry xres yres i = Raise e →
  ∃ st, rcmeta xres yres = (st, Some e) ∧ dom st = list_to_set (seq 0 i).
Proof.
  intros Hi Hpre He. unfold rcmeta. rewrite (seq_split_at 64 i Hi).
  destruct (rcmeta_loop_first xres yres (seq 0 i) i (seq (S i) (64 - S i)) ∅ e)
    as (st & Hst & Hdom); [|done|].
  { intros j Hj%elem_of_seq. apply Hpre. lia. }
  exists st. split; [done|]. rewrite Hdom. set_solver.
Qed.

(** An entry that the loop has stored stays in the dictionary. *)
Lemma rcmeta_loop_keeps xres yres ids acc st e k :
  rcmeta_loop xres yres ids acc = (st, e) → k ∉ ids → st !! k = acc !! k.
Proof.
  revert acc. induction ids as [|j ids IH]; intros acc; simpl.
  - by intros [= -> _] _.
  - intros Hloop [Hne Hk]%not_elem_of_cons.
    destruct (rcmeta_entry xres yres j) as [e1|m].
    + by injection Hloop as -> _.
    + by rewrite (IH _ Hloop Hk), lookup_insert_ne.
Qed.

Lemma rcmeta_loop_stores xres yres pre i post acc m st e :
  (∀ j, j ∈ pre → ∃ m', rcmeta_entry xres yres j = Ok m') →
  rcmeta_entry xres yres i = Ok m → i ∉ post →
  rcmeta_loop xres yres (pre ++ i :: post) acc = (st, e) → st !! i = Some m.
Proof.
  revert acc. induction pre as [|j pre IH]; intros acc Hpre Hi Hpost; simpl.
  - rewrite Hi. intros Hloop.
    by rewrite (rcmeta_loop_keeps _ _ _ _ _ _ _ Hloop Hpost), lookup_insert_eq.
  - destruct (Hpre j) as [m' ->]; [set_solver|].
    apply IH; [|done..]. intros k Hk. apply Hpre. set_solver.
Qed.

(** When the quadrants before [i] pass and the body returns for [i], the
    loop stores that entry, however it ends. *)
Lemma rcmeta_stores xres yres i m st e :
  (i < 64)%nat →
  (∀ j, (j < i)%nat → ∃ m', rcmeta_entry xres yres j = Ok m') →
  rcmeta_entry xres yres i = Ok m →
  rcmeta xres yres = (st, e) → st !! i = Some m.
Proof.
  intros Hi Hpre He. unfold rcmeta. rewrite (seq_split_at 64 i Hi).
  apply rcmeta_loop_stores; [|done|].
  - intros j Hj%elem_of_seq. apply Hpre. lia.
  - intros Hin%elem_of_seq. lia.
Qed.

(** C6, amended: a singular matrix is refused only when the elimination in
    binary64 meets a pivot that is exactly zero.  Then the body of the loop
    raises [LinAlgError] at the inversion, the run of the loop ends with an
    exception and [rcmeta] has no entry for that quadrant; when the
    quadrants before it pass, the exception is that [LinAlgError] and
    [rcmeta] holds just the quadrants before it.  When the rounded pivots
    are not zero the inversion returns, and with the two offsets of the
    quadrant the body stores an entry that holds the singular matrix. *)
Theorem singular_quadrant_raises (xres yres : Series) (i : nat) (a b c d : Qc) :
  (i < 64)%nat →
  quadrant_cd xres yres i = Ok (Matrix2 (Some a) (Some b) (Some c) (Some d)) →
  det a b c d = 0 →
  (dgetrf (binary64 a) (binary64 b) (binary64 c) (binary64 d) = None →
   matrix_inv (Matrix2 (Some a) (Some b) (Some c) (Some d)) = Raise LinAlgError ∧
   rcmeta_entry xres yres i = Raise LinAlgError ∧
   (∃ st e, rcmeta xres yres = (st, Some e) ∧ st !! i = None) ∧
   ((∀ j, (j < i)%nat → ∃ m, rcmeta_entry xres yres j = Ok m) →
    ∃ st, rcmeta xres yres = (st, Some LinAlgError) ∧
          dom st = list_to_set (seq 0 i))) ∧
  (is_Some (dgetrf (binary64 a) (binary64 b) (binary64 c) (binary64 d)) →
   (∃ inv, matrix_inv (Matrix2 (Some a) (Some b) (Some c) (Some d)) = Ok inv) ∧
   ∀ ox oy, xres !! label_level i = Some ox → yres !! label_level i = Some oy →
     ∃ m, rcmeta_entry xres yres i = Ok m ∧
       cd11 m = a ∧ cd12 m = b ∧ cd21 m = c ∧ cd22 m = d ∧
       ((∀ j, (j < i)%nat → ∃ m', rcmeta_entry xres yres j = Ok m') →
        ∀ st e, rcmeta xres yres = (st, e) → st !! i = Some m)).
Proof.
  intros Hi Hcd Hdet. split.
  - intros Hlu.
    assert (dgesv_inverse a b c d = None) as Hinv.
    { unfold dgesv_inverse. by rewrite Hlu. }
    pose proof (rcmeta_entry_singular _ _ _ _ _ _ _ Hcd Hdet Hinv) as He.
    split; [by rewrite matrix_inv_singular, Hinv|].
    split; [done|]. split; [by eapply rcmeta_raises|].
    intros Hpre. by apply rcmeta_raises_first.
  - intros [lu Hlu].
    assert (∃ inv, dgesv_inverse a b c d = Some inv) as [inv Hinv].
    { unfold dgesv_inverse. rewrite Hlu.
      destruct lu as [[[[swap l] u11] u12] u22]. eauto. }
    split; [exists inv; by rewrite matrix_inv_singular, Hinv|].
    intros ox oy Hx Hy.
    pose proof (rcmeta_entry_rounded _ _ _ _ _ _ _ _ _ _ Hcd Hdet Hinv Hx Hy) as He.
    eexists. split; [exact He|]. do 4 (split; [reflexivity|]).
    intros Hpre st e Hst. by eapply rcmeta_stores.
Qed.

(** C10: the loop runs over all of [0..63]; at a quadrant without
    observations the fit has no offset coefficient, the body raises, the
    loop ends there with an exception and inserts nothing for it; a table
    that is produced has exactly the 64 keys [0..63], and then every one of
    these quadrants had observations. *)
Theorem rcmeta_complete_or_raises (df : list observation) (px py : Series) :
  ols_fit (linear_columns (levels df)) eta df px →
  ols_fit (linear_columns (levels df)) nu df py →
  (∀ i, (i < 64)%nat → i ∉ rcid <$> df →
     px !! label_level i = None ∧
     (∃ e, rcmeta_entry px py i = Raise e) ∧
     (∃ st e, rcmeta px py = (st, Some e) ∧ st !! i = None) ∧
     ((∀ j, (j < i)%nat → ∃ m, rcmeta_entry px py j = Ok m) →
      ∃ st e, rcmeta px py = (st, Some e) ∧ dom st = list_to_set (seq 0 i))) ∧
  (∀ tbl, rcmeta px py = (tbl, None) →
     dom tbl = list_to_set (seq 0 64) ∧ size tbl = 64%nat ∧
     ∀ i, (i < 64)%nat → i ∈ rcid <$> df).
Proof.
  intros [Hdx _] [Hdy _]. assert (∀ i, (i < 64)%nat → i ∉ rcid <$> df →
    ∃ e, rcmeta_entry px py i = Raise e) as Hraise.
  { intros i Hi Hmiss. apply rcmeta_entry_missing_level.
    by eapply missing_level_label. }
  split.
  - intros i Hi Hmiss. destruct (Hraise i Hi Hmiss) as [e He].
    split; [by eapply missing_level_label|]. split; [eauto|].
    split; [by eapply rcmeta_raises|].
    intros Hpre. destruct (rcmeta_raises_first px py i e) as (st & ? & ?); eauto.
  - intros tbl Htbl. unfold rcmeta in Htbl.
    pose proof (rcmeta_loop_done _ _ _ _ _ Htbl) as (Hdom & Hin & _).
    assert (dom tbl = list_to_set (seq 0 64)) as Hd.
    { rewrite Hdom. set_solver. }
    split; [done|]. split.
    { rewrite <-size_dom, Hd. apply size_dom_seq. }
    intros i Hi. destruct (decide (i ∈ rcid <$> df)) as [|Hmiss]; [done|].
    destruct (Hraise i Hi Hmiss) as [e He].
    destruct (Hin i) as (m & Hm & _); [apply elem_of_seq; lia|]. congruence.
Qed.

(** ** Recovery of a known transform *)

(** One quadrant: a fit of generated data has the known offsets and slopes on
    every quadrant with three non-collinear stars. *)
Lemma fit_recovers_quadrant known df px py i :
  Forall (generated_by known) df →
  0%nat ∈ levels df → three_stars df i →
  ols_fit (linear_columns (levels df)) eta df px →
  ols_fit (linear_columns (levels df)) nu df py →
  offset_of px i = t1 (known i) ∧ slope_x_of px i = a11 (known i) ∧
  slope_y_of px i = a12 (known i) ∧
  offset_of py i = t2 (known i) ∧ slope_x_of py i = a21 (known i) ∧
  slope_y_of py i = a22 (known i).
Proof.
  intros Hgen H0 H3 Hx Hy. rewrite Forall_forall in Hgen.
  assert (i ∈ levels df) as Hi.
  { destruct H3 as (o & _ & _ & Ho & _ & _ & <- & _). apply elem_of_levels. eauto. }
  destruct (three_stars_fix_quadrant df px (exact_xres known df) i H0 H3)
    as (E1 & E2 & E3).
  { intros o Ho.
    rewrite <-(ols_fit_exact _ eta df px (exact_xres known df) Hx); [| |
      intros r Hr; apply exact_xres_predict; auto|done].
    - apply exact_xres_predict; auto.
    - apply dom_exact_series. }
  destruct (three_stars_fix_quadrant df py (exact_yres known df) i H0 H3)
    as (E4 & E5 & E6).
  { intros o Ho.
    rewrite <-(ols_fit_exact _ nu df py (exact_yres known df) Hy); [| |
      intros r Hr; apply exact_yres_predict; auto|done].
    - apply exact_yres_predict; auto.
    - apply dom_exact_series. }
  rewrite E1, E2, E3, E4, E5, E6. unfold exact_xres, exact_yres.
  destruct (exact_series_model df (λ i, t1 (known i)) (λ i, a11 (known i))
              (λ i, a12 (known i)) i H0 Hi) as (-> & -> & ->).
  destruct (exact_series_model df (λ i, t2 (known i)) (λ i, a21 (known i))
              (λ i, a22 (known i)) i H0 Hi) as (-> & -> & ->).
  done.
Qed.

Lemma fit_recovers_entry known df px py i :
  Forall (generated_by known) df →
  0%nat ∈ levels df → three_stars df i →
  det (a11 (known i)) (a12 (known i)) (a21 (known i)) (a22 (known i)) ≠ 0 →
  ols_fit (linear_columns (levels df)) eta df px →
  ols_fit (linear_columns (levels df)) nu df py →
  rcmeta_entry px py i = Ok (known_entry (known i)).
Proof.
  intros Hgen H0 H3 Hdet Hx Hy.
  destruct (fit_recovers_quadrant known df px py i Hgen H0 H3 Hx Hy)
    as (E1 & E2 & E3 & E4 & E5 & E6).
  assert (i ∈ levels df) as Hi.
  { destruct H3 as (o & _ & _ & Ho & _ & _ & <- & _). apply elem_of_levels. eauto. }
  destruct (quadrant_cd_fit df px py i (proj1 Hx) (proj1 Hy) H0 Hi)
    as (Hcd & Hox & Hoy).
  rewrite E1 in Hox. rewrite E4 in Hoy. rewrite E2, E3, E5, E6 in Hcd.
  by rewrite (rcmeta_entry_regular _ _ _ _ _ _ _ _ _ Hcd Hox Hoy Hdet).
Qed.

(** C5: on noiseless data generated per quadrant by a known regular
    transform and offset, with three non-collinear stars in each of the 64
    quadrants, any least-squares fit over the pooled data makes [rcmeta] the
    table of the known transforms, and each [(crpix1, crpix2)] is the point
    the known transform and offset send to zero. *)
Theorem linear_fit_recovers_known (known : nat → affine)
    (df : list observation) (px py : Series) :
  Forall (generated_by known) df →
  (∀ i, (i < 64)%nat → three_stars df i) →
  (∀ i, (i < 64)%nat →
     det (a11 (known i)) (a12 (known i)) (a21 (known i)) (a22 (known i)) ≠ 0) →
  ols_fit (linear_columns (levels df)) eta df px →
  ols_fit (linear_columns (levels df)) nu df py →
  ∃ tbl, rcmeta px py = (tbl, None) ∧
    ∀ i, (i < 64)%nat → ∃ m, tbl !! i = Some m ∧
      cd11 m = a11 (known i) ∧ cd12 m = a12 (known i) ∧
      cd21 m = a21 (known i) ∧ cd22 m = a22 (known i) ∧
      t1 (known i) + a11 (known i) * crpix1 m + a12 (known i) * crpix2 m = 0 ∧
      t2 (known i) + a21 (known i) * crpix1 m + a22 (known i) * crpix2 m = 0.
Proof.
  intros Hgen H3 Hdet Hx Hy.
  assert (0%nat ∈ levels df) as H0.
  { destruct (H3 0%nat) as (o & _ & _ & Ho & _ & _ & Hr & _); [lia|].
    apply elem_of_levels. eauto. }
  destruct (rcmeta_total px py (λ i, known_entry (known i))) as (tbl & Ht & Hl).
  { intros i Hi. apply (fit_recovers_entry known df); auto. }
  exists tbl. split; [done|]. intros i Hi. exists (known_entry (known i)).
  split; [by apply Hl|]. simpl. do 4 (split; [done|]).
  apply zero_point_unique; [by apply Hdet|done].
Qed.

(** ** The global coordinates *)

Lemma loc_rcid_compose i (f g : row → row) df :
  (∀ w, obs (g w) = obs w) →
  loc_rcid i f (loc_rcid i g df) = loc_rcid i (f ∘ g) df.
Proof.
  intros Hg. unfold loc_rcid. rewrite <-list_fmap_compose.
  apply list_fmap_ext. intros k w _. simpl.
  destruct (decide (rcid (obs w) = i)) as [Hi|Hi].
  - rewrite decide_True; [done|]. by rewrite Hg.
  - by rewrite decide_False.
Qed.

Lemma loc_rcid_ext i (f g : row → row) df :
  (∀ w, f w = g w) → loc_rcid i f df = loc_rcid i g df.
Proof.
  intros Hfg. unfold loc_rcid. apply list_fmap_ext. intros k w _. simpl.
  by rewrite Hfg.
Qed.

Lemma assemble_step_Ok rcmeta i m df :
  rcmeta !! i = Some m →
  assemble_step rcmeta i df = Ok (loc_rcid i (assemble_row m) df).
Proof.
  intros Hm. unfold assemble_step, dict_get. rewrite Hm. simpl.
  unfold ret. f_equal. rewrite !loc_rcid_compose by done.
  apply loc_rcid_ext. by intros [o xg yg el nl].
Qed.

Lemma loc_rcid_lookup i f df k :
  loc_rcid i f df !! k =
    (λ w, if decide (rcid (obs w) = i) then f w else w) <$> df !! k.
Proof. unfold loc_rcid. apply list_lookup_fmap. Qed.

(** The loop over a list of quadrants that all have an entry: a row of a
    listed quadrant gets the columns of that quadrant's entry, any other row
    is left as it was. *)
Lemma assemble_loop_Ok rcmeta ids df :
  (∀ i, i ∈ ids → is_Some (rcmeta !! i)) →
  ∃ df', assemble_loop rcmeta ids df = Ok df' ∧
    length df' = length df ∧
    ∀ k w, df !! k = Some w →
      ∃ w', df' !! k = Some w' ∧ obs w' = obs w ∧
        (rcid (obs w) ∉ ids → w' = w) ∧
        (∀ m, rcid (obs w) ∈ ids → rcmeta !! rcid (obs w) = Some m →
           w' = assemble_row m w).
Proof.
  revert df. induction ids as [|i ids IH]; intros df Hall; simpl.
  - exists df. split; [done|]. split; [done|]. intros k w Hw.
    exists w. repeat split; try done. intros m Hin. by apply elem_of_nil in Hin.
  - destruct (Hall i) as [mi Hmi]; [set_solver|].
    rewrite (assemble_step_Ok _ _ mi) by done. simpl.
    destruct (IH (loc_rcid i (assemble_row mi) df)) as (df' & Hdf' & Hlen & Hrows).
    { intros j Hj. apply Hall. set_solver. }
    exists df'. split; [done|]. split.
    { rewrite Hlen. unfold loc_rcid. by rewrite length_fmap. }
    intros k w Hw.
    destruct (Hrows k (if decide (rcid (obs w) = i) then assemble_row mi w else w))
      as (w' & Hw' & Hobs & Hout & Hin).
    { by rewrite loc_rcid_lookup, Hw. }
    exists w'. split; [done|].
    destruct (decide (rcid (obs w) = i)) as [Hi|Hi]; simpl in *.
    + split; [done|]. split; [intros Hni; set_solver|].
      intros m _ Hm. rewrite Hi, Hmi in Hm. injection Hm as <-.
      destruct (decide (i ∈ ids)) as [Hii|Hii].
      * rewrite (Hin mi) by (by rewrite ?Hi). done.
      * rewrite Hout by (by rewrite Hi). done.
    + split; [done|]. split.
      * intros Hni. apply Hout. set_solver.
      * intros m Hm. apply Hin. set_solver.
Qed.

(** C4: with a complete table, the loop turns every observation of a
    quadrant in [0..63] into a row whose global pixel coordinate is the local
    one minus that quadrant's [(crpix1, crpix2)] and whose [(etalin, nulin)] is
    that quadrant's transform of the global coordinate; the seven original
    columns, among them [(eta, nu)], are as they were. *)
Theorem global_coordinates (rcmeta : gmap nat quadrant_model)
    (df : list observation) :
  (∀ i, (i < 64)%nat → is_Some (rcmeta !! i)) →
  ∃ df', assemble rcmeta (add_global_columns <$> df) = Ok df' ∧
    length df' = length df ∧
    ∀ k o, df !! k = Some o →
      ∃ w, df' !! k = Some w ∧ obs w = o ∧
        ∀ m, (rcid o < 64)%nat → rcmeta !! rcid o = Some m →
          x_global w = x_image o - crpix1 m ∧
          y_global w = y_image o - crpix2 m ∧
          etalin w = (x_image o - crpix1 m) * cd11 m
                     + (y_image o - crpix2 m) * cd12 m ∧
          nulin w = (x_image o - crpix1 m) * cd21 m
                    + (y_image o - crpix2 m) * cd22 m.
Proof.
  intros Hall. unfold assemble.
  destruct (assemble_loop_Ok rcmeta (seq 0 64) (add_global_columns <$> df))
    as (df' & Hdf' & Hlen & Hrows).
  { intros i Hi%elem_of_seq. apply Hall. lia. }
  exists df'. split; [done|]. split; [by rewrite Hlen, length_fmap|].
  intros k o Ho.
  destruct (Hrows k (add_global_columns o)) as (w & Hw & Hobs & _ & Hin).
  { by rewrite list_lookup_fmap, Ho. }
  exists w. split; [done|]. split; [done|]. intros m Hlt Hm.
  rewrite (Hin m); [done| |done].
  apply elem_of_seq. change (rcid (obs (add_global_columns o))) with (rcid o). lia.
Qed.

(** ** The distortion dictionary *)

Lemma pv_start_Ok xres yres pv :
  pv_start xres yres = Ok pv →
  dom pv = list_to_set pv_keys ∧
  pv !! "PV1_1" = xres !! "etalin" ∧
  pv !! "PV1_2" = xres !! "nulin" ∧
  pv !! "PV1_4" = xres !! "np.power(etalin, 2)" ∧
  pv !! "PV1_5" = xres !! "etalin:nulin" ∧
  pv !! "PV1_6" = xres !! "np.power(nulin, 2)" ∧
  pv !! "PV2_1" = yres !! "nulin" ∧
  pv !! "PV2_2" = yres !! "etalin" ∧
  pv !! "PV2_4" = yres !! "np.power(nulin, 2)" ∧
  pv !! "PV2_5" = yres !! "etalin:nulin" ∧
  pv !! "PV2_6" = yres !! "np.power(etalin, 2)".
Proof.
  unfold pv_start. intros H.
  repeat (apply bind_Ok in H as (? & ?%py_float_Ok & H)).
  injection H as <-.
  split; [rewrite !dom_insert_L, dom_empty_L; set_solver|].
  repeat split; by (etrans; [|symmetry; eassumption]).
Qed.

Lemma pv_start_total xres yres :
  {["etalin"; "nulin"; "np.power(etalin, 2)"; "etalin:nulin";
    "np.power(nulin, 2)"]} ⊆ dom xres →
  {["etalin"; "nulin"; "np.power(etalin, 2)"; "etalin:nulin";
    "np.power(nulin, 2)"]} ⊆ dom yres →
  ∃ pv, pv_start xres yres = Ok pv.
Proof.
  intros Hx Hy.
  assert (∀ p : Series, ∀ l, l ∈ dom p → py_float (p !! l) = Ok (coef p l)) as Hget.
  { intros p l Hl. by rewrite (lookup_coef p l Hl). }
  unfold pv_start.
  rewrite !(Hget xres), !(Hget yres) by set_solver. simpl. eauto.
Qed.

(** C3 as worded fails: with the sample coefficients [PV2_1] is the
    coefficient of [nulin], not of [etalin] (and [PV2_2] the other way
    round), so the swap is not confined to the quadratic terms. *)
Lemma quadratic_swap_only_fails :
  ∃ pv, pv_start sample_res sample_res = Ok pv ∧
    pv !! "PV2_1" = Some (Qc_of_Z 2) ∧ sample_res !! "etalin" = Some (Qc_of_Z 1) ∧
    ¬ quadratic_swap_only sample_res sample_res pv.
Proof.
  eexists. split; [reflexivity|]. split; [reflexivity|]. split; [reflexivity|].
  intros (_ & _ & _ & _ & _ & H & _). vm_compute in H. discriminate.
Qed.

(** C3, amended: from two fits of the quadratic formula [pv_start] takes ten
    coefficients; the first axis takes those of [etalin], [nulin],
    [etalin^2], [etalin*nulin], [nulin^2] in this order, the second axis takes
    those of [nulin], [etalin], [nulin^2], [etalin*nulin], [etalin^2]: on the
    second axis the two linear terms are swapped as well as the two
    quadratic ones. *)
Theorem pv_start_order (xres yres : Series) :
  dom xres = list_to_set quadratic_columns.*1 →
  dom yres = list_to_set quadratic_columns.*1 →
  ∃ pv, pv_start xres yres = Ok pv ∧
    dom pv = list_to_set pv_keys ∧
    pv !! "PV1_1" = xres !! "etalin" ∧
    pv !! "PV1_2" = xres !! "nulin" ∧
    pv !! "PV1_4" = xres !! "np.power(etalin, 2)" ∧
    pv !! "PV1_5" = xres !! "etalin:nulin" ∧
    pv !! "PV1_6" = xres !! "np.power(nulin, 2)" ∧
    pv !! "PV2_1" = yres !! "nulin" ∧
    pv !! "PV2_2" = yres !! "etalin" ∧
    pv !! "PV2_4" = yres !! "np.power(nulin, 2)" ∧
    pv !! "PV2_5" = yres !! "etalin:nulin" ∧
    pv !! "PV2_6" = yres !! "np.power(etalin, 2)".
Proof.
  intros Hx Hy. destruct (pv_start_total xres yres) as [pv Hpv].
  - rewrite Hx. simpl. set_solver.
  - rewrite Hy. simpl. set_solver.
  - exists pv. split; [done|]. by apply pv_start_Ok.
Qed.

(** C3, amended, on the sample coefficients. *)
Lemma pv_start_order_witness :
  ∃ pv, pv_start sample_res sample_res = Ok pv ∧
    dom pv = list_to_set pv_keys ∧
    pv !! "PV1_1" = sample_res !! "etalin" ∧
    pv !! "PV1_2" = sample_res !! "nulin" ∧
    pv !! "PV1_4" = sample_res !! "np.power(etalin, 2)" ∧
    pv !! "PV1_5" = sample_res !! "etalin:nulin" ∧
    pv !! "PV1_6" = sample_res !! "np.power(nulin, 2)" ∧
    pv !! "PV2_1" = sample_res !! "nulin" ∧
    pv !! "PV2_2" = sample_res !! "etalin" ∧
    pv !! "PV2_4" = sample_res !! "np.power(nulin, 2)" ∧
    pv !! "PV2_5" = sample_res !! "etalin:nulin" ∧
    pv !! "PV2_6" = sample_res !! "np.power(etalin, 2)".
Proof.
  apply (pv_start_order sample_res sample_res); vm_compute; reflexivity.
Defined.

(** ** The header *)

Lemma output_header_Ok TELRAD TELDECD rcmeta pv q m (v : string → Qc) :
  rcmeta !! q = Some m →
  (∀ k, k ∈ pv_keys → pv !! k = Some (v k)) →
  output_header TELRAD TELDECD rcmeta pv q = Ok (header_cards TELRAD TELDECD m v).
Proof.
  intros Hm Hv. unfold output_header, dict_get. rewrite Hm.
  rewrite !Hv by (unfold pv_keys; set_solver). reflexivity.
Qed.

Lemma output_header_inv TELRAD TELDECD rcmeta pv q h :
  output_header TELRAD TELDECD rcmeta pv q = Ok h →
  ∃ m, rcmeta !! q = Some m ∧
    (∀ k, k ∈ pv_keys → pv !! k = Some (coef pv k)) ∧
    h = header_cards TELRAD TELDECD m (coef pv).
Proof.
  intros H. pose proof H as H'. unfold output_header in H'.
  repeat (apply bind_Ok in H' as (? & ?%dict_get_Ok & H')).
  match goal with Hm : rcmeta !! q = Some ?m |- _ => exists m; split; [exact Hm|] end.
  assert (∀ k, k ∈ pv_keys → pv !! k = Some (coef pv k)) as Hv.
  { intros k Hk. apply lookup_coef, elem_of_dom.
    unfold pv_keys in Hk. repeat (apply elem_of_cons in Hk as [->|Hk]);
      [eauto..|by apply elem_of_nil in Hk]. }
  split; [done|].
  match goal with Hm : rcmeta !! q = Some ?m |- _ =>
    rewrite (output_header_Ok _ _ _ _ _ m (coef pv) Hm Hv) in H end.
  congruence.
Qed.

Lemma header_cards_keys TELRAD TELDECD m v :
  (header_cards TELRAD TELDECD m v).*1 =
    ["NAXIS"; "NAXIS1"; "NAXIS2"; "CTYPE1"; "CTYPE2"; "CRVAL1"; "CRVAL2";
     "CRPIX1"; "CRPIX2"; "CD1_1"; "CD1_2"; "CD2_1"; "CD2_2";
     "PV1_1"; "PV1_2"; "PV1_4"; "PV1_5"; "PV1_6";
     "PV2_1"; "PV2_2"; "PV2_4"; "PV2_5"; "PV2_6"].
Proof. reflexivity. Qed.

(** C7: a run that completes leaves a header for the selected quadrant with
    these cards in order: the number of axes and the two image dimensions
    (integers), the two projection types (strings), the reference position,
    the pixel origin and the four [CD] coefficients of that quadrant's entry
    of [rcmeta], and the ten [PV] coefficients of [pv_start]; the [PV] keys
    are exactly the ten and the [CD] keys exactly the four, and the header
    of any other quadrant carries the same ten [PV] cards. *)
Theorem header_contents (TELRAD TELDECD : Qc) (df : list observation) (r : run) :
  notebook TELRAD TELDECD df r →
  ∃ m, run_rcmeta r !! my_rcid = Some m ∧
    (∀ k, k ∈ pv_keys → run_pv r !! k = Some (coef (run_pv r) k)) ∧
    run_header r = header_cards TELRAD TELDECD m (coef (run_pv r)) ∧
    keys_with_prefix "PV" (run_header r) = pv_keys ∧
    keys_with_prefix "CD" (run_header r) = ["CD1_1"; "CD1_2"; "CD2_1"; "CD2_2"] ∧
    (∀ q, (q < 64)%nat → ∃ mq, run_rcmeta r !! q = Some mq ∧
       output_header TELRAD TELDECD (run_rcmeta r) (run_pv r) q =
         Ok (header_cards TELRAD TELDECD mq (coef (run_pv r)))).
Proof.
  intros (_ & _ & Htbl & _ & _ & _ & _ & Hh).
  apply output_header_inv in Hh as (m & Hm & Hv & Hh).
  exists m. split; [done|]. split; [done|]. split; [done|].
  rewrite Hh. split; [reflexivity|]. split; [reflexivity|].
  intros q Hq. apply rcmeta_loop_done in Htbl as (_ & Hin & _).
  destruct (Hin q) as (mq & _ & Hmq); [apply elem_of_seq; lia|].
  exists mq. split; [done|]. by apply output_header_Ok.
Qed.

(** ** The text file *)

Lemma ahead_name_selected : ahead_name my_rcid = "quadrant_32.ahead".
Proof. reflexivity. Qed.

(** C8: writing the header of a quadrant always succeeds, whatever is at the
    path before; afterwards the file holds the text of the header and no
    other path has changed; writing the same header again leaves the file
    system exactly as the first write left it. *)
Theorem header_write_idempotent (card_image : string * card_value → string)
    (q : nat) (h : Header) (fs : gmap string string) :
  ∃ fs1, write_ahead card_image q h fs = Ok fs1 ∧
    fs1 !! ahead_name q = Some (tostring card_image h) ∧
    (∀ p, p ≠ ahead_name q → fs1 !! p = fs !! p) ∧
    write_ahead card_image q h fs1 = Ok fs1.
Proof.
  exists (<[ahead_name q := tostring card_image h]> fs).
  unfold write_ahead, totextfile. split.
  { by destruct (fs !! ahead_name q). }
  split; [apply lookup_insert_eq|]. split.
  { intros p Hp. by apply lookup_insert_ne. }
  rewrite lookup_insert_eq. unfold ret. by rewrite insert_insert_eq.
Qed.

(** ** The intercept of the distortion fit *)

Lemma predict_quadratic (p : Series) (w : row) :
  predict quadratic_columns p w =
    coef p "Intercept" +
    (coef p "etalin" * etalin w + coef p "nulin" * nulin w
     + coef p "np.power(etalin, 2)" * (etalin w ^ 2)
     + coef p "etalin:nulin" * (etalin w * nulin w)
     + coef p "np.power(nulin, 2)" * (nulin w ^ 2)).
Proof. unfold predict, quadratic_columns, np_power. simpl. ring. Qed.

Lemma pv_start_coef xres yres pv :
  pv_start xres yres = Ok pv →
  coef pv "PV1_1" = coef xres "etalin" ∧
  coef pv "PV1_2" = coef xres "nulin" ∧
  coef pv "PV1_4" = coef xres "np.power(etalin, 2)" ∧
  coef pv "PV1_5" = coef xres "etalin:nulin" ∧
  coef pv "PV1_6" = coef xres "np.power(nulin, 2)" ∧
  coef pv "PV2_1" = coef yres "nulin" ∧
  coef pv "PV2_2" = coef yres "etalin" ∧
  coef pv "PV2_4" = coef yres "np.power(nulin, 2)" ∧
  coef pv "PV2_5" = coef yres "etalin:nulin" ∧
  coef pv "PV2_6" = coef yres "np.power(etalin, 2)".
Proof.
  intros H. apply pv_start_Ok in H as (_ & H). unfold coef.
  destruct H as (-> & -> & -> & -> & -> & -> & -> & -> & -> & ->). done.
Qed.

(** C9: each distortion fit has a coefficient for the constant column
    [Intercept]; [pv_start] does not read it, so its value does not change
    the ten coefficients; neither [pv_start] nor the header has a key for a
    constant term; the fitted polynomial of each axis is that constant plus
    the polynomial the five emitted coefficients of the axis describe. *)
Theorem intercept_is_dropped (rows : list row) (resp_x resp_y : row → Qc)
    (xres yres : Series) (pv : gmap string Qc)
    (TELRAD TELDECD : Qc) (rcmeta : gmap nat quadrant_model) (q : nat) (h : Header) :
  ols_fit quadratic_columns resp_x rows xres →
  ols_fit quadratic_columns resp_y rows yres →
  pv_start xres yres = Ok pv →
  output_header TELRAD TELDECD rcmeta pv q = Ok h →
  is_Some (xres !! "Intercept") ∧ is_Some (yres !! "Intercept") ∧
  (∀ u v, pv_start (<["Intercept" := u]> xres) (<["Intercept" := v]> yres) = Ok pv) ∧
  dom pv = list_to_set pv_keys ∧
  ("PV1_0" ∉ h.*1) ∧ ("PV2_0" ∉ h.*1) ∧ ("Intercept" ∉ h.*1) ∧
  (∀ w, predict quadratic_columns xres w =
     coef xres "Intercept" +
     (coef pv "PV1_1" * etalin w + coef pv "PV1_2" * nulin w
      + coef pv "PV1_4" * (etalin w ^ 2)
      + coef pv "PV1_5" * (etalin w * nulin w)
      + coef pv "PV1_6" * (nulin w ^ 2))) ∧
  (∀ w, predict quadratic_columns yres w =
     coef yres "Intercept" +
     (coef pv "PV2_1" * nulin w + coef pv "PV2_2" * etalin w
      + coef pv "PV2_4" * (nulin w ^ 2)
      + coef pv "PV2_5" * (etalin w * nulin w)
      + coef pv "PV2_6" * (etalin w ^ 2))).
Proof.
  intros [Hdx _] [Hdy _] Hpv Hh.
  split. { apply elem_of_dom. rewrite Hdx. simpl. set_solver. }
  split. { apply elem_of_dom. rewrite Hdy. simpl. set_solver. }
  split.
  { intros u v. rewrite <-Hpv. unfold pv_start.
    by rewrite !lookup_insert_ne by done. }
  split; [by apply pv_start_Ok in Hpv as [? _]|].
  apply output_header_inv in Hh as (m & _ & _ & ->).
  rewrite header_cards_keys.
  split; [set_solver|]. split; [set_solver|]. split; [set_solver|].
  destruct (pv_start_coef _ _ _ Hpv)
    as (-> & -> & -> & -> & -> & -> & -> & -> & -> & ->).
  split; intros w; rewrite predict_quadratic; ring.
Qed.

(** ** Changing the unit of the projected coordinates *)

Section Transport.
Context {R R' : Type}.
Variable cols : list (string * (R → Qc)).
Variable cols' : list (string * (R' → Qc)).
Variable resp : R → Qc.
Variable resp' : R' → Qc.
Variable f : R → R'.
Variable s : Qc.

Lemma ssr_transport (p p' : Series) (df : list R) :
  (∀ r, resp' (f r) - predict cols' p' (f r) = s * (resp r - predict cols p r)) →
  ssr cols' resp' (f <$> df) p' = s * s * ssr cols resp df p.
Proof.
  intros Hres. induction df as [|r df IH]; [simpl; ring|].
  rewrite fmap_cons, !ssr_cons, IH, !Qc_pow2, Hres. ring.
Qed.

Variable T T' : Series → Series.

(** A change of variables that multiplies every residual by [s] carries
    least-squares solutions to least-squares solutions. *)
Lemma ols_fit_transport (df : list R) (p : Series) :
  (∀ p, dom p = list_to_set cols.*1 → dom (T p) = list_to_set cols'.*1) →
  (∀ p', dom p' = list_to_set cols'.*1 → dom (T' p') = list_to_set cols.*1) →
  (∀ p r, resp' (f r) - predict cols' (T p) (f r)
          = s * (resp r - predict cols p r)) →
  (∀ p' r, resp' (f r) - predict cols' p' (f r)
           = s * (resp r - predict cols (T' p') r)) →
  ols_fit cols resp df p → ols_fit cols' resp' (f <$> df) (T p).
Proof.
  intros HdT HdT' HT HT' [Hd Hmin]. split; [by apply HdT|].
  intros p' Hd'.
  rewrite (ssr_transport p (T p)), (ssr_transport (T' p') p') by done.
  apply Qc_mult_le_l; [apply Qc_square_nonneg|]. by apply Hmin, HdT'.
Qed.
End Transport.

(** *** The linear fit *)

Lemma rcid_rescale s (df : list observation) : rcid <$> (rescale s <$> df) = rcid <$> df.
Proof. rewrite <-list_fmap_compose. by apply list_fmap_ext. Qed.

Lemma levels_rescale s df : levels (rescale s <$> df) = levels df.
Proof. unfold levels. by rewrite rcid_rescale. Qed.

Lemma linear_columns_rescale lv s o c :
  c ∈ linear_columns lv → c.2 (rescale s o) = c.2 o.
Proof.
  unfold linear_columns.
  rewrite !elem_of_app, !list_elem_of_fmap, !list_elem_of_singleton.
  intros [(l & -> & _)|[->|[(l & -> & _)|[->|(l & -> & _)]]]]; done.
Qed.

Lemma predict_linear_rescale lv s p o :
  predict (linear_columns lv) p (rescale s o) = predict (linear_columns lv) p o.
Proof. apply predict_row_ext. intros c Hc. by apply (linear_columns_rescale lv). Qed.

Lemma three_stars_rescale s df i :
  three_stars df i → three_stars (rescale s <$> df) i.
Proof.
  intros (o1 & o2 & o3 & H1 & H2 & H3 & Hr1 & Hr2 & Hr3 & Hnc).
  exists (rescale s o1), (rescale s o2), (rescale s o3).
  repeat split; try done; by apply list_elem_of_fmap_2.
Qed.

(** [s] times a fit of [eta] (or [nu]) is a fit of the rescaled data. *)
Lemma scale_series_fit (resp : observation → Qc) s df p :
  s ≠ 0 →
  (∀ o, resp (rescale s o) = s * resp o) →
  ols_fit (linear_columns (levels df)) resp df p →
  ols_fit (linear_columns (levels (rescale s <$> df))) resp (rescale s <$> df)
    (scale_series s p).
Proof.
  intros Hs Hresp Hfit. rewrite levels_rescale.
  apply (ols_fit_transport (linear_columns (levels df))
           (linear_columns (levels df)) resp resp (rescale s) s
           (scale_series s) (scale_series (/ s))); [| | | |done].
  - intros q Hq. by rewrite dom_scale_series.
  - intros q Hq. by rewrite dom_scale_series.
  - intros q o. rewrite predict_linear_rescale, predict_scale, Hresp. ring.
  - intros q o. rewrite predict_linear_rescale, predict_scale, Hresp. by field.
Qed.

Lemma slope_scale_series s p i :
  offset_of (scale_series s p) i = s * offset_of p i ∧
  slope_x_of (scale_series s p) i = s * slope_x_of p i ∧
  slope_y_of (scale_series s p) i = s * slope_y_of p i.
Proof.
  unfold offset_of, slope_x_of, slope_y_of. rewrite !coef_scale_series.
  destruct (decide (0 < i)%nat); repeat split; ring.
Qed.

(** The fitted model of a quadrant with three non-collinear stars is
    multiplied by [s]. *)
Lemma rescaled_fit_quadrant (resp : observation → Qc) s df p p' i :
  s ≠ 0 →
  (∀ o, resp (rescale s o) = s * resp o) →
  0%nat ∈ levels df → three_stars df i →
  ols_fit (linear_columns (levels df)) resp df p →
  ols_fit (linear_columns (levels (rescale s <$> df))) resp (rescale s <$> df) p' →
  offset_of p' i = s * offset_of p i ∧
  slope_x_of p' i = s * slope_x_of p i ∧
  slope_y_of p' i = s * slope_y_of p i.
Proof.
  intros Hs Hresp H0 H3 Hp Hp'.
  pose proof (scale_series_fit resp s df p Hs Hresp Hp) as Hsp.
  destruct (slope_scale_series s p i) as (<- & <- & <-).
  apply (three_stars_fix_quadrant (rescale s <$> df)).
  - by rewrite levels_rescale.
  - by apply three_stars_rescale.
  - by apply (ols_fit_fitted_unique _ resp).
Qed.

(** *** The table *)

(** An entry holds the slopes of the fit, and for a regular matrix it is
    the entry of the fitted transform. *)
Lemma rcmeta_entry_model px py i m :
  rcmeta_entry px py i = Ok m →
  (cd11 m = slope_x_of px i ∧ cd12 m = slope_y_of px i ∧
   cd21 m = slope_x_of py i ∧ cd22 m = slope_y_of py i) ∧
  (det (cd11 m) (cd12 m) (cd21 m) (cd22 m) ≠ 0 →
   m = known_entry (Affine (slope_x_of px i) (slope_y_of px i)
                           (slope_x_of py i) (slope_y_of py i)
                           (offset_of px i) (offset_of py i))).
Proof.
  intros H. pose proof H as H'.
  apply rcmeta_entry_Ok in H' as (ox & oy & Hcd & Hox & Hoy).
  pose proof (quadrant_cd_Ok _ _ _ _ _ _ _ Hcd) as (Ha & Hb & Hc & Hd & _).
  split; [done|]. intros Hdet.
  rewrite (rcmeta_entry_regular _ _ _ _ _ _ _ _ _ Hcd Hox Hoy Hdet) in H.
  injection H as <-.
  unfold known_entry, offset_of, coef. rewrite Hox, Hoy. simpl.
  by rewrite <-Ha, <-Hb, <-Hc, <-Hd.
Qed.

Lemma det_scale (s a b c d : Qc) :
  det (s * a) (s * b) (s * c) (s * d) = s * s * det a b c d.
Proof. unfold det. ring. Qed.

Lemma known_entry_scale (s : Qc) (k : affine) :
  s ≠ 0 → det (a11 k) (a12 k) (a21 k) (a22 k) ≠ 0 →
  crpix1 (known_entry (scale_affine s k)) = crpix1 (known_entry k) ∧
  crpix2 (known_entry (scale_affine s k)) = crpix2 (known_entry k) ∧
  cd11 (known_entry (scale_affine s k)) = s * cd11 (known_entry k) ∧
  cd12 (known_entry (scale_affine s k)) = s * cd12 (known_entry k) ∧
  cd21 (known_entry (scale_affine s k)) = s * cd21 (known_entry k) ∧
  cd22 (known_entry (scale_affine s k)) = s * cd22 (known_entry k).
Proof.
  intros Hs Hdet. destruct k as [a b c d ox oy]. simpl in *.
  rewrite !det_scale. unfold det in *.
  repeat split; try done; by field.
Qed.

(** *** The global coordinates *)

Lemma assemble_complete (tbl : gmap nat quadrant_model) (df : list observation) :
  (∀ i, (i < 64)%nat → is_Some (tbl !! i)) →
  assemble tbl (add_global_columns <$> df) = Ok (assemble_spec tbl <$> df).
Proof.
  intros Hall. unfold assemble.
  destruct (assemble_loop_Ok tbl (seq 0 64) (add_global_columns <$> df))
    as (df' & -> & Hlen & Hrows).
  { intros i Hi%elem_of_seq. apply Hall. lia. }
  f_equal. apply list_eq. intros k. rewrite list_lookup_fmap.
  destruct (df !! k) as [o|] eqn:Ho; simpl.
  - destruct (Hrows k (add_global_columns o)) as (w & -> & _ & Hout & Hin).
    { by rewrite list_lookup_fmap, Ho. }
    f_equal. unfold assemble_spec.
    change (rcid (obs (add_global_columns o))) with (rcid o) in *.
    destruct (decide (rcid o < 64)%nat) as [Hlt|Hge].
    + destruct (Hall _ Hlt) as [m Hm]. rewrite Hm. apply Hin; [|done].
      apply elem_of_seq. lia.
    + rewrite Hout; [by destruct (tbl !! rcid o)|].
      rewrite elem_of_seq. lia.
  - apply lookup_ge_None. rewrite Hlen, length_fmap.
    by apply lookup_ge_None.
Qed.

(** Rescaling commutes with the loop when the two tables have the same
    pixel origins and transforms that differ by the factor [s]. *)
Lemma assemble_spec_rescale s tbl tbl' o :
  (∀ i, (i < 64)%nat → ∃ m m', tbl !! i = Some m ∧ tbl' !! i = Some m' ∧
     crpix1 m' = crpix1 m ∧ crpix2 m' = crpix2 m ∧
     cd11 m' = s * cd11 m ∧ cd12 m' = s * cd12 m ∧
     cd21 m' = s * cd21 m ∧ cd22 m' = s * cd22 m) →
  assemble_spec tbl' (rescale s o) = rescale_row s (assemble_spec tbl o).
Proof.
  intros Hrel. unfold assemble_spec.
  change (rcid (rescale s o)) with (rcid o).
  destruct (decide (rcid o < 64)%nat) as [Hlt|Hge].
  - destruct (Hrel _ Hlt)
      as (m & m' & -> & -> & Hc1 & Hc2 & H11 & H12 & H21 & H22).
    unfold assemble_row, rescale_row. simpl.
    rewrite Hc1, Hc2, H11, H12, H21, H22. f_equal; ring.
  - by destruct (tbl !! rcid o), (tbl' !! rcid o).
Qed.

(** *** The distortion fit *)

Lemma dom_rescale_quadratic s p :
  dom (rescale_quadratic s p) = list_to_set quadratic_columns.*1.
Proof. unfold rescale_quadratic. rewrite dom_list_to_map_L. reflexivity. Qed.

Lemma coef_rescale_quadratic s p :
  coef (rescale_quadratic s p) "Intercept" = s * coef p "Intercept" ∧
  coef (rescale_quadratic s p) "etalin" = coef p "etalin" ∧
  coef (rescale_quadratic s p) "nulin" = coef p "nulin" ∧
  coef (rescale_quadratic s p) "np.power(etalin, 2)"
    = coef p "np.power(etalin, 2)" / s ∧
  coef (rescale_quadratic s p) "etalin:nulin" = coef p "etalin:nulin" / s ∧
  coef (rescale_quadratic s p) "np.power(nulin, 2)"
    = coef p "np.power(nulin, 2)" / s.
Proof. split_and!; reflexivity. Qed.

(** The polynomial in the rescaled coordinates. *)
Lemma predict_rescale_quadratic s p w :
  s ≠ 0 →
  predict quadratic_columns (rescale_quadratic s p) (rescale_row s w)
    = s * predict quadratic_columns p w.
Proof.
  intros Hs. rewrite !predict_quadratic.
  destruct (coef_rescale_quadratic s p) as (-> & -> & -> & -> & -> & ->).
  unfold rescale_row. simpl. by field.
Qed.

Lemma predict_rescale_row s p w :
  s ≠ 0 →
  predict quadratic_columns p (rescale_row s w)
    = s * predict quadratic_columns (rescale_quadratic (/ s) p) w.
Proof.
  intros Hs. rewrite !predict_quadratic.
  destruct (coef_rescale_quadratic (/ s) p) as (-> & -> & -> & -> & -> & ->).
  unfold rescale_row. simpl. by field.
Qed.

Lemma rescale_quadratic_fit (resp : row → Qc) s rows p :
  s ≠ 0 →
  (∀ w, resp (rescale_row s w) = s * resp w) →
  ols_fit quadratic_columns resp rows p →
  ols_fit quadratic_columns resp (rescale_row s <$> rows) (rescale_quadratic s p).
Proof.
  intros Hs Hresp Hfit.
  apply (ols_fit_transport quadratic_columns quadratic_columns resp resp
           (rescale_row s) s (rescale_quadratic s) (rescale_quadratic (/ s)));
    [| | | |done].
  - intros q _. apply dom_rescale_quadratic.
  - intros q _. apply dom_rescale_quadratic.
  - intros q w. rewrite predict_rescale_quadratic, Hresp by done. ring.
  - intros q w. rewrite predict_rescale_row, Hresp by done. ring.
Qed.

Lemma Qc_mult_cancel_l (s x y : Qc) : s ≠ 0 → s * x = s * y → x = y.
Proof.
  intros Hs H. transitivity (/ s * (s * x)); [by field|]. rewrite H. by field.
Qed.

Lemma full_rank_rescale s rows :
  s ≠ 0 →
  full_rank quadratic_columns rows →
  full_rank quadratic_columns (rescale_row s <$> rows).
Proof.
  intros Hs Hfull p q Hagree.
  assert (/ s ≠ 0) as Hs'.
  { intros H. apply Hs. transitivity (/ / s); [by field|]. rewrite H. done. }
  assert (∀ l, l ∈ quadratic_columns.*1 →
    coef (rescale_quadratic (/ s) p) l = coef (rescale_quadratic (/ s) q) l) as Hc.
  { apply Hfull. intros w Hw. apply (Qc_mult_cancel_l s); [done|].
    rewrite <-!predict_rescale_row by done. apply Hagree.
    by apply list_elem_of_fmap_2. }
  destruct (coef_rescale_quadratic (/ s) p) as (P0 & P1 & P2 & P3 & P4 & P5).
  destruct (coef_rescale_quadratic (/ s) q) as (Q0 & Q1 & Q2 & Q3 & Q4 & Q5).
  pose proof (Hc "Intercept") as H0. pose proof (Hc "etalin") as H1.
  pose proof (Hc "nulin") as H2. pose proof (Hc "np.power(etalin, 2)") as H3.
  pose proof (Hc "etalin:nulin") as H4. pose proof (Hc "np.power(nulin, 2)") as H5.
  rewrite P0, Q0 in H0. rewrite P1, Q1 in H1. rewrite P2, Q2 in H2.
  rewrite P3, Q3 in H3. rewrite P4, Q4 in H4. rewrite P5, Q5 in H5.
  assert (∀ x y : Qc, x / / s = y / / s → x = y) as Hdiv.
  { intros x y H. transitivity (x / / s * / s); [by field|]. rewrite H. by field. }
  intros l Hl. simpl in Hl.
  repeat (apply elem_of_cons in Hl as [->|Hl]); [..|by apply elem_of_nil in Hl].
  - apply (Qc_mult_cancel_l (/ s)); [done|]. apply H0. in_list.
  - apply Hdiv, H3. in_list.
  - apply Hdiv, H5. in_list.
  - apply H1. in_list.
  - apply H2. in_list.
  - apply Hdiv, H4. in_list.
Qed.

(** With full rank the distortion fit of the rescaled rows is the rescaled
    distortion fit. *)
Lemma rescaled_quadratic_fit (resp : row → Qc) s rows p p' :
  s ≠ 0 →
  (∀ w, resp (rescale_row s w) = s * resp w) →
  full_rank quadratic_columns rows →
  ols_fit quadratic_columns resp rows p →
  ols_fit quadratic_columns resp (rescale_row s <$> rows) p' →
  coef p' "etalin" = coef p "etalin" ∧
  coef p' "nulin" = coef p "nulin" ∧
  s * coef p' "np.power(etalin, 2)" = coef p "np.power(etalin, 2)" ∧
  s * coef p' "etalin:nulin" = coef p "etalin:nulin" ∧
  s * coef p' "np.power(nulin, 2)" = coef p "np.power(nulin, 2)" ∧
  coef p' "Intercept" = s * coef p "Intercept".
Proof.
  intros Hs Hresp Hfull Hp Hp'.
  pose proof (rescale_quadratic_fit resp s rows p Hs Hresp Hp) as Hsp.
  pose proof (ols_fit_fitted_unique _ resp _ _ _ Hp' Hsp) as Hagree.
  pose proof (full_rank_rescale s rows Hs Hfull _ _ Hagree) as Hc.
  destruct (coef_rescale_quadratic s p) as (P0 & P1 & P2 & P3 & P4 & P5).
  rewrite (Hc "etalin"), (Hc "nulin"), (Hc "np.power(etalin, 2)"),
    (Hc "etalin:nulin"), (Hc "np.power(nulin, 2)"), (Hc "Intercept")
    by in_list.
  rewrite P0, P1, P2, P3, P4, P5. repeat split; try done; by field.
Qed.

(** *** The whole run *)

Lemma notebook_table TELRAD TELDECD df r i :
  notebook TELRAD TELDECD df r → (i < 64)%nat →
  ∃ m, run_rcmeta r !! i = Some m ∧
       rcmeta_entry (linear_xres r) (linear_yres r) i = Ok m.
Proof.
  intros (_ & _ & Htbl & _) Hi.
  apply rcmeta_loop_done in Htbl as (_ & Hin & _).
  destruct (Hin i) as (m & Hm & Hl); [apply elem_of_seq; lia|]. eauto.
Qed.

(** The tables of a run and of a run on rescaled coordinates, at a quadrant
    whose matrix is regular. *)
Lemma rescaled_table TELRAD TELDECD df s r r' i :
  s ≠ 0 →
  (∀ i, (i < 64)%nat → three_stars df i) →
  notebook TELRAD TELDECD df r →
  notebook TELRAD TELDECD (rescale s <$> df) r' →
  (i < 64)%nat →
  (∀ m, run_rcmeta r !! i = Some m →
     det (cd11 m) (cd12 m) (cd21 m) (cd22 m) ≠ 0) →
  ∃ m m', run_rcmeta r !! i = Some m ∧ run_rcmeta r' !! i = Some m' ∧
    crpix1 m' = crpix1 m ∧ crpix2 m' = crpix2 m ∧
    cd11 m' = s * cd11 m ∧ cd12 m' = s * cd12 m ∧
    cd21 m' = s * cd21 m ∧ cd22 m' = s * cd22 m.
Proof.
  intros Hs H3 Hr Hr' Hi Hreg.
  assert (0%nat ∈ levels df) as H0.
  { destruct (H3 0%nat) as (o & _ & _ & Ho & _ & _ & Hr0 & _); [lia|].
    apply elem_of_levels. eauto. }
  destruct (notebook_table _ _ _ _ i Hr Hi) as (m & Hm & He).
  destruct (notebook_table _ _ _ _ i Hr' Hi) as (m' & Hm' & He').
  exists m, m'. split; [done|]. split; [done|].
  specialize (Hreg m Hm).
  apply rcmeta_entry_model in He as ((C11 & C12 & C21 & C22) & Hmod).
  apply rcmeta_entry_model in He' as ((C11' & C12' & C21' & C22') & Hmod').
  destruct Hr as (Hx & Hy & _). destruct Hr' as (Hx' & Hy' & _).
  destruct (rescaled_fit_quadrant eta s df _ _ i Hs (λ _, eq_refl) H0 (H3 i Hi) Hx Hx')
    as (Ex0 & Ex1 & Ex2).
  destruct (rescaled_fit_quadrant nu s df _ _ i Hs (λ _, eq_refl) H0 (H3 i Hi) Hy Hy')
    as (Ey0 & Ey1 & Ey2).
  assert (det (cd11 m') (cd12 m') (cd21 m') (cd22 m') ≠ 0) as Hreg'.
  { rewrite C11', C12', C21', C22', Ex1, Ex2, Ey1, Ey2, det_scale,
      <-C11, <-C12, <-C21, <-C22.
    intros [H|H]%Qcmult_integral; [|done].
    by apply Qcmult_integral in H as [H|H]. }
  assert (det (slope_x_of (linear_xres r) i) (slope_y_of (linear_xres r) i)
              (slope_x_of (linear_yres r) i) (slope_y_of (linear_yres r) i) ≠ 0)
    as Hk by (by rewrite <-C11, <-C12, <-C21, <-C22).
  rewrite (Hmod Hreg), (Hmod' Hreg'), Ex0, Ex1, Ex2, Ey0, Ey1, Ey2.
  exact (known_entry_scale s
           (Affine (slope_x_of (linear_xres r) i) (slope_y_of (linear_xres r) i)
                   (slope_x_of (linear_yres r) i) (slope_y_of (linear_yres r) i)
                   (offset_of (linear_xres r) i) (offset_of (linear_yres r) i))
           Hs Hk).
Qed.

(** C2, amended: multiplying every [(eta, nu)] by [s ≠ 0] leaves each
    quadrant's [(crpix1, crpix2)] as it is and multiplies its [cd11], [cd12],
    [cd21], [cd22] by [s] (given three non-collinear stars in each of the 64
    quadrants and a regular matrix for each), and the linearized coordinates
    are multiplied by [s]; when the distortion design has full rank, the
    linear distortion coefficients [PV1_1], [PV1_2], [PV2_1], [PV2_2] are as
    they were while the quadratic ones [PV1_4], [PV1_5], [PV1_6], [PV2_4],
    [PV2_5], [PV2_6] are divided by [s]. *)
Theorem rescaling_the_projection (TELRAD TELDECD : Qc) (df : list observation)
    (s : Qc) (r r' : run) :
  s ≠ 0 →
  (∀ i, (i < 64)%nat → three_stars df i) →
  (∀ i m, (i < 64)%nat → run_rcmeta r !! i = Some m →
     det (cd11 m) (cd12 m) (cd21 m) (cd22 m) ≠ 0) →
  notebook TELRAD TELDECD df r →
  notebook TELRAD TELDECD (rescale s <$> df) r' →
  (∀ i, (i < 64)%nat →
     ∃ m m', run_rcmeta r !! i = Some m ∧ run_rcmeta r' !! i = Some m' ∧
       crpix1 m' = crpix1 m ∧ crpix2 m' = crpix2 m ∧
       cd11 m' = s * cd11 m ∧ cd12 m' = s * cd12 m ∧
       cd21 m' = s * cd21 m ∧ cd22 m' = s * cd22 m) ∧
  run_df r' = rescale_row s <$> run_df r ∧
  (full_rank quadratic_columns (run_df r) →
   coef (run_pv r') "PV1_1" = coef (run_pv r) "PV1_1" ∧
   coef (run_pv r') "PV1_2" = coef (run_pv r) "PV1_2" ∧
   coef (run_pv r') "PV2_1" = coef (run_pv r) "PV2_1" ∧
   coef (run_pv r') "PV2_2" = coef (run_pv r) "PV2_2" ∧
   s * coef (run_pv r') "PV1_4" = coef (run_pv r) "PV1_4" ∧
   s * coef (run_pv r') "PV1_5" = coef (run_pv r) "PV1_5" ∧
   s * coef (run_pv r') "PV1_6" = coef (run_pv r) "PV1_6" ∧
   s * coef (run_pv r') "PV2_4" = coef (run_pv r) "PV2_4" ∧
   s * coef (run_pv r') "PV2_5" = coef (run_pv r) "PV2_5" ∧
   s * coef (run_pv r') "PV2_6" = coef (run_pv r) "PV2_6").
Proof.
  intros Hs H3 Hreg Hr Hr'.
  assert (∀ i, (i < 64)%nat →
     ∃ m m', run_rcmeta r !! i = Some m ∧ run_rcmeta r' !! i = Some m' ∧
       crpix1 m' = crpix1 m ∧ crpix2 m' = crpix2 m ∧
       cd11 m' = s * cd11 m ∧ cd12 m' = s * cd12 m ∧
       cd21 m' = s * cd21 m ∧ cd22 m' = s * cd22 m) as Hrel.
  { intros i Hi. eapply rescaled_table; eauto. }
  split; [done|].
  destruct Hr as (_ & _ & _ & Hasm & Hqx & Hqy & Hpv & _).
  destruct Hr' as (_ & _ & _ & Hasm' & Hqx' & Hqy' & Hpv' & _).
  assert (run_df r = assemble_spec (run_rcmeta r) <$> df) as Hrows.
  { rewrite assemble_complete in Hasm; [congruence|].
    intros i Hi. destruct (Hrel i Hi) as (m & _ & -> & _). eauto. }
  assert (run_df r' = rescale_row s <$> run_df r) as Hrows'.
  { rewrite assemble_complete in Hasm'.
    - injection Hasm' as <-. rewrite Hrows, <-!list_fmap_compose.
      apply list_fmap_ext. intros k o _. simpl.
      by apply assemble_spec_rescale.
    - intros i Hi. destruct (Hrel i Hi) as (_ & m' & _ & -> & _). eauto. }
  split; [done|]. intros Hfull. rewrite Hrows' in Hqx', Hqy'.
  destruct (rescaled_quadratic_fit (λ w, eta (obs w)) s _ _ _ Hs (λ _, eq_refl)
              Hfull Hqx Hqx') as (X1 & X2 & X3 & X4 & X5 & _).
  destruct (rescaled_quadratic_fit (λ w, nu (obs w)) s _ _ _ Hs (λ _, eq_refl)
              Hfull Hqy Hqy') as (Y1 & Y2 & Y3 & Y4 & Y5 & _).
  destruct (pv_start_coef _ _ _ Hpv)
    as (-> & -> & -> & -> & -> & -> & -> & -> & -> & ->).
  destruct (pv_start_coef _ _ _ Hpv')
    as (-> & -> & -> & -> & -> & -> & -> & -> & -> & ->).
  by repeat split.
Qed.

(** ** An exact run *)

Lemma exact_table_keys (known : nat → affine) (ids : list nat) :
  ((λ i, (i, known_entry (known i))) <$> ids).*1 = ids.
Proof.
  rewrite <-list_fmap_compose. etrans; [|apply list_fmap_id].
  by apply list_fmap_ext.
Qed.

Lemma exact_table_lookup known i :
  (i < 64)%nat → exact_table known !! i = Some (known_entry (known i)).
Proof.
  intros Hi. unfold exact_table. apply elem_of_list_to_map_1.
  - rewrite exact_table_keys. apply NoDup_seq.
  - apply list_elem_of_fmap. exists i. split; [done|]. apply elem_of_seq. lia.
Qed.

Lemma exact_table_dom known : dom (exact_table known) = list_to_set (seq 0 64).
Proof.
  unfold exact_table. by rewrite dom_list_to_map_L, exact_table_keys.
Qed.

(** The loop of [rcmeta] on exact fits of generated data builds the table of
    the known transforms. *)
Lemma exact_rcmeta known df px py :
  Forall (generated_by known) df →
  (∀ i, (i < 64)%nat → three_stars df i) →
  (∀ i, (i < 64)%nat →
     det (a11 (known i)) (a12 (known i)) (a21 (known i)) (a22 (known i)) ≠ 0) →
  ols_fit (linear_columns (levels df)) eta df px →
  ols_fit (linear_columns (levels df)) nu df py →
  rcmeta px py = (exact_table known, None).
Proof.
  intros Hgen H3 Hdet Hx Hy.
  assert (0%nat ∈ levels df) as H0.
  { destruct (H3 0%nat) as (o & _ & _ & Ho & _ & _ & Hr & _); [lia|].
    apply elem_of_levels. eauto. }
  destruct (rcmeta_total px py (λ i, known_entry (known i))) as (tbl & Ht & Hl).
  { intros i Hi. apply (fit_recovers_entry known df); auto. }
  rewrite Ht. f_equal. apply map_eq. intros i.
  destruct (decide (i < 64)%nat) as [Hi|Hi].
  - by rewrite Hl, exact_table_lookup.
  - unfold rcmeta in Ht. apply rcmeta_loop_done in Ht as (Hdom & _ & _).
    transitivity (@None quadrant_model); [|symmetry].
    + apply not_elem_of_dom. rewrite Hdom, dom_empty_L, elem_of_union,
        elem_of_list_to_set, elem_of_seq. set_solver by lia.
    + apply not_elem_of_dom. rewrite exact_table_dom, elem_of_list_to_set,
        elem_of_seq. lia.
Qed.

(** On generated data the linear model is exact: the loop turns every
    observation into a row with [etalin = eta] and [nulin = nu]. *)
Lemma exact_rows known o :
  generated_by known o →
  (∀ i, (i < 64)%nat →
     det (a11 (known i)) (a12 (known i)) (a21 (known i)) (a22 (known i)) ≠ 0) →
  obs (assemble_spec (exact_table known) o) = o ∧
  etalin (assemble_spec (exact_table known) o) = eta o ∧
  nulin (assemble_spec (exact_table known) o) = nu o.
Proof.
  intros [Heta Hnu] Hdet. unfold assemble_spec.
  destruct (decide (rcid o < 64)%nat) as [Hi|Hi].
  - rewrite exact_table_lookup by done.
    set (k := known (rcid o)) in *. set (m := known_entry k).
    assert (t1 k + a11 k * crpix1 m + a12 k * crpix2 m = 0 ∧
            t2 k + a21 k * crpix1 m + a22 k * crpix2 m = 0) as [E1 E2].
    { apply zero_point_unique; [by apply Hdet|done]. }
    assert (cd11 m = a11 k ∧ cd12 m = a12 k ∧ cd21 m = a21 k ∧ cd22 m = a22 k)
      as (C11 & C12 & C21 & C22) by done.
    clearbody m. unfold assemble_row. simpl.
    split; [done|]. rewrite Heta, Hnu, C11, C12, C21, C22. split.
    + transitivity
        (t1 k + a11 k * x_image o + a12 k * y_image o
         - (t1 k + a11 k * crpix1 m + a12 k * crpix2 m)); [ring|].
      rewrite E1. ring.
    + transitivity
        (t2 k + a21 k * x_image o + a22 k * y_image o
         - (t2 k + a21 k * crpix1 m + a22 k * crpix2 m)); [ring|].
      rewrite E2. ring.
  - by destruct (exact_table known !! rcid o).
Qed.

Lemma identity_xres_predict w :
  predict quadratic_columns identity_xres w = etalin w.
Proof.
  rewrite predict_quadratic.
  change (coef identity_xres "Intercept") with 0.
  change (coef identity_xres "etalin") with 1.
  change (coef identity_xres "nulin") with 0.
  change (coef identity_xres "np.power(etalin, 2)") with 0.
  change (coef identity_xres "etalin:nulin") with 0.
  change (coef identity_xres "np.power(nulin, 2)") with 0.
  ring.
Qed.

Lemma identity_yres_predict w :
  predict quadratic_columns identity_yres w = nulin w.
Proof.
  rewrite predict_quadratic.
  change (coef identity_yres "Intercept") with 0.
  change (coef identity_yres "etalin") with 0.
  change (coef identity_yres "nulin") with 1.
  change (coef identity_yres "np.power(etalin, 2)") with 0.
  change (coef identity_yres "etalin:nulin") with 0.
  change (coef identity_yres "np.power(nulin, 2)") with 0.
  ring.
Qed.

(** The whole notebook on generated data. *)
Lemma exact_notebook known df TELRAD TELDECD :
  Forall (generated_by known) df →
  (∀ i, (i < 64)%nat → three_stars df i) →
  (∀ i, (i < 64)%nat →
     det (a11 (known i)) (a12 (known i)) (a21 (known i)) (a22 (known i)) ≠ 0) →
  notebook TELRAD TELDECD df (exact_run known df TELRAD TELDECD).
Proof.
  intros Hgen H3 Hdet.
  assert (0%nat ∈ levels df) as H0.
  { destruct (H3 0%nat) as (o & _ & _ & Ho & _ & _ & Hr & _); [lia|].
    apply elem_of_levels. eauto. }
  pose proof (exact_xres_fit known df H0 Hgen) as Hx.
  pose proof (exact_yres_fit known df H0 Hgen) as Hy.
  unfold notebook, exact_run. simpl.
  split; [done|]. split; [done|].
  split; [by apply (exact_rcmeta known df)|].
  split.
  { apply assemble_complete. intros i Hi. rewrite exact_table_lookup by done. eauto. }
  rewrite Forall_forall in Hgen.
  split.
  { apply exact_fit_is_ols; [reflexivity|].
    intros w (o & -> & Ho)%list_elem_of_fmap.
    destruct (exact_rows known o (Hgen o Ho) Hdet) as (-> & <- & _).
    symmetry. apply identity_xres_predict. }
  split.
  { apply exact_fit_is_ols; [reflexivity|].
    intros w (o & -> & Ho)%list_elem_of_fmap.
    destruct (exact_rows known o (Hgen o Ho) Hdet) as (-> & _ & <-).
    symmetry. apply identity_yres_predict. }
  split; [reflexivity|].
  apply output_header_Ok.
  - apply exact_table_lookup. unfold my_rcid. lia.
  - intros k Hk. apply lookup_coef. unfold identity_pv.
    rewrite dom_list_to_map_L. apply elem_of_list_to_set. exact Hk.
Qed.

(** Every run on generated data has the table of the known transforms. *)
Lemma generated_table known df TELRAD TELDECD r :
  Forall (generated_by known) df →
  (∀ i, (i < 64)%nat → three_stars df i) →
  (∀ i, (i < 64)%nat →
     det (a11 (known i)) (a12 (known i)) (a21 (known i)) (a22 (known i)) ≠ 0) →
  notebook TELRAD TELDECD df r →
  run_rcmeta r = exact_table known.
Proof.
  intros Hgen H3 Hdet (Hx & Hy & Htbl & _).
  pose proof (exact_rcmeta known df _ _ Hgen H3 Hdet Hx Hy) as Hexact.
  rewrite Htbl in Hexact. exact (f_equal fst Hexact).
Qed.

Lemma generated_by_rescale known s o :
  generated_by known o →
  generated_by (λ i, scale_affine s (known i)) (rescale s o).
Proof. intros [Heta Hnu]. split; simpl; [rewrite Heta|rewrite Hnu]; ring. Qed.

(** *** Six points that do not lie on a conic *)

Lemma Qc_six_nonzero : (1 + 1) * (1 + 1 + 1) ≠ 0.
Proof. apply not_eq_sym, Qclt_not_eq. reflexivity. Qed.

Lemma conic_through_six (c0 cE cN cEE cEN cNN : Qc) :
  c0 + (cE * 0 + cN * 0 + cEE * (0 * 0) + cEN * (0 * 0) + cNN * (0 * 0)) = 0 →
  c0 + (cE * (1 + 1) + cN * 0 + cEE * ((1 + 1) * (1 + 1)) + cEN * ((1 + 1) * 0)
        + cNN * (0 * 0)) = 0 →
  c0 + (cE * 0 + cN * 1 + cEE * (0 * 0) + cEN * (0 * 1) + cNN * (1 * 1)) = 0 →
  c0 + (cE * 1 + cN * 1 + cEE * (1 * 1) + cEN * (1 * 1) + cNN * (1 * 1)) = 0 →
  c0 + (cE * (1 + 1 + 1) + cN * 1 + cEE * ((1 + 1 + 1) * (1 + 1 + 1))
        + cEN * ((1 + 1 + 1) * 1) + cNN * (1 * 1)) = 0 →
  c0 + (cE * 1 + cN * (1 + 1) + cEE * (1 * 1) + cEN * (1 * (1 + 1))
        + cNN * ((1 + 1) * (1 + 1))) = 0 →
  c0 = 0 ∧ cE = 0 ∧ cN = 0 ∧ cEE = 0 ∧ cEN = 0 ∧ cNN = 0.
Proof.
  intros P1 P2 P3 P4 P5 P6.
  set (two := 1 + 1) in *. set (three := 1 + 1 + 1) in *.
  set (p1 := c0 + _) in P1. set (p2 := c0 + _) in P2. set (p3 := c0 + _) in P3.
  set (p4 := c0 + _) in P4. set (p5 := c0 + _) in P5. set (p6 := c0 + _) in P6.
  assert (∀ x, two * three * x = 0 → x = 0) as H6.
  { intros x Hx. apply Qcmult_integral in Hx as [Hx|Hx]; [|done].
    by destruct Qc_six_nonzero. }
  assert (∀ x, two * (two * three * x) = 0 → x = 0) as H12.
  { intros x Hx. apply H6. apply Qcmult_integral in Hx as [Hx|Hx]; [|done].
    destruct Qc_six_nonzero. fold two three. by rewrite Hx, Qcmult_0_l. }
  assert (c0 = 0) as E0.
  { transitivity p1; [unfold p1; ring|done]. }
  assert (cEE = 0) as EEE.
  { apply H6. transitivity (two * p3 - three * p4 + p5);
      [unfold p3, p4, p5, two, three; ring|]. rewrite P3, P4, P5. ring. }
  assert (cE = 0) as EE.
  { apply H6. transitivity (three * p2 - three * p1 - two * two * p3
                            + two * three * p4 - two * p5);
      [unfold p1, p2, p3, p4, p5, two, three; ring|].
    rewrite P1, P2, P3, P4, P5. ring. }
  assert (cEN = 0) as EEN.
  { apply H6. transitivity (three * p1 - three * p2 - two * two * p3
                            + three * p4 + p5);
      [unfold p1, p2, p3, p4, p5, two, three; ring|].
    rewrite P1, P2, P3, P4, P5. ring. }
  assert (cNN = 0) as ENN.
  { apply H12. transitivity (three * p1 + three * p2 - two * p3
                             - three * three * p4 - p5 + two * three * p6);
      [unfold p1, p2, p3, p4, p5, p6, two, three; ring|].
    rewrite P1, P2, P3, P4, P5, P6. ring. }
  assert (cN = 0) as EN.
  { transitivity (p3 - c0 - cNN); [unfold p3; ring|]. rewrite P3, E0, ENN. ring. }
  done.
Qed.

Lemma six_points_full_rank (rows : list row) :
  has_point rows 0 0 → has_point rows (1 + 1) 0 → has_point rows 0 1 →
  has_point rows 1 1 → has_point rows (1 + 1 + 1) 1 → has_point rows 1 (1 + 1) →
  full_rank quadratic_columns rows.
Proof.
  intros (w1 & Hw1 & He1 & Hn1) (w2 & Hw2 & He2 & Hn2) (w3 & Hw3 & He3 & Hn3)
         (w4 & Hw4 & He4 & Hn4) (w5 & Hw5 & He5 & Hn5) (w6 & Hw6 & He6 & Hn6)
         p q Hagree.
  assert (∀ w e n, w ∈ rows → etalin w = e → nulin w = n →
    (coef p "Intercept" - coef q "Intercept") +
    ((coef p "etalin" - coef q "etalin") * e
     + (coef p "nulin" - coef q "nulin") * n
     + (coef p "np.power(etalin, 2)" - coef q "np.power(etalin, 2)") * (e * e)
     + (coef p "etalin:nulin" - coef q "etalin:nulin") * (e * n)
     + (coef p "np.power(nulin, 2)" - coef q "np.power(nulin, 2)") * (n * n)) = 0)
    as Hpt.
  { intros w e n Hw <- <-. specialize (Hagree w Hw).
    rewrite !predict_quadratic, !Qc_pow2 in Hagree.
    apply (proj2 (Qc_minus_zero _ _)) in Hagree. etrans; [|exact Hagree]. ring. }
  destruct (conic_through_six _ _ _ _ _ _
    (Hpt _ _ _ Hw1 He1 Hn1) (Hpt _ _ _ Hw2 He2 Hn2) (Hpt _ _ _ Hw3 He3 Hn3)
    (Hpt _ _ _ Hw4 He4 Hn4) (Hpt _ _ _ Hw5 He5 Hn5) (Hpt _ _ _ Hw6 He6 Hn6))
    as (C0 & C1 & C2 & C3 & C4 & C5).
  apply (proj1 (Qc_minus_zero _ _)) in C0, C1, C2, C3, C4, C5.
  intros l Hl. simpl in Hl.
  repeat (apply elem_of_cons in Hl as [->|Hl]); [done..|by apply elem_of_nil in Hl].
Qed.

(** ** The demonstration data *)

Lemma demo_det i :
  det (a11 (demo_known i)) (a12 (demo_known i)) (a21 (demo_known i))
      (a22 (demo_known i)) ≠ 0.
Proof. apply not_eq_sym, Qclt_not_eq. reflexivity. Qed.

Lemma demo_det2 i :
  det (a11 (demo_known2 i)) (a12 (demo_known2 i)) (a21 (demo_known2 i))
      (a22 (demo_known2 i)) ≠ 0.
Proof. apply not_eq_sym, Qclt_not_eq. reflexivity. Qed.

Lemma demo_three_stars i : (i < 64)%nat → three_stars demo_df i.
Proof. apply synthetic_three_stars. Qed.

Lemma demo_zero_level n : (0 < n)%nat → 0%nat ∈ levels (synthetic demo_known n).
Proof. intros Hn. by apply synthetic_levels. Qed.

Lemma demo_notebook : notebook 0 0 demo_df demo_run.
Proof.
  apply exact_notebook.
  - apply synthetic_generated.
  - apply demo_three_stars.
  - intros i _. apply demo_det.
Qed.

Lemma demo_generated2 : Forall (generated_by demo_known2) demo_df2.
Proof.
  apply Forall_fmap, Forall_forall. intros o Ho.
  apply (generated_by_rescale demo_known).
  pose proof (synthetic_generated demo_known 64) as Hgen.
  rewrite Forall_forall in Hgen. by apply Hgen.
Qed.

Lemma demo_three_stars2 i : (i < 64)%nat → three_stars demo_df2 i.
Proof. intros Hi. by apply three_stars_rescale, demo_three_stars. Qed.

Lemma demo_notebook2 : notebook 0 0 demo_df2 demo_run2.
Proof.
  apply exact_notebook.
  - apply demo_generated2.
  - apply demo_three_stars2.
  - intros i _. apply demo_det2.
Qed.

Lemma demo_has_point i x y e n :
  (i < 64)%nat → (x = 0 ∧ y = 0 ∨ x = 1 ∧ y = 0 ∨ x = 0 ∧ y = 1) →
  qnat i + (1 + 1) * x = e → qnat i + y = n →
  has_point (run_df demo_run) e n.
Proof.
  intros Hi Hxy <- <-.
  assert (star_of demo_known i x y ∈ demo_df) as Hin.
  { apply elem_of_synthetic. exists i. split; [done|].
    destruct Hxy as [[-> ->]|[[-> ->]|[-> ->]]]; auto. }
  exists (assemble_spec (exact_table demo_known) (star_of demo_known i x y)).
  split; [by apply list_elem_of_fmap_2|].
  destruct (exact_rows demo_known (star_of demo_known i x y)) as (_ & -> & ->).
  - by split.
  - intros j _. apply demo_det.
  - simpl. split; ring.
Qed.

Lemma demo_full_rank : full_rank quadratic_columns (run_df demo_run).
Proof.
  apply six_points_full_rank.
  - apply (demo_has_point 0 0 0); [lia|auto|simpl; ring..].
  - apply (demo_has_point 0 1 0); [lia|auto|simpl; ring..].
  - apply (demo_has_point 0 0 1); [lia|auto|simpl; ring..].
  - apply (demo_has_point 1 0 0); [lia|auto|simpl; ring..].
  - apply (demo_has_point 1 1 0); [lia|auto|simpl; ring..].
  - apply (demo_has_point 1 0 1); [lia|auto|simpl; ring..].
Qed.

Lemma Qc_two_nonzero : (1 + 1 : Qc) ≠ 0.
Proof. apply not_eq_sym, Qclt_not_eq. reflexivity. Qed.

(** ** The claims on the demonstration data *)

(** C1 on quadrant 1 of the demonstration data. *)
Lemma crpix_is_zero_point_witness :
  ∃ m, rcmeta_entry (linear_xres demo_run) (linear_yres demo_run) 1 = Ok m ∧
    cd11 m = 1 + 1 ∧ cd12 m = 0 ∧ cd21 m = 0 ∧ cd22 m = 1 ∧
    (∀ o, rcid o = 1%nat →
       (predict (linear_columns (levels demo_df)) (linear_xres demo_run) o = 0 ∧
        predict (linear_columns (levels demo_df)) (linear_yres demo_run) o = 0) ↔
       (x_image o = crpix1 m ∧ y_image o = crpix2 m)) ∧
    (∀ inv, matrix_mul inv (Matrix2 (1 + 1) 0 0 1) = matrix_one →
       (crpix1 m, crpix2 m) =
         matrix_mul_col inv (- offset_of (linear_xres demo_run) 1,
                             - offset_of (linear_yres demo_run) 1)).
Proof.
  destruct demo_notebook as (Hx & Hy & _).
  apply (crpix_is_zero_point demo_df _ _ 1 (1 + 1) 0 0 1 Hx Hy).
  - apply synthetic_rcid. lia.
  - destruct (quadrant_cd_fit demo_df _ _ 1 (proj1 Hx) (proj1 Hy))
      as (Hcd & _); [apply demo_zero_level; lia|apply synthetic_levels; lia|].
    destruct (fit_recovers_quadrant demo_known demo_df _ _ 1
                (synthetic_generated _ _) (demo_zero_level 64 ltac:(lia))
                (demo_three_stars 1 ltac:(lia)) Hx Hy)
      as (_ & E2 & E3 & _ & E5 & E6).
    rewrite E2, E3, E5, E6 in Hcd. exact Hcd.
  - apply (demo_det 1).
Defined.

(** C5 on the demonstration data. *)
Lemma linear_fit_recovers_known_witness :
  ∃ tbl, rcmeta (linear_xres demo_run) (linear_yres demo_run) = (tbl, None) ∧
    ∀ i, (i < 64)%nat → ∃ m, tbl !! i = Some m ∧
      cd11 m = a11 (demo_known i) ∧ cd12 m = a12 (demo_known i) ∧
      cd21 m = a21 (demo_known i) ∧ cd22 m = a22 (demo_known i) ∧
      t1 (demo_known i) + a11 (demo_known i) * crpix1 m
        + a12 (demo_known i) * crpix2 m = 0 ∧
      t2 (demo_known i) + a21 (demo_known i) * crpix1 m
        + a22 (demo_known i) * crpix2 m = 0.
Proof.
  destruct demo_notebook as (Hx & Hy & _).
  apply (linear_fit_recovers_known demo_known demo_df _ _
           (synthetic_generated _ _) demo_three_stars (λ i _, demo_det i) Hx Hy).
Defined.

(** C6 on two singular matrices: [[1, 2], [2, 4]], whose elimination
    meets a zero pivot, and [[3, 3], [5, 5]], whose rounded pivot is
    [-2^-51]. *)
Lemma singular_quadrant_raises_witness :
  (matrix_inv (Matrix2 (Some 1) (Some (1 + 1)) (Some (1 + 1))
                       (Some ((1 + 1) * (1 + 1)))) = Raise LinAlgError ∧
   rcmeta_entry singular_xres singular_yres 0 = Raise LinAlgError ∧
   (∃ st e, rcmeta singular_xres singular_yres = (st, Some e) ∧ st !! 0%nat = None) ∧
   ((∀ j, (j < 0)%nat → ∃ m, rcmeta_entry singular_xres singular_yres j = Ok m) →
    ∃ st, rcmeta singular_xres singular_yres = (st, Some LinAlgError) ∧
          dom st = list_to_set (seq 0 0))) ∧
  ((∃ inv, matrix_inv (Matrix2 (Some (Qc_of_Z 3)) (Some (Qc_of_Z 3))
                               (Some (Qc_of_Z 5)) (Some (Qc_of_Z 5))) = Ok inv) ∧
   ∀ ox oy, skew_xres !! label_level 0 = Some ox →
     skew_yres !! label_level 0 = Some oy →
     ∃ m, rcmeta_entry skew_xres skew_yres 0 = Ok m ∧
       cd11 m = Qc_of_Z 3 ∧ cd12 m = Qc_of_Z 3 ∧
       cd21 m = Qc_of_Z 5 ∧ cd22 m = Qc_of_Z 5 ∧
       ((∀ j, (j < 0)%nat → ∃ m', rcmeta_entry skew_xres skew_yres j = Ok m') →
        ∀ st e, rcmeta skew_xres skew_yres = (st, e) → st !! 0%nat = Some m)).
Proof.
  split.
  - apply (singular_quadrant_raises singular_xres singular_yres 0
             1 (1 + 1) (1 + 1) ((1 + 1) * (1 + 1))).
    + lia.
    + reflexivity.
    + apply Qc_is_canon. reflexivity.
    + by vm_compute.
  - apply (singular_quadrant_raises skew_xres skew_yres 0
             (Qc_of_Z 3) (Qc_of_Z 3) (Qc_of_Z 5) (Qc_of_Z 5)).
    + lia.
    + reflexivity.
    + apply Qc_is_canon. reflexivity.
    + apply (bool_decide_unpack _). by vm_compute.
Defined.

(** C6 as worded fails: the matrix [[3, 3], [5, 5]] has determinant zero,
    yet the elimination in binary64 swaps the rows, takes the multiplier
    [3 * (1/5)], which rounds up, and is left with the pivot [-2^-51].  The
    inversion returns, the body stores for quadrant 0 an entry that holds
    the singular matrix and an origin beyond [10^14] pixels, and the loop
    goes on to quadrant 1. *)
Lemma singular_matrix_accepted :
  quadrant_cd skew_xres skew_yres 0 =
    Ok (Matrix2 (Some (Qc_of_Z 3)) (Some (Qc_of_Z 3))
                (Some (Qc_of_Z 5)) (Some (Qc_of_Z 5))) ∧
  det (Qc_of_Z 3) (Qc_of_Z 3) (Qc_of_Z 5) (Qc_of_Z 5) = 0 ∧
  (∃ l, dgetrf (Qc_of_Z 3) (Qc_of_Z 3) (Qc_of_Z 5) (Qc_of_Z 5) =
          Some (true, l, Qc_of_Z 5, Qc_of_Z 5, - pow2 (- 51))) ∧
  (∃ m, rcmeta_entry skew_xres skew_yres 0 = Ok m ∧
     cd11 m = Qc_of_Z 3 ∧ cd12 m = Qc_of_Z 3 ∧
     cd21 m = Qc_of_Z 5 ∧ cd22 m = Qc_of_Z 5 ∧
     crpix1 m < - Qc_of_Z (10 ^ 14) ∧ Qc_of_Z (10 ^ 14) < crpix2 m ∧
     (rcmeta skew_xres skew_yres).1 !! 0%nat = Some m) ∧
  ¬ singular_is_refused skew_xres skew_yres 0.
Proof.
  assert (det (Qc_of_Z 3) (Qc_of_Z 3) (Qc_of_Z 5) (Qc_of_Z 5) = 0) as Hdet
    by (apply Qc_is_canon; reflexivity).
  split; [reflexivity|]. split; [exact Hdet|].
  split.
  { exists (Qc_of_Z 5404319552844596 * pow2 (- 53)).
    apply (bool_decide_unpack _). by vm_compute. }
  assert (∃ m, rcmeta_entry skew_xres skew_yres 0 = Ok m ∧
     cd11 m = Qc_of_Z 3 ∧ cd12 m = Qc_of_Z 3 ∧
     cd21 m = Qc_of_Z 5 ∧ cd22 m = Qc_of_Z 5 ∧
     crpix1 m < - Qc_of_Z (10 ^ 14) ∧ Qc_of_Z (10 ^ 14) < crpix2 m ∧
     (rcmeta skew_xres skew_yres).1 !! 0%nat = Some m) as Hm.
  { destruct (rcmeta_entry skew_xres skew_yres 0) as [e|m] eqn:He;
      [by vm_compute in He|].
    exists m. split; [done|].
    assert ((rcmeta skew_xres skew_yres).1 !! 0%nat = Some m) as Hst.
    { apply (rcmeta_stores skew_xres skew_yres 0 m _
               (rcmeta skew_xres skew_yres).2); [lia|intros j Hj; lia|done|].
      apply surjective_pairing. }
    vm_compute in He. injection He as <-.
    do 4 (split; [apply Qc_is_canon; reflexivity|]).
    split; [reflexivity|]. split; [reflexivity|]. exact Hst. }
  split; [exact Hm|]. intros Hclaim.
  destruct Hm as (m & Hm & _).
  destruct (Hclaim _ _ _ _ eq_refl Hdet) as [He _]. congruence.
Qed.

Lemma partial_fits :
  ols_fit (linear_columns (levels partial_df)) eta partial_df
    (exact_xres demo_known partial_df) ∧
  ols_fit (linear_columns (levels partial_df)) nu partial_df
    (exact_yres demo_known partial_df).
Proof.
  split; [apply exact_xres_fit|apply exact_yres_fit];
    try apply synthetic_generated; apply demo_zero_level; lia.
Qed.

(** C10 on data that has only the quadrants [0..4]. *)
Lemma rcmeta_complete_or_raises_witness :
  (∀ i, (i < 64)%nat → i ∉ rcid <$> partial_df →
     exact_xres demo_known partial_df !! label_level i = None ∧
     (∃ e, rcmeta_entry (exact_xres demo_known partial_df)
             (exact_yres demo_known partial_df) i = Raise e) ∧
     (∃ st e, rcmeta (exact_xres demo_known partial_df)
                (exact_yres demo_known partial_df) = (st, Some e) ∧
              st !! i = None) ∧
     ((∀ j, (j < i)%nat →
         ∃ m, rcmeta_entry (exact_xres demo_known partial_df)
                (exact_yres demo_known partial_df) j = Ok m) →
      ∃ st e, rcmeta (exact_xres demo_known partial_df)
                (exact_yres demo_known partial_df) = (st, Some e) ∧
              dom st = list_to_set (seq 0 i))) ∧
  (∀ tbl, rcmeta (exact_xres demo_known partial_df)
            (exact_yres demo_known partial_df) = (tbl, None) →
     dom tbl = list_to_set (seq 0 64) ∧ size tbl = 64%nat ∧
     ∀ i, (i < 64)%nat → i ∈ rcid <$> partial_df).
Proof.
  apply (rcmeta_complete_or_raises partial_df _ _
           (proj1 partial_fits) (proj2 partial_fits)).
Defined.

(** C4 on the demonstration data and its table. *)
Lemma global_coordinates_witness :
  ∃ df', assemble (exact_table demo_known) (add_global_columns <$> demo_df) = Ok df' ∧
    length df' = length demo_df ∧
    ∀ k o, demo_df !! k = Some o →
      ∃ w, df' !! k = Some w ∧ obs w = o ∧
        ∀ m, (rcid o < 64)%nat → exact_table demo_known !! rcid o = Some m →
          x_global w = x_image o - crpix1 m ∧
          y_global w = y_image o - crpix2 m ∧
          etalin w = (x_image o - crpix1 m) * cd11 m
                     + (y_image o - crpix2 m) * cd12 m ∧
          nulin w = (x_image o - crpix1 m) * cd21 m
                    + (y_image o - crpix2 m) * cd22 m.
Proof.
  apply (global_coordinates (exact_table demo_known) demo_df).
  intros i Hi. rewrite exact_table_lookup by done. eauto.
Defined.

(** C7 on the run of the demonstration data. *)
Lemma header_contents_witness :
  ∃ m, run_rcmeta demo_run !! my_rcid = Some m ∧
    (∀ k, k ∈ pv_keys → run_pv demo_run !! k = Some (coef (run_pv demo_run) k)) ∧
    run_header demo_run = header_cards 0 0 m (coef (run_pv demo_run)) ∧
    keys_with_prefix "PV" (run_header demo_run) = pv_keys ∧
    keys_with_prefix "CD" (run_header demo_run)
      = ["CD1_1"; "CD1_2"; "CD2_1"; "CD2_2"] ∧
    (∀ q, (q < 64)%nat → ∃ mq, run_rcmeta demo_run !! q = Some mq ∧
       output_header 0 0 (run_rcmeta demo_run) (run_pv demo_run) q =
         Ok (header_cards 0 0 mq (coef (run_pv demo_run)))).
Proof. apply (header_contents 0 0 demo_df demo_run demo_notebook). Defined.

(** C9 on the run of the demonstration data. *)
Lemma intercept_is_dropped_witness :
  is_Some (xres demo_run !! "Intercept") ∧ is_Some (yres demo_run !! "Intercept") ∧
  (∀ u v, pv_start (<["Intercept" := u]> (xres demo_run))
            (<["Intercept" := v]> (yres demo_run)) = Ok (run_pv demo_run)) ∧
  dom (run_pv demo_run) = list_to_set pv_keys ∧
  ("PV1_0" ∉ (run_header demo_run).*1) ∧
  ("PV2_0" ∉ (run_header demo_run).*1) ∧
  ("Intercept" ∉ (run_header demo_run).*1) ∧
  (∀ w, predict quadratic_columns (xres demo_run) w =
     coef (xres demo_run) "Intercept" +
     (coef (run_pv demo_run) "PV1_1" * etalin w
      + coef (run_pv demo_run) "PV1_2" * nulin w
      + coef (run_pv demo_run) "PV1_4" * (etalin w ^ 2)
      + coef (run_pv demo_run) "PV1_5" * (etalin w * nulin w)
      + coef (run_pv demo_run) "PV1_6" * (nulin w ^ 2))) ∧
  (∀ w, predict quadratic_columns (yres demo_run) w =
     coef (yres demo_run) "Intercept" +
     (coef (run_pv demo_run) "PV2_1" * nulin w
      + coef (run_pv demo_run) "PV2_2" * etalin w
      + coef (run_pv demo_run) "PV2_4" * (nulin w ^ 2)
      + coef (run_pv demo_run) "PV2_5" * (etalin w * nulin w)
      + coef (run_pv demo_run) "PV2_6" * (etalin w ^ 2))).
Proof.
  destruct demo_notebook as (_ & _ & _ & _ & Hqx & Hqy & Hpv & Hh).
  apply (intercept_is_dropped _ _ _ _ _ _ _ _ _ _ _ Hqx Hqy Hpv Hh).
Defined.

(** ** The model at work *)

Example label_level_12 :
  label_level 12 = "C(rcid)[12]" ∧
  label_level_x 12 = "C(rcid)[T.12]:x_image" ∧
  label_level_y 12 = "C(rcid)[T.12]:y_image".
Proof. by vm_compute. Qed.

Example ahead_name_7 : ahead_name 7 = "quadrant_07.ahead".
Proof. by vm_compute. Qed.

Example levels_partial_df : levels partial_df = [0; 1; 2; 3; 4]%nat.
Proof. by vm_compute. Qed.

(** The singular matrix [[1, 2], [2, 4]] stops the loop at its first pass:
    the pivot is [2], the multiplier [1/2], and [2 - (1/2) * 4] is zero. *)
Example rcmeta_singular :
  dgetrf 1 (1 + 1) (1 + 1) ((1 + 1) * (1 + 1)) = None ∧
  rcmeta singular_xres singular_yres = (∅, Some LinAlgError).
Proof. by vm_compute. Qed.

(** The nearest binary64 number to [3/5] is below it, the product of [3]
    and the reciprocal of [5] rounds to the one above. *)
Example binary64_three_fifths :
  binary64 (Qc_of_Z 3 / Qc_of_Z 5) = Qc_of_Z 5404319552844595 * pow2 (- 53) ∧
  fl_mul (Qc_of_Z 3) (fl_div 1 (Qc_of_Z 5))
    = Qc_of_Z 5404319552844596 * pow2 (- 53).
Proof. split; apply Qc_is_canon; by vm_compute. Qed.

(** The singular matrix [[3, 3], [5, 5]] passes: the loop stores quadrant 0
    and ends at quadrant 1, where [cd11 += None]. *)
Example rcmeta_skew :
  (rcmeta skew_xres skew_yres).2 = Some TypeError ∧
  dom (rcmeta skew_xres skew_yres).1 = list_to_set (seq 0 1) ∧
  (λ m, (this (cd11 m), this (cd12 m), this (cd21 m), this (cd22 m),
         this (crpix1 m), this (crpix2 m))) <$>
    (rcmeta skew_xres skew_yres).1 !! 0%nat
  = Some (3 # 1, 3 # 1, 5 # 1, 5 # 1,
          -3602879701896397 # 4, 900719925474099 # 1)%Q.
Proof. by vm_compute. Qed.

(** With quadrants [0..4] only, the loop fills five entries and raises
    [TypeError] at quadrant 5, where [cd11 += None]. *)
Example rcmeta_partial_df :
  (rcmeta (exact_xres demo_known partial_df) (exact_yres demo_known partial_df)).2
    = Some TypeError ∧
  dom (rcmeta (exact_xres demo_known partial_df)
         (exact_yres demo_known partial_df)).1 = list_to_set (seq 0 5) ∧
  quadrant_cd (exact_xres demo_known partial_df)
    (exact_yres demo_known partial_df) 5 = Raise TypeError.
Proof. by vm_compute. Qed.

(** On the demonstration data the loop completes; quadrant 63 has
    [cd11 = 2], [cd22 = 1] and its origin at [(-63/2, -63)]. *)
Example rcmeta_demo_df :
  (rcmeta (exact_xres demo_known demo_df) (exact_yres demo_known demo_df)).2 = None ∧
  (λ m, (this (cd11 m), this (cd12 m), this (cd21 m), this (cd22 m),
         this (crpix1 m), this (crpix2 m))) <$>
    (rcmeta (exact_xres demo_known demo_df) (exact_yres demo_known demo_df)).1
      !! 63%nat
  = Some (2 # 1, 0 # 1, 0 # 1, 1 # 1, -63 # 2, -63 # 1)%Q.
Proof. by vm_compute. Qed.

(** A fit without the label [nulin] makes [pv_start] raise at [float(None)]. *)
Example pv_start_missing_label :
  pv_start sample_res (delete "nulin" sample_res) = Raise TypeError.
Proof. by vm_compute. Qed.

(** Without [overwrite] an existing file is an error; with it the file is
    replaced. *)
Example totextfile_overwrite :
  totextfile (λ c, c.1) "quadrant_32.ahead" false [("NAXIS", VInt 2)]
    {["quadrant_32.ahead" := "old"]} = Raise OSError ∧
  totextfile (λ c, c.1) "quadrant_32.ahead" true
    [("NAXIS", VInt 2); ("NAXIS1", VInt 3072)]
    {["quadrant_32.ahead" := "old"]}
  = Ok {["quadrant_32.ahead" := "NAXIS" +:+ String (ascii_of_nat 10) "NAXIS1"]}.
Proof. by vm_compute. Qed.

(** * Further properties *)

(** ** Sums of columns *)

Lemma Qc_sum_cons (x : Qc) (l : list Qc) : Qc_sum (x :: l) = x + Qc_sum l.
Proof. reflexivity. Qed.

Lemma Qc_sum_plus {A} (f g : A → Qc) (l : list A) :
  Qc_sum ((λ a, f a + g a) <$> l) = Qc_sum (f <$> l) + Qc_sum (g <$> l).
Proof.
  induction l as [|a l IH]; [simpl; unfold Qc_sum; simpl; ring|].
  rewrite !fmap_cons, !Qc_sum_cons, IH. ring.
Qed.

Lemma Qc_sum_scale {A} (k : Qc) (f : A → Qc) (l : list A) :
  Qc_sum ((λ a, f a * k) <$> l) = Qc_sum (f <$> l) * k.
Proof.
  induction l as [|a l IH]; [unfold Qc_sum; simpl; ring|].
  rewrite !fmap_cons, !Qc_sum_cons, IH. ring.
Qed.

Lemma Qc_sum_ext {A} (f g : A → Qc) (l : list A) :
  (∀ a, a ∈ l → f a = g a) → Qc_sum (f <$> l) = Qc_sum (g <$> l).
Proof.
  induction l as [|a l IH]; intros H; [done|].
  rewrite !fmap_cons, !Qc_sum_cons, IH, (H a); [done|set_solver|].
  intros b Hb. apply H. set_solver.
Qed.

Lemma Qc_sum_all_zero {A} (f : A → Qc) (l : list A) :
  (∀ a, a ∈ l → f a = 0) → Qc_sum (f <$> l) = 0.
Proof.
  induction l as [|a l IH]; intros H; [done|].
  rewrite fmap_cons, Qc_sum_cons, IH, (H a); [ring|set_solver|].
  intros b Hb. apply H. set_solver.
Qed.

Lemma Qc_sum_squares_nonneg {A} (f : A → Qc) (l : list A) :
  0 ≤ Qc_sum ((λ a, f a * f a) <$> l).
Proof.
  induction l as [|a l IH]; [done|].
  rewrite fmap_cons, Qc_sum_cons.
  apply Qcplus_nonneg_nonneg; [apply Qc_square_nonneg|done].
Qed.

Lemma Qc_sum_squares_zero {A} (f : A → Qc) (l : list A) :
  Qc_sum ((λ a, f a * f a) <$> l) = 0 → ∀ a, a ∈ l → f a = 0.
Proof.
  induction l as [|a l IH]; intros H b Hb; [by apply elem_of_nil in Hb|].
  rewrite fmap_cons, Qc_sum_cons in H.
  apply Qc_sum_zero in H as [H1 H2];
    [|apply Qc_square_nonneg|apply Qc_sum_squares_nonneg].
  apply elem_of_cons in Hb as [->|Hb]; [|by apply IH].
  by destruct (Qcmult_integral _ _ H1).
Qed.

(** ** The normal equations *)

Lemma coef_insert_eq (p : Series) (l : string) (v : Qc) : coef (<[l := v]> p) l = v.
Proof. unfold coef. by rewrite lookup_insert_eq. Qed.

Lemma coef_insert_ne (p : Series) (l l' : string) (v : Qc) :
  l ≠ l' → coef (<[l := v]> p) l' = coef p l'.
Proof. intros Hne. unfold coef. by rewrite lookup_insert_ne. Qed.

(** Moving the coefficient of one column by [t] moves the fitted value by
    [t] times the column. *)
Lemma predict_shift {R} (cols : list (string * (R → Qc))) (p : Series)
    (l : string) (f : R → Qc) (t : Qc) (r : R) :
  NoDup cols.*1 → (l, f) ∈ cols →
  predict cols (<[l := coef p l + t]> p) r = predict cols p r + t * f r.
Proof.
  induction cols as [|c cs IH]; intros Hnd Hin; [by apply elem_of_nil in Hin|].
  rewrite fmap_cons in Hnd. apply NoDup_cons in Hnd as [Hc Hnd].
  rewrite !predict_cons. apply elem_of_cons in Hin as [<-|Hin].
  - simpl. rewrite coef_insert_eq.
    rewrite (predict_ext cs (<[l := coef p l + t]> p) p); [ring|].
    intros l' Hl'. apply coef_insert_ne. intros <-. done.
  - assert (l ≠ c.1) as Hne.
    { intros ->. apply Hc. apply list_elem_of_fmap. by exists (c.1, f). }
    rewrite coef_insert_ne, IH by done. ring.
Qed.

Lemma ssr_shift {R} (cols : list (string * (R → Qc))) (resp : R → Qc)
    (df : list R) (p : Series) (l : string) (f : R → Qc) (t : Qc) :
  NoDup cols.*1 → (l, f) ∈ cols →
  ssr cols resp df (<[l := coef p l + t]> p) =
    ssr cols resp df p
    - (1 + 1) * t * Qc_sum ((λ r, resid cols resp p r * f r) <$> df)
    + t * t * Qc_sum ((λ r, f r * f r) <$> df).
Proof.
  intros Hnd Hin. induction df as [|r df IH]; [unfold Qc_sum; simpl; ring|].
  rewrite !ssr_cons, !fmap_cons, !Qc_sum_cons, IH, !Qc_pow2.
  rewrite (predict_shift cols p l f t r Hnd Hin). unfold resid. ring.
Qed.

(** The residuals of a least-squares solution are orthogonal to every
    column of the design. *)
Lemma normal_equation {R} (cols : list (string * (R → Qc))) (resp : R → Qc)
    (df : list R) (p : Series) (l : string) (f : R → Qc) :
  NoDup cols.*1 → (l, f) ∈ cols → ols_fit cols resp df p →
  Qc_sum ((λ r, resid cols resp p r * f r) <$> df) = 0.
Proof.
  intros Hnd Hin [Hdom Hmin].
  set (S := Qc_sum ((λ r, resid cols resp p r * f r) <$> df)).
  set (N := Qc_sum ((λ r, f r * f r) <$> df)).
  destruct (decide (N = 0)) as [HN|HN].
  { apply Qc_sum_all_zero. intros r Hr.
    rewrite (Qc_sum_squares_zero f df HN r Hr). ring. }
  assert (dom (<[l := coef p l + S / N]> p) = list_to_set cols.*1) as Hdom'.
  { rewrite dom_insert_L, Hdom.
    assert (l ∈ cols.*1) as Hl by (apply list_elem_of_fmap; by exists (l, f)).
    set_solver. }
  pose proof (Hmin _ Hdom') as Hle.
  rewrite (ssr_shift cols resp df p l f (S / N) Hnd Hin) in Hle.
  fold S N in Hle.
  replace (ssr cols resp df p - (1 + 1) * (S / N) * S + S / N * (S / N) * N)
    with (ssr cols resp df p + - (S * S / N)) in Hle by (by field).
  rewrite <-(Qcplus_0_r (ssr cols resp df p)) in Hle at 1.
  apply Qcplus_le_mono_l in Hle.
  assert (0 ≤ N) as HN0 by apply Qc_sum_squares_nonneg.
  pose proof (Qcmult_le_compat_r _ _ _ Hle HN0) as Hle'.
  rewrite Qcmult_0_l in Hle'.
  replace (- (S * S / N) * N) with (- (S * S)) in Hle' by (by field).
  assert (S * S ≤ 0) as HS.
  { apply Qcopp_le_compat in Hle'.
    replace (- - (S * S)) with (S * S) in Hle' by ring.
    by replace (- 0) with 0 in Hle' by ring. }
  assert (S * S = 0) as HS0 by (apply Qcle_antisym; [done|apply Qc_square_nonneg]).
  by destruct (Qcmult_integral _ _ HS0).
Qed.

(** Conversely a vector whose residuals are orthogonal to every column is a
    least-squares solution. *)
Lemma ssr_compare {R} (cols : list (string * (R → Qc))) (resp : R → Qc)
    (df : list R) (p p' : Series) :
  ssr cols resp df p' =
    ssr cols resp df p
    + (1 + 1) * Qc_sum ((λ r, resid cols resp p r
                              * (predict cols p r - predict cols p' r)) <$> df)
    + Qc_sum ((λ r, (predict cols p r - predict cols p' r)
                    * (predict cols p r - predict cols p' r)) <$> df).
Proof.
  induction df as [|r df IH]; [unfold Qc_sum; simpl; ring|].
  rewrite !ssr_cons, !fmap_cons, !Qc_sum_cons, IH, !Qc_pow2. unfold resid. ring.
Qed.

Lemma orthogonal_to_fitted {R} (e : R → Qc) (cs : list (string * (R → Qc)))
    (df : list R) (p p' : Series) :
  (∀ c, c ∈ cs → Qc_sum ((λ r, e r * c.2 r) <$> df) = 0) →
  Qc_sum ((λ r, e r * (predict cs p r - predict cs p' r)) <$> df) = 0.
Proof.
  induction cs as [|c cs IH]; intros Hc.
  - apply Qc_sum_all_zero. intros r _. unfold predict. simpl. ring.
  - rewrite (Qc_sum_ext _
      (λ r, e r * c.2 r * (coef p c.1 - coef p' c.1)
            + e r * (predict cs p r - predict cs p' r)))
      by (intros r _; rewrite !predict_cons; ring).
    rewrite Qc_sum_plus, (Qc_sum_scale _ (λ r, e r * c.2 r)).
    rewrite (Hc c) by apply list_elem_of_here.
    rewrite IH by (intros c' Hc'; apply Hc; by apply list_elem_of_further).
    ring.
Qed.

Lemma normal_equations_sufficient {R} (cols : list (string * (R → Qc)))
    (resp : R → Qc) (df : list R) (p : Series) :
  dom p = list_to_set cols.*1 →
  (∀ c, c ∈ cols → Qc_sum ((λ r, resid cols resp p r * c.2 r) <$> df) = 0) →
  ols_fit cols resp df p.
Proof.
  intros Hd Hc. split; [done|]. intros p' _.
  rewrite (ssr_compare cols resp df p p').
  rewrite (orthogonal_to_fitted (resid cols resp p) cols df p p' Hc).
  rewrite Qcmult_0_r, Qcplus_0_r.
  rewrite <-(Qcplus_0_r (ssr cols resp df p)) at 1.
  apply Qcplus_le_mono_l, Qc_sum_squares_nonneg.
Qed.

(** ** The residual columns of the linear fits *)

Lemma quadrant_rows_cons (i : nat) (o : observation) (df : list observation) :
  quadrant_rows i (o :: df) =
    if decide (rcid o = i) then o :: quadrant_rows i df else quadrant_rows i df.
Proof. unfold quadrant_rows. rewrite filter_cons. by destruct (decide (rcid o = i)). Qed.

Lemma elem_of_quadrant_rows (i : nat) (o : observation) (df : list observation) :
  o ∈ quadrant_rows i df ↔ rcid o = i ∧ o ∈ df.
Proof. unfold quadrant_rows. by rewrite list_elem_of_filter. Qed.

(** Weighting by the dummy variable of a level selects the rows of that
    quadrant. *)
Lemma Qc_sum_dummy (g : observation → Qc) (i : nat) (df : list observation) :
  Qc_sum ((λ o, g o * dummy i o) <$> df) = Qc_sum (g <$> quadrant_rows i df).
Proof.
  induction df as [|o df IH]; [done|].
  rewrite fmap_cons, Qc_sum_cons, quadrant_rows_cons, IH. unfold dummy.
  destruct (decide (rcid o = i)).
  - rewrite fmap_cons, Qc_sum_cons. ring.
  - ring.
Qed.

Lemma Qc_sum_indicator (v : Qc) (i : nat) (lv : list nat) :
  NoDup lv → i ∈ lv →
  Qc_sum ((λ l, if decide (i = l) then v else 0) <$> lv) = v.
Proof.
  induction lv as [|l lv IH]; intros Hnd Hi; [by apply elem_of_nil in Hi|].
  apply NoDup_cons in Hnd as [Hl Hnd].
  rewrite fmap_cons, Qc_sum_cons.
  destruct (decide (i = l)) as [->|Hne].
  - rewrite Qc_sum_all_zero; [ring|].
    intros l' Hl'. destruct (decide (l = l')) as [<-|]; done.
  - apply elem_of_cons in Hi as [?|Hi]; [done|]. rewrite IH by done. ring.
Qed.

(** A sum over the data is the sum over the quadrants of the sums within
    each quadrant. *)
Lemma Qc_sum_by_quadrant (g : observation → Qc) (lv : list nat)
    (df : list observation) :
  NoDup lv → (∀ o, o ∈ df → rcid o ∈ lv) →
  Qc_sum (g <$> df) = Qc_sum ((λ l, Qc_sum (g <$> quadrant_rows l df)) <$> lv).
Proof.
  intros Hnd. induction df as [|o df IH]; intros Hall.
  - symmetry. by apply Qc_sum_all_zero.
  - rewrite fmap_cons, Qc_sum_cons, IH by (intros o' Ho'; apply Hall; set_solver).
    rewrite <-(Qc_sum_indicator (g o) (rcid o) lv Hnd) at 1 by (apply Hall; set_solver).
    rewrite <-Qc_sum_plus. apply Qc_sum_ext. intros l _.
    rewrite quadrant_rows_cons. destruct (decide (rcid o = l)).
    + by rewrite fmap_cons, Qc_sum_cons.
    + ring.
Qed.

Lemma elem_of_linear_columns (lv : list nat) (c : string * (observation → Qc)) :
  c ∈ linear_columns lv ↔
    (∃ l, l ∈ lv ∧ c = (label_level l, dummy l)) ∨
    c = ("x_image", x_image) ∨
    (∃ l, l ∈ tail lv ∧ c = (label_level_x l, λ o, dummy l o * x_image o)) ∨
    c = ("y_image", y_image) ∨
    (∃ l, l ∈ tail lv ∧ c = (label_level_y l, λ o, dummy l o * y_image o)).
Proof.
  unfold linear_columns.
  rewrite !elem_of_app, !list_elem_of_fmap, !list_elem_of_singleton.
  naive_solver.
Qed.

(** In a least-squares fit of the linear formula the residuals of every
    quadrant sum to zero, and so do their products with [x_image] and with
    [y_image]. *)
Lemma linear_normal_equations (resp : observation → Qc) (df : list observation)
    (p : Series) (i : nat) :
  ols_fit (linear_columns (levels df)) resp df p →
  Qc_sum (resid (linear_columns (levels df)) resp p <$> quadrant_rows i df) = 0 ∧
  Qc_sum ((λ o, resid (linear_columns (levels df)) resp p o * x_image o)
            <$> quadrant_rows i df) = 0 ∧
  Qc_sum ((λ o, resid (linear_columns (levels df)) resp p o * y_image o)
            <$> quadrant_rows i df) = 0.
Proof.
  intros Hfit. set (cols := linear_columns (levels df)) in *.
  set (e := resid cols resp p).
  pose proof (NoDup_linear_labels (levels df) (NoDup_levels df)) as Hnd.
  destruct (decide (i ∈ levels df)) as [Hi|Hi]; last first.
  { assert (quadrant_rows i df = []) as ->; [|done].
    apply elem_of_nil_inv. intros o [Hr Ho]%elem_of_quadrant_rows.
    apply Hi, elem_of_levels. eauto. }
  assert (NoDup (tail (levels df))) as Hndt.
  { pose proof (NoDup_levels df) as H. destruct (levels df); [done|].
    by apply NoDup_cons in H as [_ ?]. }
  split.
  { rewrite <-(Qc_sum_dummy e). apply (normal_equation cols resp df p (label_level i));
      [done| |done].
    apply elem_of_linear_columns. left. eauto. }
  (* the two slopes: a column of its own for every level but the first *)
  assert (∀ (lbl : nat → string) (g : observation → Qc) (top : string),
    (top, g) ∈ cols →
    (∀ l, l ∈ tail (levels df) → (lbl l, λ o, dummy l o * g o) ∈ cols) →
    Qc_sum ((λ o, e o * g o) <$> quadrant_rows i df) = 0) as Hslope.
  { intros lbl g top Htop Hlv.
    assert (∀ l, l ∈ tail (levels df) →
      Qc_sum ((λ o, e o * g o) <$> quadrant_rows l df) = 0) as Htail.
    { intros l Hl. rewrite <-(Qc_sum_dummy (λ o, e o * g o)).
      rewrite <-(normal_equation cols resp df p (lbl l) _ Hnd (Hlv l Hl) Hfit).
      apply Qc_sum_ext. intros o _. unfold e. ring. }
    destruct (decide (i ∈ tail (levels df))) as [Hit|Hit]; [by apply Htail|].
    pose proof (normal_equation cols resp df p top g Hnd Htop Hfit) as Hall.
    fold e in Hall.
    rewrite (Qc_sum_by_quadrant _ (levels df) df (NoDup_levels df)) in Hall;
      [|intros o Ho; apply elem_of_levels; eauto].
    destruct (levels df) as [|l0 lv] eqn:Hlv0; [by apply elem_of_nil in Hi|].
    cbn [tail] in *. apply elem_of_cons in Hi as [->|Hi]; [|done].
    rewrite fmap_cons, Qc_sum_cons in Hall.
    rewrite (Qc_sum_all_zero
               (λ l, Qc_sum ((λ o, e o * g o) <$> quadrant_rows l df)) lv),
      Qcplus_0_r in Hall; [done|].
    intros l Hl. by apply Htail. }
  split.
  - apply (Hslope label_level_x x_image "x_image").
    + apply elem_of_linear_columns. auto.
    + intros l Hl. apply elem_of_linear_columns. right. right. left. eauto.
  - apply (Hslope label_level_y y_image "y_image").
    + apply elem_of_linear_columns. auto 6.
    + intros l Hl. apply elem_of_linear_columns. do 4 right. eauto.
Qed.

Lemma NoDup_quadratic_labels : NoDup quadratic_columns.*1.
Proof. apply (bool_decide_unpack _). by vm_compute. Qed.

(** X3: after the two linear fits the residual columns [etaresid] and
    [nuresid] are balanced in every quadrant: over the stars of a quadrant
    the residuals sum to zero, and so do their products with [x_image] and
    with [y_image] (no offset and no slope is left in the residuals of a
    quadrant). *)
Theorem linear_residuals_balanced (df : list observation) (px py : Series)
    (i : nat) :
  ols_fit (linear_columns (levels df)) eta df px →
  ols_fit (linear_columns (levels df)) nu df py →
  Qc_sum (etaresid df px <$> quadrant_rows i df) = 0 ∧
  Qc_sum ((λ o, etaresid df px o * x_image o) <$> quadrant_rows i df) = 0 ∧
  Qc_sum ((λ o, etaresid df px o * y_image o) <$> quadrant_rows i df) = 0 ∧
  Qc_sum (nuresid df py <$> quadrant_rows i df) = 0 ∧
  Qc_sum ((λ o, nuresid df py o * x_image o) <$> quadrant_rows i df) = 0 ∧
  Qc_sum ((λ o, nuresid df py o * y_image o) <$> quadrant_rows i df) = 0.
Proof.
  intros Hx Hy.
  destruct (linear_normal_equations eta df px i Hx) as (X0 & X1 & X2).
  destruct (linear_normal_equations nu df py i Hy) as (Y0 & Y1 & Y2).
  assert (∀ (e g : observation → Qc) (l : list observation),
    Qc_sum ((λ o, e o * g o) <$> l) = 0 →
    Qc_sum ((λ o, e o * Qc_of_Z 3600 * g o) <$> l) = 0) as Hw.
  { intros e g l H.
    rewrite (Qc_sum_ext _ (λ o, e o * g o * Qc_of_Z 3600))
      by (intros; ring).
    rewrite (Qc_sum_scale (Qc_of_Z 3600) (λ o, e o * g o)), H. ring. }
  unfold etaresid, nuresid.
  rewrite !(Qc_sum_scale (Qc_of_Z 3600)), X0, Y0.
  repeat split; try ring; by apply Hw.
Qed.

(** The plane [noisy_res] is the least-squares fit of [noisy_df]. *)
Lemma noisy_fit (resp : observation → Qc) :
  (∀ o, o ∈ noisy_df → resp o = eta o) →
  ols_fit (linear_columns (levels noisy_df)) resp noisy_df noisy_res.
Proof.
  intros Hresp. apply normal_equations_sufficient; [reflexivity|].
  intros c Hc.
  rewrite (Qc_sum_ext _
    (λ o, resid (linear_columns (levels noisy_df)) eta noisy_res o * c.2 o)).
  2:{ intros o Ho. unfold resid. by rewrite (Hresp o Ho). }
  change (levels noisy_df) with [0%nat] in *.
  unfold linear_columns in Hc. simpl in Hc.
  repeat (apply elem_of_cons in Hc as [->|Hc]); [..|by apply elem_of_nil in Hc];
    apply Qc_is_canon; reflexivity.
Qed.

(** X3 on the four stars of [noisy_df], whose residuals are not zero: the
    first one is [1/4] degree, 900 arcseconds. *)
Lemma linear_residuals_balanced_witness :
  etaresid noisy_df noisy_res (Observation 0 0 0 0 0 0 0) = Qc_of_Z 900 ∧
  Qc_sum (etaresid noisy_df noisy_res <$> quadrant_rows 0 noisy_df) = 0 ∧
  Qc_sum ((λ o, etaresid noisy_df noisy_res o * x_image o)
            <$> quadrant_rows 0 noisy_df) = 0 ∧
  Qc_sum ((λ o, etaresid noisy_df noisy_res o * y_image o)
            <$> quadrant_rows 0 noisy_df) = 0 ∧
  Qc_sum (nuresid noisy_df noisy_res <$> quadrant_rows 0 noisy_df) = 0 ∧
  Qc_sum ((λ o, nuresid noisy_df noisy_res o * x_image o)
            <$> quadrant_rows 0 noisy_df) = 0 ∧
  Qc_sum ((λ o, nuresid noisy_df noisy_res o * y_image o)
            <$> quadrant_rows 0 noisy_df) = 0.
Proof.
  split; [apply Qc_is_canon; reflexivity|].
  apply (linear_residuals_balanced noisy_df noisy_res noisy_res 0).
  - apply noisy_fit. done.
  - apply noisy_fit. intros o Ho. unfold noisy_df in Ho.
    repeat (apply elem_of_cons in Ho as [->|Ho]); [done..|by apply elem_of_nil in Ho].
Defined.

(** X10: after the two distortion fits the residual columns [etaresid2] and
    [nuresid2] sum to zero over the whole data frame (the fits have an
    intercept), and they are orthogonal to every column of the distortion
    design, among them [etalin] and [nulin]. *)
Theorem distortion_residuals_balanced (rows : list row) (xres yres : Series) :
  ols_fit quadratic_columns (λ w, eta (obs w)) rows xres →
  ols_fit quadratic_columns (λ w, nu (obs w)) rows yres →
  Qc_sum (etaresid2 xres <$> rows) = 0 ∧
  Qc_sum (nuresid2 yres <$> rows) = 0 ∧
  ∀ c, c ∈ quadratic_columns →
    Qc_sum ((λ w, etaresid2 xres w * c.2 w) <$> rows) = 0 ∧
    Qc_sum ((λ w, nuresid2 yres w * c.2 w) <$> rows) = 0.
Proof.
  intros Hx Hy.
  assert (∀ (resp : row → Qc) (p : Series) (c : string * (row → Qc)),
    ols_fit quadratic_columns resp rows p → c ∈ quadratic_columns →
    Qc_sum ((λ w, resid quadratic_columns resp p w * Qc_of_Z 3600 * c.2 w)
              <$> rows) = 0) as Hc.
  { intros resp p [l f] Hfit Hin.
    rewrite (Qc_sum_ext _
      (λ w, resid quadratic_columns resp p w * f w * Qc_of_Z 3600))
      by (intros; simpl; ring).
    rewrite (Qc_sum_scale (Qc_of_Z 3600)
               (λ w, resid quadratic_columns resp p w * f w)).
    rewrite (normal_equation quadratic_columns resp rows p l f
               NoDup_quadratic_labels Hin Hfit). ring. }
  assert (("Intercept", λ _ : row, 1) ∈ quadratic_columns) as H1
    by apply list_elem_of_here.
  unfold etaresid2, nuresid2. split; [|split].
  - rewrite <-(Hc _ _ _ Hx H1). apply Qc_sum_ext. intros w _. simpl. ring.
  - rewrite <-(Hc _ _ _ Hy H1). apply Qc_sum_ext. intros w _. simpl. ring.
  - intros c Hin. split; by apply Hc.
Qed.

(** The constant [1/2] is the least-squares distortion fit of [noisy_rows]. *)
Lemma noisy_quadratic_fit (resp : row → Qc) :
  (∀ w, w ∈ noisy_rows → resp w = eta (obs w)) →
  ols_fit quadratic_columns resp noisy_rows noisy_quadratic.
Proof.
  intros Hresp. apply normal_equations_sufficient; [reflexivity|].
  intros c Hc.
  rewrite (Qc_sum_ext _
    (λ w, resid quadratic_columns (λ w, eta (obs w)) noisy_quadratic w * c.2 w)).
  2:{ intros w Hw. unfold resid. by rewrite (Hresp w Hw). }
  unfold quadratic_columns in Hc.
  repeat (apply elem_of_cons in Hc as [->|Hc]); [..|by apply elem_of_nil in Hc];
    apply Qc_is_canon; reflexivity.
Qed.

(** X10 on the two rows of [noisy_rows], whose residuals are not zero: the
    second one is [1/2] degree, 1800 arcseconds. *)
Lemma distortion_residuals_balanced_witness :
  etaresid2 noisy_quadratic (Row (Observation 0 0 0 1 1 0 0) 0 0 0 0)
    = Qc_of_Z 1800 ∧
  Qc_sum (etaresid2 noisy_quadratic <$> noisy_rows) = 0 ∧
  Qc_sum (nuresid2 noisy_quadratic <$> noisy_rows) = 0 ∧
  ∀ c, c ∈ quadratic_columns →
    Qc_sum ((λ w, etaresid2 noisy_quadratic w * c.2 w) <$> noisy_rows) = 0 ∧
    Qc_sum ((λ w, nuresid2 noisy_quadratic w * c.2 w) <$> noisy_rows) = 0.
Proof.
  split; [apply Qc_is_canon; reflexivity|].
  apply (distortion_residuals_balanced noisy_rows noisy_quadratic noisy_quadratic).
  - apply noisy_quadratic_fit. done.
  - apply noisy_quadratic_fit. intros w Hw. unfold noisy_rows in Hw.
    repeat (apply elem_of_cons in Hw as [->|Hw]); [done..|by apply elem_of_nil in Hw].
Defined.

(** ** The global coordinates of a run *)

(** A run that completes had stars in every quadrant of the camera. *)
Lemma notebook_level TELRAD TELDECD df r i :
  notebook TELRAD TELDECD df r → (i < 64)%nat → i ∈ levels df.
Proof.
  intros Hr Hi. destruct (notebook_table _ _ _ _ i Hr Hi) as (m & _ & Hm).
  destruct Hr as ([Hdx _] & _).
  destruct (decide (i ∈ rcid <$> df)) as [Hin|Hout].
  - apply list_elem_of_fmap in Hin as (o & -> & Ho). apply elem_of_levels. eauto.
  - pose proof (missing_level_label df _ i Hdx Hout) as Hnone.
    destruct (rcmeta_entry_missing_level _ (linear_yres r) i Hnone) as [e He].
    congruence.
Qed.

Lemma notebook_rows TELRAD TELDECD df r :
  notebook TELRAD TELDECD df r →
  run_df r = assemble_spec (run_rcmeta r) <$> df.
Proof.
  intros Hr. pose proof Hr as (_ & _ & _ & Hasm & _).
  rewrite assemble_complete in Hasm; [congruence|].
  intros i Hi. destruct (notebook_table _ _ _ _ i Hr Hi) as (m & -> & _). eauto.
Qed.

(** The row the loop makes of an observation of a quadrant of the camera,
    in terms of the fitted slopes of that quadrant; when the matrix is
    regular, the origin is the zero point of the fitted model. *)
Lemma notebook_row TELRAD TELDECD df r o :
  notebook TELRAD TELDECD df r → (rcid o < 64)%nat →
  ∃ m, run_rcmeta r !! rcid o = Some m ∧
    assemble_spec (run_rcmeta r) o = assemble_row m (add_global_columns o) ∧
    cd11 m = slope_x_of (linear_xres r) (rcid o) ∧
    cd12 m = slope_y_of (linear_xres r) (rcid o) ∧
    cd21 m = slope_x_of (linear_yres r) (rcid o) ∧
    cd22 m = slope_y_of (linear_yres r) (rcid o) ∧
    (det (cd11 m) (cd12 m) (cd21 m) (cd22 m) ≠ 0 →
     offset_of (linear_xres r) (rcid o) + cd11 m * crpix1 m + cd12 m * crpix2 m = 0 ∧
     offset_of (linear_yres r) (rcid o) + cd21 m * crpix1 m + cd22 m * crpix2 m = 0).
Proof.
  intros Hr Hi. destruct (notebook_table _ _ _ _ _ Hr Hi) as (m & Hm & He).
  exists m. split; [done|]. split.
  { unfold assemble_spec. rewrite Hm. by destruct (decide (rcid o < 64)%nat). }
  apply rcmeta_entry_model in He as ((C11 & C12 & C21 & C22) & Hmod).
  do 4 (split; [done|]). intros Hdet.
  pose proof Hdet as Hdet'. rewrite C11, C12, C21, C22 in Hdet'.
  rewrite (Hmod Hdet). cbn [cd11 cd12 cd21 cd22 known_entry crpix1 crpix2
    a11 a12 a21 a22 t1 t2].
  by apply zero_point_unique.
Qed.

(** The table of the demonstration run has regular matrices only. *)
Lemma demo_regular (i : nat) (m : quadrant_model) :
  run_rcmeta demo_run !! i = Some m →
  det (cd11 m) (cd12 m) (cd21 m) (cd22 m) ≠ 0.
Proof.
  change (run_rcmeta demo_run) with (exact_table demo_known).
  destruct (decide (i < 64)%nat) as [Hi|Hi].
  - rewrite exact_table_lookup by done. intros [= <-]. apply (demo_det i).
  - intros Hm. apply (elem_of_dom_2 (D := gset nat)) in Hm.
    rewrite exact_table_dom, elem_of_list_to_set, elem_of_seq in Hm. lia.
Qed.

(** X6: in a run that completes, the linearized coordinates of every star of
    a quadrant in [0..63] whose matrix in [rcmeta] is regular are the fitted
    values of the two linear fits at that star, so the residual columns of
    the linear fits are the distance between the projected and the
    linearized coordinates, times 3600. *)
Theorem linearized_is_fitted (TELRAD TELDECD : Qc) (df : list observation)
    (r : run) (k : nat) (o : observation) :
  notebook TELRAD TELDECD df r →
  df !! k = Some o → (rcid o < 64)%nat →
  (∀ m, run_rcmeta r !! rcid o = Some m →
     det (cd11 m) (cd12 m) (cd21 m) (cd22 m) ≠ 0) →
  ∃ w, run_df r !! k = Some w ∧ obs w = o ∧
    etalin w = predict (linear_columns (levels df)) (linear_xres r) o ∧
    nulin w = predict (linear_columns (levels df)) (linear_yres r) o ∧
    etaresid df (linear_xres r) o = (eta o - etalin w) * Qc_of_Z 3600 ∧
    nuresid df (linear_yres r) o = (nu o - nulin w) * Qc_of_Z 3600.
Proof.
  intros Hr Ho Hi Hreg.
  destruct (notebook_row _ _ _ _ o Hr Hi)
    as (m & Hm & Hrow & C11 & C12 & C21 & C22 & Hzero).
  destruct (Hzero (Hreg m Hm)) as [Z1 Z2].
  exists (assemble_spec (run_rcmeta r) o).
  split. { by rewrite (notebook_rows _ _ _ _ Hr), list_lookup_fmap, Ho. }
  rewrite Hrow. split; [done|].
  assert (0%nat ∈ levels df) as H0 by (eapply notebook_level; [done|lia]).
  assert (rcid o ∈ levels df) as Hl by (by eapply notebook_level).
  assert (etalin (assemble_row m (add_global_columns o)) =
          predict (linear_columns (levels df)) (linear_xres r) o) as E1.
  { rewrite predict_linear by done. rewrite <-C11, <-C12. simpl.
    transitivity (offset_of (linear_xres r) (rcid o) + cd11 m * x_image o
                  + cd12 m * y_image o
                  - (offset_of (linear_xres r) (rcid o) + cd11 m * crpix1 m
                     + cd12 m * crpix2 m)); [ring|].
    rewrite Z1. ring. }
  assert (nulin (assemble_row m (add_global_columns o)) =
          predict (linear_columns (levels df)) (linear_yres r) o) as E2.
  { rewrite predict_linear by done. rewrite <-C21, <-C22. simpl.
    transitivity (offset_of (linear_yres r) (rcid o) + cd21 m * x_image o
                  + cd22 m * y_image o
                  - (offset_of (linear_yres r) (rcid o) + cd21 m * crpix1 m
                     + cd22 m * crpix2 m)); [ring|].
    rewrite Z2. ring. }
  unfold etaresid, nuresid, resid. by rewrite E1, E2.
Qed.

(** X6 on the first star of the demonstration data. *)
Lemma linearized_is_fitted_witness :
  ∃ w, run_df demo_run !! 0%nat = Some w ∧ obs w = star_of demo_known 0 0 0 ∧
    etalin w = predict (linear_columns (levels demo_df)) (linear_xres demo_run)
                 (star_of demo_known 0 0 0) ∧
    nulin w = predict (linear_columns (levels demo_df)) (linear_yres demo_run)
                (star_of demo_known 0 0 0) ∧
    etaresid demo_df (linear_xres demo_run) (star_of demo_known 0 0 0)
      = (eta (star_of demo_known 0 0 0) - etalin w) * Qc_of_Z 3600 ∧
    nuresid demo_df (linear_yres demo_run) (star_of demo_known 0 0 0)
      = (nu (star_of demo_known 0 0 0) - nulin w) * Qc_of_Z 3600.
Proof.
  apply (linearized_is_fitted 0 0 demo_df demo_run 0 (star_of demo_known 0 0 0)
           demo_notebook); [reflexivity|simpl; lia|apply demo_regular].
Defined.

(** X7: in a run that completes, the step from local pixels to linearized
    coordinates can be undone within each quadrant of the camera whose
    matrix in [rcmeta] is regular: the inversion of the matrix returns, the
    inverse takes [(etalin, nulin)] back to the global pixel coordinates,
    and adding [(crpix1, crpix2)] gives the local pixel again. *)
Theorem pixel_from_linearized (TELRAD TELDECD : Qc) (df : list observation)
    (r : run) (w : row) :
  notebook TELRAD TELDECD df r →
  w ∈ run_df r → (rcid (obs w) < 64)%nat →
  (∀ m, run_rcmeta r !! rcid (obs w) = Some m →
     det (cd11 m) (cd12 m) (cd21 m) (cd22 m) ≠ 0) →
  ∃ m inv, run_rcmeta r !! rcid (obs w) = Some m ∧
    matrix_inv (Matrix2 (Some (cd11 m)) (Some (cd12 m))
                        (Some (cd21 m)) (Some (cd22 m))) = Ok inv ∧
    matrix_mul_col inv (etalin w, nulin w) = (x_global w, y_global w) ∧
    x_image (obs w) = x_global w + crpix1 m ∧
    y_image (obs w) = y_global w + crpix2 m.
Proof.
  intros Hr Hw Hi Hreg. rewrite (notebook_rows _ _ _ _ Hr) in Hw.
  apply list_elem_of_fmap in Hw as (o & -> & Ho).
  assert (obs (assemble_spec (run_rcmeta r) o) = o) as Hobs.
  { unfold assemble_spec. destruct (run_rcmeta r !! rcid o); [|done].
    by destruct (decide (rcid o < 64)%nat). }
  rewrite Hobs in Hi, Hreg |- *.
  destruct (notebook_row _ _ _ _ o Hr Hi) as (m & Hm & -> & _).
  pose proof (Hreg m Hm) as Hdet.
  exists m. eexists. split; [done|]. split.
  { by apply matrix_inv_regular. }
  unfold matrix_mul_col, det in *. simpl.
  split; [f_equal; by field|]. split; ring.
Qed.

(** X7 on the first row of the run of the demonstration data. *)
Lemma pixel_from_linearized_witness :
  ∃ m inv, run_rcmeta demo_run !!
             rcid (obs (assemble_spec (exact_table demo_known)
                          (star_of demo_known 0 0 0))) = Some m ∧
    matrix_inv (Matrix2 (Some (cd11 m)) (Some (cd12 m))
                        (Some (cd21 m)) (Some (cd22 m))) = Ok inv ∧
    matrix_mul_col inv
      (etalin (assemble_spec (exact_table demo_known) (star_of demo_known 0 0 0)),
       nulin (assemble_spec (exact_table demo_known) (star_of demo_known 0 0 0)))
    = (x_global (assemble_spec (exact_table demo_known) (star_of demo_known 0 0 0)),
       y_global (assemble_spec (exact_table demo_known) (star_of demo_known 0 0 0))) ∧
    x_image (obs (assemble_spec (exact_table demo_known) (star_of demo_known 0 0 0)))
    = x_global (assemble_spec (exact_table demo_known) (star_of demo_known 0 0 0))
      + crpix1 m ∧
    y_image (obs (assemble_spec (exact_table demo_known) (star_of demo_known 0 0 0)))
    = y_global (assemble_spec (exact_table demo_known) (star_of demo_known 0 0 0))
      + crpix2 m.
Proof.
  apply (pixel_from_linearized 0 0 demo_df demo_run _ demo_notebook).
  - apply list_elem_of_fmap_2, elem_of_synthetic. exists 0%nat. split; [lia|auto].
  - destruct (exact_rows demo_known (star_of demo_known 0 0 0)) as (-> & _).
    + by split.
    + intros i _. apply demo_det.
    + simpl. lia.
  - apply demo_regular.
Defined.

(** ** The loop of the global coordinates on any table *)

(** The loop raises [KeyError] as soon as the table lacks one of the
    quadrants it visits. *)
Lemma assemble_loop_missing (tbl : gmap nat quadrant_model) (ids : list nat)
    (rows : list row) (i : nat) :
  i ∈ ids → tbl !! i = None → assemble_loop tbl ids rows = Raise KeyError.
Proof.
  revert rows. induction ids as [|j ids IH]; intros rows Hi Hnone.
  - by apply elem_of_nil in Hi.
  - simpl. destruct (tbl !! j) as [mj|] eqn:Hj.
    + rewrite (assemble_step_Ok _ _ mj) by done. simpl.
      apply IH; [|done]. apply elem_of_cons in Hi as [->|Hi]; [congruence|done].
    + unfold assemble_step, dict_get. by rewrite Hj.
Qed.

(** X8: the loop of the global coordinates needs an entry of [rcmeta] for
    each of the 64 quadrants, whatever the data frame holds: it completes
    exactly when the table has all of [0..63], and otherwise it raises
    [KeyError], also when no star belongs to the missing quadrant. *)
Theorem assemble_needs_every_quadrant (tbl : gmap nat quadrant_model)
    (rows : list row) :
  ((∃ rows', assemble tbl rows = Ok rows') ↔
   (∀ i, (i < 64)%nat → is_Some (tbl !! i))) ∧
  ((∃ i, (i < 64)%nat ∧ tbl !! i = None) → assemble tbl rows = Raise KeyError).
Proof.
  assert ((∃ i, (i < 64)%nat ∧ tbl !! i = None) →
          assemble tbl rows = Raise KeyError) as Hmiss.
  { intros (i & Hi & Hnone). apply (assemble_loop_missing tbl _ rows i); [|done].
    apply elem_of_seq. lia. }
  split; [|done]. split.
  - intros [rows' Hok] i Hi.
    destruct (tbl !! i) as [m|] eqn:Hm; [eauto|].
    rewrite Hmiss in Hok by eauto. discriminate.
  - intros Hall. unfold assemble.
    destruct (assemble_loop_Ok tbl (seq 0 64) rows) as (rows' & Hok & _); [|eauto].
    intros i Hi%elem_of_seq. apply Hall. lia.
Qed.

(** X9: a star whose [rcid] is 64 or more is not touched by the loop: its
    row keeps the columns of the initial assignment, [x_global = x_image],
    [y_global = y_image], [etalin = eta] and [nulin = nu]. *)
Theorem rows_outside_the_camera (tbl : gmap nat quadrant_model)
    (df : list observation) (k : nat) (o : observation) :
  (∀ i, (i < 64)%nat → is_Some (tbl !! i)) →
  df !! k = Some o → (64 ≤ rcid o)%nat →
  ∃ df', assemble tbl (add_global_columns <$> df) = Ok df' ∧
    df' !! k = Some (Row o (x_image o) (y_image o) (eta o) (nu o)).
Proof.
  intros Hall Ho Hi. rewrite (assemble_complete tbl df Hall).
  eexists. split; [done|]. rewrite list_lookup_fmap, Ho. simpl. f_equal.
  unfold assemble_spec. destruct (tbl !! rcid o); [|done].
  destruct (decide (rcid o < 64)%nat); [lia|done].
Qed.

(** X9 on the table of the demonstration data and one star of quadrant 70. *)
Lemma rows_outside_the_camera_witness :
  ∃ df', assemble (exact_table demo_known)
           (add_global_columns <$> [Observation 70 1 1 0 0 0 0]) = Ok df' ∧
    df' !! 0%nat = Some (Row (Observation 70 1 1 0 0 0 0) 1 1 0 0).
Proof.
  apply (rows_outside_the_camera (exact_table demo_known)
           [Observation 70 1 1 0 0 0 0] 0 (Observation 70 1 1 0 0 0 0)).
  - intros i Hi. rewrite exact_table_lookup by done. eauto.
  - reflexivity.
  - simpl. lia.
Defined.

(** ** Which exception *)






(** ** The distortion dictionary on any two regression results *)

(** The five labels [pv_start] reads from each fit. *)
Lemma pv_start_raises (xres yres : Series) :
  pv_start xres yres = Raise TypeError ∨ ∃ pv, pv_start xres yres = Ok pv.
Proof.
  unfold pv_start.
  destruct (xres !! "etalin"); [|by left].
  destruct (xres !! "nulin"); [|by left].
  destruct (xres !! "np.power(etalin, 2)"); [|by left].
  destruct (xres !! "etalin:nulin"); [|by left].
  destruct (xres !! "np.power(nulin, 2)"); [|by left].
  destruct (yres !! "nulin"); [|by left].
  destruct (yres !! "etalin"); [|by left].
  destruct (yres !! "np.power(nulin, 2)"); [|by left].
  destruct (yres !! "etalin:nulin"); [|by left].
  destruct (yres !! "np.power(etalin, 2)"); [|by left].
  right. eexists. reflexivity.
Qed.

(** X12: [pv_start] is built exactly when both regression results have the
    five labels [etalin], [nulin], [np.power(etalin, 2)], [etalin:nulin] and
    [np.power(nulin, 2)]; when one of them is missing in either result the
    cell raises the [TypeError] of [float(None)], and no other exception
    is possible. *)
Theorem pv_start_needs_labels (xres yres : Series) :
  ((∃ pv, pv_start xres yres = Ok pv) ↔
   (∀ l, l ∈ ["etalin"; "nulin"; "np.power(etalin, 2)"; "etalin:nulin";
              "np.power(nulin, 2)"] →
      is_Some (xres !! l) ∧ is_Some (yres !! l))) ∧
  ((∃ l, l ∈ ["etalin"; "nulin"; "np.power(etalin, 2)"; "etalin:nulin";
              "np.power(nulin, 2)"] ∧
         (xres !! l = None ∨ yres !! l = None)) →
   pv_start xres yres = Raise TypeError).
Proof.
  assert ((∃ pv, pv_start xres yres = Ok pv) →
    ∀ l, l ∈ ["etalin"; "nulin"; "np.power(etalin, 2)"; "etalin:nulin";
               "np.power(nulin, 2)"] →
      is_Some (xres !! l) ∧ is_Some (yres !! l)) as Hok.
  { intros [pv Hpv] l Hl.
    apply pv_start_Ok in Hpv
      as (Hdom & X1 & X2 & X4 & X5 & X6 & Y1 & Y2 & Y4 & Y5 & Y6).
    assert (∀ k, k ∈ pv_keys → is_Some (pv !! k)) as Hk.
    { intros k Hin. apply elem_of_dom. rewrite Hdom. by apply elem_of_list_to_set. }
    repeat (apply elem_of_cons in Hl as [->|Hl]); [..|by apply elem_of_nil in Hl].
    - rewrite <-X1, <-Y2. split; apply Hk; in_list.
    - rewrite <-X2, <-Y1. split; apply Hk; in_list.
    - rewrite <-X4, <-Y6. split; apply Hk; in_list.
    - rewrite <-X5, <-Y5. split; apply Hk; in_list.
    - rewrite <-X6, <-Y4. split; apply Hk; in_list. }
  split; [split; [done|]|].
  - intros Hall. apply pv_start_total.
    + intros l Hl. apply elem_of_dom, Hall. set_solver.
    + intros l Hl. apply elem_of_dom, Hall. set_solver.
  - intros (l & Hl & Hnone).
    destruct (pv_start_raises xres yres) as [?|Hpv]; [done|].
    destruct (Hok Hpv l Hl) as [[u Hu] [v Hv]].
    destruct Hnone; congruence.
Qed.

(** ** The header for any selected quadrant *)

Lemma output_header_raises TELRAD TELDECD (tbl : gmap nat quadrant_model)
    (pv : gmap string Qc) (q : nat) :
  output_header TELRAD TELDECD tbl pv q = Raise KeyError ∨
  ∃ h, output_header TELRAD TELDECD tbl pv q = Ok h.
Proof.
  unfold output_header, dict_get.
  destruct (tbl !! q); [|by left]. simpl.
  destruct (pv !! "PV1_1"); [|by left]. simpl.
  destruct (pv !! "PV1_2"); [|by left]. simpl.
  destruct (pv !! "PV1_4"); [|by left]. simpl.
  destruct (pv !! "PV1_5"); [|by left]. simpl.
  destruct (pv !! "PV1_6"); [|by left]. simpl.
  destruct (pv !! "PV2_1"); [|by left]. simpl.
  destruct (pv !! "PV2_2"); [|by left]. simpl.
  destruct (pv !! "PV2_4"); [|by left]. simpl.
  destruct (pv !! "PV2_5"); [|by left]. simpl.
  destruct (pv !! "PV2_6"); [|by left]. simpl.
  right. eexists. reflexivity.
Qed.

(** X17: the cell that fills the header completes exactly when [rcmeta] has
    the selected quadrant and [pv_start] has its ten keys, and otherwise
    raises [KeyError]; so after a loop of [rcmeta] that completed, selecting
    a quadrant of 64 or more raises [KeyError] whatever [pv_start] holds. *)
Theorem output_header_needs_keys (TELRAD TELDECD : Qc)
    (tbl : gmap nat quadrant_model) (pv : gmap string Qc) (q : nat) :
  ((∃ h, output_header TELRAD TELDECD tbl pv q = Ok h) ↔
   (is_Some (tbl !! q) ∧ ∀ k, k ∈ pv_keys → is_Some (pv !! k))) ∧
  ((tbl !! q = None ∨ ∃ k, k ∈ pv_keys ∧ pv !! k = None) →
   output_header TELRAD TELDECD tbl pv q = Raise KeyError) ∧
  (∀ px py, rcmeta px py = (tbl, None) → (64 ≤ q)%nat →
     output_header TELRAD TELDECD tbl pv q = Raise KeyError).
Proof.
  assert ((∃ h, output_header TELRAD TELDECD tbl pv q = Ok h) →
          is_Some (tbl !! q) ∧ ∀ k, k ∈ pv_keys → is_Some (pv !! k)) as Hok.
  { intros [h Hh]. apply output_header_inv in Hh as (m & Hm & Hv & _).
    split; [eauto|]. intros k Hk. rewrite (Hv k Hk). eauto. }
  assert ((tbl !! q = None ∨ ∃ k, k ∈ pv_keys ∧ pv !! k = None) →
          output_header TELRAD TELDECD tbl pv q = Raise KeyError) as Hmiss.
  { intros Hnone.
    destruct (output_header_raises TELRAD TELDECD tbl pv q) as [?|Hh]; [done|].
    destruct (Hok Hh) as [[m Hm] Hv].
    destruct Hnone as [?|(k & Hk & Hnone)]; [congruence|].
    destruct (Hv k Hk). congruence. }
  split; [split; [done|]|split; [done|]].
  - intros [[m Hm] Hv]. exists (header_cards TELRAD TELDECD m (coef pv)).
    apply output_header_Ok; [done|]. intros k Hk.
    apply lookup_coef, elem_of_dom. by apply Hv.
  - intros px py Htbl Hq. apply Hmiss. left.
    unfold rcmeta in Htbl. apply rcmeta_loop_done in Htbl as (Hdom & _).
    apply not_elem_of_dom. rewrite Hdom, dom_empty_L, elem_of_union,
      elem_of_list_to_set, elem_of_seq. set_solver by lia.
Qed.

(** ** Decimal numerals *)

Lemma digit_pretty_N_char (x : N) : is_digit (pretty_N_char x) = true.
Proof. unfold pretty_N_char. by repeat case_match. Qed.

Lemma digits_pretty_N_go (x : N) (s : string) :
  digits s = true → digits (pretty_N_go x s) = true.
Proof.
  revert s. induction (N.lt_wf_0 x) as [x _ IH]; intros s Hs.
  assert (x = 0 ∨ 0 < x)%N as [->|Hx] by lia; [by rewrite pretty_N_go_0|].
  rewrite pretty_N_go_step by done. apply IH; [by apply N.div_lt|].
  simpl. by rewrite digit_pretty_N_char, Hs.
Qed.

(** A numeral has digits only. *)
Lemma digits_pretty (n : nat) : digits (pretty n) = true.
Proof.
  unfold pretty, pretty_nat, pretty, pretty_N.
  destruct (decide (N.of_nat n = 0%N)); [done|]. by apply digits_pretty_N_go.
Qed.

Lemma pretty_N_go_head (x : N) (s : string) :
  (0 < x)%N → ∃ c t, pretty_N_go x s = String c t ∧ c ≠ "0"%char.
Proof.
  revert s. induction (N.lt_wf_0 x) as [x _ IH]; intros s Hx.
  rewrite pretty_N_go_step by done.
  destruct (N.eq_0_gt_0_cases (x `div` 10)) as [Hd|Hd].
  - rewrite Hd, pretty_N_go_0. eexists _, _. split; [done|].
    assert (x < 10)%N as Hlt by (by apply N.div_small_iff in Hd).
    rewrite N.mod_small by done.
    assert (x = 1 ∨ x = 2 ∨ x = 3 ∨ x = 4 ∨ x = 5 ∨ x = 6
            ∨ x = 7 ∨ x = 8 ∨ x = 9)%N as Hc by lia.
    destruct Hc as [->|[->|[->|[->|[->|[->|[->|[->| ->]]]]]]]]; done.
  - apply IH; [by apply N.div_lt|done].
Qed.

(** The numeral of a positive number does not start with a zero. *)
Lemma pretty_head (n : nat) :
  (0 < n)%nat → ∃ c t, pretty n = String c t ∧ c ≠ "0"%char.
Proof.
  intros Hn. unfold pretty, pretty_nat, pretty, pretty_N.
  destruct (decide (N.of_nat n = 0%N)); [lia|]. apply pretty_N_go_head. lia.
Qed.

Lemma pretty_nonempty (n : nat) : ∃ c t, pretty n = String c t.
Proof.
  destruct n as [|n]; [by eexists _, _|].
  destruct (pretty_head (S n)) as (c & t & -> & _); [lia|]. eauto.
Qed.

(** One digit below ten. *)
Lemma pretty_one_digit (n : nat) :
  (n < 10)%nat → ∃ c, pretty n = String c EmptyString.
Proof.
  intros Hn.
  assert (n = 0 ∨ n = 1 ∨ n = 2 ∨ n = 3 ∨ n = 4 ∨ n = 5 ∨ n = 6 ∨ n = 7
          ∨ n = 8 ∨ n = 9)%nat as Hc by lia.
  destruct Hc as [->|[->|[->|[->|[->|[->|[->|[->|[->| ->]]]]]]]]]; by eexists.
Qed.

(** Two strings of digits, each followed by a character that is not a
    digit, are read off unambiguously. *)
Lemma digits_delimited (d1 d2 : string) (x y : ascii) (t1 t2 : string) :
  digits d1 = true → digits d2 = true →
  is_digit x = false → is_digit y = false →
  d1 +:+ String x t1 = d2 +:+ String y t2 →
  d1 = d2 ∧ x = y ∧ t1 = t2.
Proof.
  revert d2. induction d1 as [|c d1 IH]; intros [|c' d2] H1 H2 Hx Hy Heq.
  - injection Heq as -> ->. done.
  - rewrite string_app_cons in Heq. injection Heq as -> _.
    simpl in H2. rewrite Hx in H2. done.
  - rewrite string_app_cons in Heq. injection Heq as -> _.
    simpl in H1. rewrite Hy in H1. done.
  - rewrite !string_app_cons in Heq. injection Heq as -> Heq.
    simpl in H1, H2. apply andb_prop in H1 as [_ H1], H2 as [_ H2].
    destruct (IH d2 H1 H2 Hx Hy Heq) as (-> & -> & ->). done.
Qed.

(** ** The two-digit field *)

Lemma digits_fmt02 (n : nat) : digits (fmt02 n) = true.
Proof.
  unfold fmt02. destruct (decide (n < 10)%nat); [|apply digits_pretty].
  rewrite string_app_cons. simpl. apply digits_pretty.
Qed.

#[global] Instance fmt02_inj : Inj (=) (=) fmt02.
Proof.
  intros a b. unfold fmt02.
  destruct (decide (a < 10)%nat) as [Ha|Ha], (decide (b < 10)%nat) as [Hb|Hb].
  - rewrite !string_app_cons. intros [= H]. by apply (inj pretty).
  - rewrite string_app_cons.
    destruct (pretty_head b) as (c & t & -> & Hc); [lia|]. intros [= <- _]. done.
  - rewrite string_app_cons.
    destruct (pretty_head a) as (c & t & -> & Hc); [lia|]. intros [= -> _]. done.
  - apply (inj pretty).
Qed.

#[global] Instance ahead_name_inj : Inj (=) (=) ahead_name.
Proof.
  intros a b H. unfold ahead_name in H. apply (inj _) in H.
  apply string_app_inj_tail in H as [H _]; [|done]. by apply (inj fmt02).
Qed.

(** ** One file per quadrant *)

(** X18: the file name tells the quadrants apart, so the headers of two
    different quadrants never overwrite each other: written in either
    order, both files hold their own text and no other path changes. *)
Theorem quadrant_files_distinct (card_image : string * card_value → string)
    (q1 q2 : nat) (h1 h2 : Header) (fs : gmap string string) :
  q1 ≠ q2 →
  ahead_name q1 ≠ ahead_name q2 ∧
  ∃ fs',
    (fs1 ← write_ahead card_image q1 h1 fs; write_ahead card_image q2 h2 fs1)
      = Ok fs' ∧
    (fs2 ← write_ahead card_image q2 h2 fs; write_ahead card_image q1 h1 fs2)
      = Ok fs' ∧
    fs' !! ahead_name q1 = Some (tostring card_image h1) ∧
    fs' !! ahead_name q2 = Some (tostring card_image h2) ∧
    ∀ p, p ≠ ahead_name q1 → p ≠ ahead_name q2 → fs' !! p = fs !! p.
Proof.
  intros Hq.
  assert (ahead_name q1 ≠ ahead_name q2) as Hne.
  { intros H. by apply (inj ahead_name) in H. }
  split; [done|].
  assert (∀ q h (g : gmap string string),
    write_ahead card_image q h g = Ok (<[ahead_name q := tostring card_image h]> g))
    as Hw.
  { intros q h g. unfold write_ahead, totextfile. by destruct (g !! ahead_name q). }
  exists (<[ahead_name q2 := tostring card_image h2]>
            (<[ahead_name q1 := tostring card_image h1]> fs)).
  rewrite !Hw. simpl. rewrite !Hw. split; [done|]. split.
  { f_equal. by apply insert_insert_ne. }
  split; [by rewrite lookup_insert_ne, lookup_insert_eq|].
  split; [by rewrite lookup_insert_eq|].
  intros p H1 H2. by rewrite !lookup_insert_ne.
Qed.

(** X18 on the quadrants 32 and 33 and an empty directory. *)
Lemma quadrant_files_distinct_witness :
  ahead_name 32 ≠ ahead_name 33 ∧
  ∃ fs',
    (fs1 ← write_ahead (λ c, c.1) 32 [("NAXIS", VInt 2)] ∅;
     write_ahead (λ c, c.1) 33 [] fs1) = Ok fs' ∧
    (fs2 ← write_ahead (λ c, c.1) 33 [] ∅;
     write_ahead (λ c, c.1) 32 [("NAXIS", VInt 2)] fs2) = Ok fs' ∧
    fs' !! ahead_name 32 = Some (tostring (λ c, c.1) [("NAXIS", VInt 2)]) ∧
    fs' !! ahead_name 33 = Some (tostring (λ c, c.1) []) ∧
    ∀ p, p ≠ ahead_name 32 → p ≠ ahead_name 33 →
         fs' !! p = (∅ : gmap string string) !! p.
Proof.
  apply (quadrant_files_distinct (λ c, c.1) 32 33 [("NAXIS", VInt 2)] [] ∅). lia.
Defined.

(** ** The addresses of the catalogs *)

Lemma string_app_empty_r (s : string) : s +:+ "" = s.
Proof. induction s as [|c s IH]; [done|]. rewrite string_app_cons. by f_equal. Qed.

(** The template has the text to replace once, at its end. *)
Lemma replace_in_template (new : string) :
  str_replace "_c01_o_q1_psfcat.fits" new template_url =
    "https://irsa.ipac.caltech.edu/ibe/data/ztf/products/sci/2019/0408/164213/ztf_20190408164213_000747_zr"
    +:+ new.
Proof. rewrite <-(string_app_empty_r new) at 2. reflexivity. Qed.

(** X1: the download loop asks for 64 different files: the address made
    for [(ccd, quadrant)] gives back both numbers, the addresses of the 64
    pairs the loop visits are pairwise different, and the address of
    [(1, 1)] is the template itself. *)
Theorem psf_url_distinct (ccd quadrant ccd' quadrant' : nat) :
  (psf_url ccd quadrant = psf_url ccd' quadrant' →
   ccd = ccd' ∧ quadrant = quadrant') ∧
  NoDup ((λ cq, psf_url cq.1 cq.2) <$> ccd_quadrants) ∧
  length ccd_quadrants = 64%nat ∧
  psf_url 1 1 = template_url.
Proof.
  assert (∀ c q c' q', psf_url c q = psf_url c' q' → c = c' ∧ q = q') as Hinj.
  { intros c q c' q'. unfold psf_url. rewrite !replace_in_template.
    intros H. do 2 apply (inj _) in H.
    change ("_o_q" +:+ ?s) with (String "_" ("o_q" +:+ s)) in H.
    apply digits_delimited in H as (Hc & _ & H);
      [|apply digits_fmt02|apply digits_fmt02|done|done].
    apply (inj fmt02) in Hc. split; [done|].
    apply (inj _) in H. unfold fmt01 in H.
    change "_psfcat.fits" with (String "_" "psfcat.fits") in H.
    apply digits_delimited in H as (Hq & _ & _);
      [|apply digits_pretty|apply digits_pretty|done|done].
    by apply (inj pretty) in Hq. }
  split; [apply Hinj|]. split; [|split; reflexivity].
  apply NoDup_fmap_2_strong; [|apply (bool_decide_unpack _); by vm_compute].
  intros [c q] [c' q'] _ _ H. simpl in H. by destruct (Hinj _ _ _ _ H) as [-> ->].
Qed.

(** ** The data frame built from the catalogs *)

Lemma foldl_bind {A B C} (f : A → C → A) (g : B → list C) (l : list B) (a : A) :
  foldl f a (l ≫= g) = foldl (λ a x, foldl f a (g x)) a l.
Proof.
  revert a. induction l as [|x l IH]; intros a; [done|].
  rewrite bind_cons, foldl_app. apply IH.
Qed.

Lemma elem_of_concat {A} (x : A) (ls : list (list A)) :
  x ∈ concat ls ↔ ∃ l, x ∈ l ∧ l ∈ ls.
Proof.
  induction ls as [|l ls IH]; simpl.
  - split; [by intros ?%elem_of_nil|]. intros (l & _ & Hl). by apply elem_of_nil in Hl.
  - rewrite elem_of_app, IH. split.
    + intros [Hx|(l' & Hx & Hl')]; [exists l|exists l']; split; try done;
        [apply list_elem_of_here|by apply list_elem_of_further].
    + intros (l' & Hx & [->|Hl']%elem_of_cons); [by left|right; eauto].
Qed.

Lemma foldl_pointwise {A B} (f g : A → B → A) (l : list B) (a : A) :
  (∀ a x, f a x = g a x) → foldl f a l = foldl g a l.
Proof.
  intros Hfg. revert a. induction l as [|x l IH]; intros a; [done|].
  simpl. by rewrite Hfg, IH.
Qed.

(** The conversion to [int32] keeps an integer of that range. *)
Lemma int32_of_float_Z (z : Z) :
  (- 2 ^ 31 ≤ z < 2 ^ 31)%Z → int32_of_float (Qc_of_Z z * 1) = z.
Proof.
  intros Hz. rewrite Qcmult_1_r. unfold int32_of_float.
  cbn [Qc_of_Z this inject_Z Qnum Qden]. rewrite Z.quot_1_r.
  by rewrite decide_True.
Qed.

Section LoadProperties.
Variable fits_file : string → catalog.
Variable wcs_world2pix : Qc * Qc → Qc * Qc.

(** The catalog of a pair [(ccd, quadrant)], its plane coordinates and its
  column [rcid]. *)
Let cat (cq : nat * nat) : catalog := fits_file (psf_url cq.1 cq.2).
Let plane (c : catalog) : list (Qc * Qc) :=
wcs_world2pix <$> ((λ s, (tab_ra s, tab_dec s)) <$> tab c).
Let ones (c : catalog) : list Qc :=
(λ _, Qc_of_Z (header_rcid c) * 1) <$> (tab_ra <$> tab c).

(** The two nested loops append one array per catalog to each list. *)
Lemma load_columns_fold (pairs : list (nat * nat)) (acc : columns) :
foldl (λ acc cq, load_catalog fits_file wcs_world2pix cq.1 cq.2 acc) acc pairs =
Columns
  (xvals acc ++ ((λ cq, tab_xpos <$> tab (cat cq)) <$> pairs))
  (yvals acc ++ ((λ cq, tab_ypos <$> tab (cat cq)) <$> pairs))
  (etavals acc ++ ((λ cq, fst <$> plane (cat cq)) <$> pairs))
  (nuvals acc ++ ((λ cq, snd <$> plane (cat cq)) <$> pairs))
  (rcids acc ++ ((λ cq, ones (cat cq)) <$> pairs))
  (ras acc ++ ((λ cq, tab_ra <$> tab (cat cq)) <$> pairs))
  (decs acc ++ ((λ cq, tab_dec <$> tab (cat cq)) <$> pairs)).
Proof.
revert acc. induction pairs as [|cq pairs IH]; intros acc.
- simpl. rewrite !app_nil_r. by destruct acc.
- simpl. rewrite IH. unfold load_catalog. simpl.
  by rewrite <-!app_assoc.
Qed.

Lemma load_columns_catalogs :
load_columns fits_file wcs_world2pix =
Columns
  ((λ cq, tab_xpos <$> tab (cat cq)) <$> ccd_quadrants)
  ((λ cq, tab_ypos <$> tab (cat cq)) <$> ccd_quadrants)
  ((λ cq, fst <$> plane (cat cq)) <$> ccd_quadrants)
  ((λ cq, snd <$> plane (cat cq)) <$> ccd_quadrants)
  ((λ cq, ones (cat cq)) <$> ccd_quadrants)
  ((λ cq, tab_ra <$> tab (cat cq)) <$> ccd_quadrants)
  ((λ cq, tab_dec <$> tab (cat cq)) <$> ccd_quadrants).
Proof.
etrans; [|apply (load_columns_fold ccd_quadrants (Columns [] [] [] [] [] [] []))].
unfold load_columns, ccd_quadrants. rewrite foldl_bind.
apply foldl_pointwise. intros acc ccd. by rewrite foldl_bind.
Qed.

(** The rows of one catalog, column by column. *)
Lemma catalog_rows_zip (rc : Z) (t : list psf_star) :
zip_with (λ r c, FrameRow r c.1 c.2.1 c.2.2.1 c.2.2.2.1
                   c.2.2.2.2.1 c.2.2.2.2.2)
  (int32_of_float <$> ones (Catalog rc t))
  (zip (tab_xpos <$> t) (zip (tab_ypos <$> t)
     (zip (fst <$> plane (Catalog rc t)) (zip (snd <$> plane (Catalog rc t))
        (zip (tab_ra <$> t) (tab_dec <$> t))))))
= catalog_rows wcs_world2pix (Catalog rc t).
Proof.
unfold catalog_rows, plane, ones. simpl.
induction t as [|s t IH]; [done|]. simpl in *. by f_equal.
Qed.

Lemma columns_zip (cs : list catalog) :
let rcid := int32_of_float <$> concat (ones <$> cs) in
let x := concat ((λ c, tab_xpos <$> tab c) <$> cs) in
let y := concat ((λ c, tab_ypos <$> tab c) <$> cs) in
let e := concat ((λ c, fst <$> plane c) <$> cs) in
let n := concat ((λ c, snd <$> plane c) <$> cs) in
let a := concat ((λ c, tab_ra <$> tab c) <$> cs) in
let d := concat ((λ c, tab_dec <$> tab c) <$> cs) in
length x = length rcid ∧ length y = length rcid ∧ length e = length rcid ∧
length n = length rcid ∧ length a = length rcid ∧ length d = length rcid ∧
zip_with (λ r c, FrameRow r c.1 c.2.1 c.2.2.1 c.2.2.2.1
                   c.2.2.2.2.1 c.2.2.2.2.2)
  rcid (zip x (zip y (zip e (zip n (zip a d)))))
= concat (catalog_rows wcs_world2pix <$> cs).
Proof.
cbv zeta. induction cs as [|c cs IH]; [done|].
destruct IH as (Lx & Ly & Le & Ln & La & Ld & IH).
rewrite !fmap_cons. cbn [concat].
rewrite !fmap_app, !length_app, Lx, Ly, Le, Ln, La, Ld.
unfold plane, ones. rewrite ?length_fmap.
do 6 (split; [done|]).
destruct c as [rc t]. cbn [tab header_rcid].
rewrite <-(catalog_rows_zip rc t), <-IH. unfold plane, ones. cbn [tab header_rcid].
rewrite !zip_with_app;
  rewrite ?length_zip_with, ?length_fmap;
  first [lia|done].
Qed.

End LoadProperties.

(** X2: the data frame is never refused, and it is the catalogs put one
    after another in the order of the two loops: each star gives one row
    that holds its own pixel position, its own [ra] and [dec], the plane
    coordinates of that [ra] and [dec], and the [rcid] of the header of its
    catalog turned into a float and then into an [int32]; that is the
    [rcid] of the header itself when it is in the range of [int32], and the
    quadrant of the row as an observation when it is not negative either. *)
Theorem load_rows (fits_file : string → catalog)
    (wcs_world2pix : Qc * Qc → Qc * Qc) :
  load fits_file wcs_world2pix =
    Some (concat ((λ cq, catalog_rows wcs_world2pix (fits_file (psf_url cq.1 cq.2)))
                    <$> ccd_quadrants)) ∧
  ∀ df, load fits_file wcs_world2pix = Some df →
    length df = sum_list ((λ cq, length (tab (fits_file (psf_url cq.1 cq.2))))
                            <$> ccd_quadrants) ∧
    ∀ w, w ∈ df →
      (df_eta w, df_nu w) = wcs_world2pix (df_ra w, df_dec w) ∧
      ∃ cq s, cq ∈ ccd_quadrants ∧ s ∈ tab (fits_file (psf_url cq.1 cq.2)) ∧
        df_rcid w =
          int32_of_float (Qc_of_Z (header_rcid (fits_file (psf_url cq.1 cq.2))) * 1) ∧
        ((- 2 ^ 31 ≤ header_rcid (fits_file (psf_url cq.1 cq.2)) < 2 ^ 31)%Z →
         df_rcid w = header_rcid (fits_file (psf_url cq.1 cq.2))) ∧
        ((0 ≤ header_rcid (fits_file (psf_url cq.1 cq.2)) < 2 ^ 31)%Z →
         Z.of_nat (rcid (observation_of w))
           = header_rcid (fits_file (psf_url cq.1 cq.2))) ∧
        df_x_image w = tab_xpos s ∧ df_y_image w = tab_ypos s ∧
        df_ra w = tab_ra s ∧ df_dec w = tab_dec s.
Proof.
  assert (load fits_file wcs_world2pix =
    Some (concat ((λ cq, catalog_rows wcs_world2pix (fits_file (psf_url cq.1 cq.2)))
                    <$> ccd_quadrants)))
    as Hload.
  { unfold load. rewrite load_columns_catalogs. cbn [rcids xvals yvals etavals
      nuvals ras decs].
    pose proof (columns_zip wcs_world2pix
                  ((λ cq, fits_file (psf_url cq.1 cq.2)) <$> ccd_quadrants)) as H.
    cbv zeta in H.
    rewrite <-!list_fmap_compose in H.
    destruct H as (Lx & Ly & Le & Ln & La & Ld & H).
    unfold data_frame. rewrite decide_True by done.
    f_equal. exact H. }
  split; [exact Hload|]. intros df Hdf. rewrite Hload in Hdf.
  apply (inj Some) in Hdf. subst df.
  split.
  - generalize ccd_quadrants. intros l. induction l as [|cq l IH]; [done|].
    rewrite !fmap_cons. simpl. rewrite length_app, IH.
    unfold catalog_rows. by rewrite length_fmap.
  - intros w Hw. apply elem_of_concat in Hw as (rows & Hw & Hrows).
    apply list_elem_of_fmap in Hrows as (cq & -> & Hcq).
    unfold catalog_rows in Hw. apply list_elem_of_fmap in Hw as (s & -> & Hs).
    cbn [df_eta df_nu df_ra df_dec df_rcid df_x_image df_y_image].
    split; [by destruct (wcs_world2pix _)|].
    exists cq, s. split; [done|]. split; [done|]. split; [done|].
    split; [apply int32_of_float_Z|].
    split; [|done]. intros Hz. unfold observation_of. cbn [rcid df_rcid].
    rewrite int32_of_float_Z by lia. lia.
Qed.

(** X2 on 64 catalogs of one star each, all of readout channel 5, and on
    headers that hold [2^31]. *)
Lemma load_rows_witness :
  (∃ df, load (λ _, Catalog 5 [PsfStar 0 0 1 1]) id = Some df ∧
     length df = 64%nat ∧
     ∀ w, w ∈ df → df_rcid w = 5%Z ∧ rcid (observation_of w) = 5%nat) ∧
  (∃ df, load (λ _, Catalog (2 ^ 31) [PsfStar 0 0 1 1]) id = Some df ∧
     ∀ w, w ∈ df → df_rcid w = (- 2 ^ 31)%Z).
Proof.
  split.
  - destruct (load_rows (λ _, Catalog 5 [PsfStar 0 0 1 1]) id) as [Hload Hrows].
    eexists. split; [exact Hload|].
    destruct (Hrows _ Hload) as [Hlen Hall].
    split; [rewrite Hlen; reflexivity|].
    intros w Hw. destruct (Hall w Hw) as (_ & cq & s & _ & _ & _ & Hz & Hn & _).
    cbn [header_rcid] in Hz, Hn. split; [apply Hz; lia|].
    apply Nat2Z.inj. apply Hn. lia.
  - destruct (load_rows (λ _, Catalog (2 ^ 31) [PsfStar 0 0 1 1]) id)
      as [Hload Hrows].
    eexists. split; [exact Hload|].
    destruct (Hrows _ Hload) as [_ Hall].
    intros w Hw. destruct (Hall w Hw) as (_ & cq & s & _ & _ & -> & _).
    reflexivity.
Defined.

(** ** The printed lines *)

Lemma for_each_app {A} (body : A → list string → list string * option exn)
    (l1 l2 : list A) (out : list string) :
  for_each body (l1 ++ l2) out =
    match for_each body l1 out with
    | (out', Some e) => (out', Some e)
    | (out', None) => for_each body l2 out'
    end.
Proof.
  revert out. induction l1 as [|a l1 IH]; intros out; [done|].
  simpl. destruct (body a out) as [out' [e|]]; [done|]. apply IH.
Qed.

Lemma for_each_pointwise {A} (body body' : A → list string → list string * option exn)
    (l : list A) (out : list string) :
  (∀ a out, body a out = body' a out) → for_each body l out = for_each body' l out.
Proof.
  intros Hb. revert out. induction l as [|a l IH]; intros out; [done|].
  simpl. rewrite Hb. destruct (body' a out) as [out' [e|]]; [done|]. apply IH.
Qed.

(** Two nested loops are one loop over the pairs. *)
Lemma for_each_bind {A B} (body : B → list string → list string * option exn)
    (g : A → list B) (l : list A) (out : list string) :
  for_each body (l ≫= g) out = for_each (λ a, for_each body (g a)) l out.
Proof.
  revert out. induction l as [|a l IH]; intros out; [done|].
  rewrite bind_cons, for_each_app. simpl.
  destruct (for_each body (g a) out) as [out' [e|]]; [done|]. apply IH.
Qed.

Lemma for_each_singleton {A} (body : A → list string → list string * option exn)
    (a : A) (out : list string) :
  for_each body [a] out = body a out.
Proof. simpl. by destruct (body a out) as [out' [e|]]. Qed.

(** A loop whose body never raises prints one line per item. *)
Lemma for_each_total {A} (line : A → result string) (g : A → string)
    (items : list A) (out : list string) :
  (∀ a, a ∈ items → line a = Ok (g a)) →
  for_each (λ a, print_line (line a)) items out = (out ++ (g <$> items), None).
Proof.
  revert out. induction items as [|a items IH]; intros out Hall; simpl.
  - by rewrite app_nil_r.
  - rewrite (Hall a) by apply list_elem_of_here. simpl.
    rewrite IH by (intros b Hb; apply Hall; by apply list_elem_of_further).
    by rewrite <-app_assoc.
Qed.

(** A loop whose body raises at some item stops at the first such item,
    before the lines of the items that follow. *)
Lemma for_each_raises {A} (line : A → result string)
    (items : list A) (out : list string) (a : A) (e : exn) :
  a ∈ items → line a = Raise e →
  ∃ lines e', for_each (λ a, print_line (line a)) items out = (lines, Some e') ∧
    (length lines < length out + length items)%nat ∧
    ∃ b, b ∈ items ∧ line b = Raise e'.
Proof.
  revert out. induction items as [|b items IH]; intros out Ha He.
  - by apply elem_of_nil in Ha.
  - simpl. destruct (line b) as [e1|s] eqn:Hb; simpl.
    + exists out, e1. split; [done|]. split; [lia|].
      exists b. split; [apply list_elem_of_here|done].
    + apply elem_of_cons in Ha as [->|Ha]; [congruence|].
      destruct (IH (out ++ [s]) Ha He) as (lines & e' & Hl & Hlen & c & Hc & Hce).
      exists lines, e'. split; [done|]. split.
      * rewrite length_app in Hlen. simpl in Hlen. lia.
      * exists c. split; [by apply list_elem_of_further|done].
Qed.

(** The loop that prints the linear parameters, over the pairs. *)
Lemma print_wcsdata_pairs fmt_f (tbl : gmap nat quadrant_model) :
  print_wcsdata fmt_f tbl =
    for_each (λ cq, print_line (wcsdata_line fmt_f tbl cq.1 cq.2)) ccdid_qids [].
Proof.
  unfold print_wcsdata, ccdid_qids. rewrite for_each_bind.
  apply for_each_pointwise. intros ccdid out. rewrite for_each_bind.
  apply for_each_pointwise. intros qid out'. by rewrite for_each_singleton.
Qed.

Lemma wcsdata_line_Ok fmt_f (tbl : gmap nat quadrant_model) (ccdid qid : nat)
    (m : quadrant_model) :
  tbl !! ((ccdid - 1) * 4 + qid)%nat = Some m →
  wcsdata_line fmt_f tbl ccdid qid =
    Ok (wcsdata_format fmt_f ccdid qid (cd11 m) (cd12 m) (cd21 m) (cd22 m)
          (crpix1 m) (crpix2 m)).
Proof. intros Hm. unfold wcsdata_line, dict_get. by rewrite Hm. Qed.

Lemma wcsdata_line_missing fmt_f (tbl : gmap nat quadrant_model) (ccdid qid : nat) :
  tbl !! ((ccdid - 1) * 4 + qid)%nat = None →
  wcsdata_line fmt_f tbl ccdid qid = Raise KeyError.
Proof. intros Hm. unfold wcsdata_line, dict_get. by rewrite Hm. Qed.

(** The two loops visit every quadrant once: quadrant [k] at the place
    [wcsdata_position k], as the pair [(k / 4 + 1, k mod 4)]. *)
Lemma ccdid_qids_position (k : nat) :
  (k < 64)%nat →
  ccdid_qids !! wcsdata_position k = Some (k / 4 + 1, k `mod` 4)%nat.
Proof.
  intros Hk.
  assert (Forall (λ k, ccdid_qids !! wcsdata_position k
                       = Some (k / 4 + 1, k `mod` 4)%nat) (seq 0 64)) as H.
  { apply (bool_decide_unpack _). by vm_compute. }
  rewrite Forall_forall in H. apply H, elem_of_seq. lia.
Qed.

Lemma ccdid_qids_keys (cq : nat * nat) :
  cq ∈ ccdid_qids → ((cq.1 - 1) * 4 + cq.2 < 64)%nat.
Proof.
  assert (Forall (λ cq : nat * nat, ((cq.1 - 1) * 4 + cq.2 < 64)%nat) ccdid_qids)
    as H.
  { apply (bool_decide_unpack _). by vm_compute. }
  rewrite Forall_forall in H. apply H.
Qed.

Lemma ccdid_qids_covers (k : nat) :
  (k < 64)%nat → ∃ cq, cq ∈ ccdid_qids ∧ ((cq.1 - 1) * 4 + cq.2)%nat = k.
Proof.
  intros Hk. exists (k / 4 + 1, k `mod` 4)%nat. split.
  - eapply list_elem_of_lookup_2, ccdid_qids_position. done.
  - cbn [fst snd]. rewrite Nat.add_sub, Nat.mul_comm. symmetry. apply Nat.div_mod_eq.
Qed.

Lemma wcsdata_position_inj (k k' : nat) :
  (k < 64)%nat → (k' < 64)%nat →
  wcsdata_position k = wcsdata_position k' → k = k'.
Proof.
  intros Hk Hk' Heq.
  pose proof (ccdid_qids_position k Hk) as H1.
  pose proof (ccdid_qids_position k' Hk') as H2.
  rewrite Heq, H2 in H1. apply (inj Some), pair_equal_spec in H1 as [Hd Hm].
  pose proof (Nat.div_mod_eq k 4) as E1. pose proof (Nat.div_mod_eq k' 4) as E2.
  rewrite E1, E2. assert (k / 4 = k' / 4)%nat as -> by lia. by rewrite Hm.
Qed.

(** X14: with an entry for each of the 64 quadrants, the loop that prints
    the linear parameters prints 64 lines and raises nothing; every
    quadrant [k] has exactly one line, at the place [wcsdata_position k],
    made of the CCD number [k / 4 + 1], the quadrant number [k mod 4] and the
    six values of [rcmeta[k]]. *)
Theorem print_wcsdata_complete (fmt_f : nat → nat → Qc → string)
    (tbl : gmap nat quadrant_model) :
  (∀ i, (i < 64)%nat → is_Some (tbl !! i)) →
  ∃ lines, print_wcsdata fmt_f tbl = (lines, None) ∧ length lines = 64%nat ∧
    ∀ k m, (k < 64)%nat → tbl !! k = Some m →
      (wcsdata_position k < 64)%nat ∧
      lines !! wcsdata_position k =
        Some (wcsdata_format fmt_f (k / 4 + 1) (k `mod` 4)
                (cd11 m) (cd12 m) (cd21 m) (cd22 m) (crpix1 m) (crpix2 m)) ∧
      ∀ k', (k' < 64)%nat → wcsdata_position k' = wcsdata_position k → k' = k.
Proof.
  intros Hall.
  set (g := λ cq : nat * nat,
    match tbl !! ((cq.1 - 1) * 4 + cq.2)%nat with
    | Some m => wcsdata_format fmt_f cq.1 cq.2 (cd11 m) (cd12 m) (cd21 m)
                  (cd22 m) (crpix1 m) (crpix2 m)
    | None => EmptyString
    end).
  exists (g <$> ccdid_qids). split.
  { rewrite print_wcsdata_pairs.
    rewrite (for_each_total (λ cq, wcsdata_line fmt_f tbl cq.1 cq.2) g); [done|].
    intros cq Hcq. destruct (Hall _ (ccdid_qids_keys cq Hcq)) as [m Hm].
    unfold g. rewrite Hm. by apply wcsdata_line_Ok. }
  split; [by rewrite length_fmap|].
  intros k m Hk Hm.
  pose proof (ccdid_qids_position k Hk) as Hpos.
  split. { apply lookup_lt_Some in Hpos. exact Hpos. }
  split.
  - rewrite list_lookup_fmap, Hpos. cbn [fmap option_fmap option_map].
    unfold g. cbn [fst snd].
    replace ((k / 4 + 1 - 1) * 4 + k `mod` 4)%nat with k; [by rewrite Hm|].
    rewrite Nat.add_sub, Nat.mul_comm. apply Nat.div_mod_eq.
  - intros k' Hk' Heq. by apply wcsdata_position_inj.
Qed.

(** X14 on the table of the demonstration data. *)
Lemma print_wcsdata_complete_witness :
  ∃ lines, print_wcsdata (λ _ _ _, "0") (exact_table demo_known) = (lines, None) ∧
    length lines = 64%nat ∧
    ∀ k m, (k < 64)%nat → exact_table demo_known !! k = Some m →
      (wcsdata_position k < 64)%nat ∧
      lines !! wcsdata_position k =
        Some (wcsdata_format (λ _ _ _, "0") (k / 4 + 1) (k `mod` 4)
                (cd11 m) (cd12 m) (cd21 m) (cd22 m) (crpix1 m) (crpix2 m)) ∧
      ∀ k', (k' < 64)%nat → wcsdata_position k' = wcsdata_position k → k' = k.
Proof.
  apply (print_wcsdata_complete (λ _ _ _, "0") (exact_table demo_known)).
  intros i Hi. rewrite exact_table_lookup by done. eauto.
Defined.

(** X15: when [rcmeta] lacks one of the 64 quadrants, the loop that prints
    the linear parameters raises [KeyError] before it has printed 64 lines,
    at a quadrant that is not in the table. *)
Theorem print_wcsdata_missing (fmt_f : nat → nat → Qc → string)
    (tbl : gmap nat quadrant_model) (k : nat) :
  (k < 64)%nat → tbl !! k = None →
  ∃ lines, print_wcsdata fmt_f tbl = (lines, Some KeyError) ∧
    (length lines < 64)%nat ∧
    ∃ ccdid qid, (ccdid, qid) ∈ ccdid_qids ∧
      tbl !! ((ccdid - 1) * 4 + qid)%nat = None ∧
      wcsdata_line fmt_f tbl ccdid qid = Raise KeyError.
Proof.
  intros Hk Hnone. destruct (ccdid_qids_covers k Hk) as (cq & Hcq & Hkey).
  rewrite print_wcsdata_pairs.
  destruct (for_each_raises (λ cq, wcsdata_line fmt_f tbl cq.1 cq.2)
              ccdid_qids [] cq KeyError Hcq)
    as (lines & e' & Hl & Hlen & [c q] & Hb & Hbe).
  { apply wcsdata_line_missing. by rewrite Hkey. }
  simpl in Hbe.
  assert (tbl !! ((c - 1) * 4 + q)%nat = None ∧ e' = KeyError) as [Hc ->].
  { destruct (tbl !! ((c - 1) * 4 + q)%nat) as [m|] eqn:Hm.
    - rewrite (wcsdata_line_Ok _ _ _ _ m Hm) in Hbe. discriminate.
    - rewrite (wcsdata_line_missing _ _ _ _ Hm) in Hbe. by injection Hbe as <-. }
  exists lines. split; [done|]. split; [exact Hlen|].
  exists c, q. split; [done|]. split; [done|]. by apply wcsdata_line_missing.
Qed.

(** X15 on the table of the demonstration data without quadrant 5. *)
Lemma print_wcsdata_missing_witness :
  ∃ lines, print_wcsdata (λ _ _ _, "0") (delete 5%nat (exact_table demo_known))
             = (lines, Some KeyError) ∧
    (length lines < 64)%nat ∧
    ∃ ccdid qid, (ccdid, qid) ∈ ccdid_qids ∧
      delete 5%nat (exact_table demo_known) !! ((ccdid - 1) * 4 + qid)%nat = None ∧
      wcsdata_line (λ _ _ _, "0") (delete 5%nat (exact_table demo_known)) ccdid qid
        = Raise KeyError.
Proof.
  apply (print_wcsdata_missing (λ _ _ _, "0")
           (delete 5%nat (exact_table demo_known)) 5); [lia|].
  apply lookup_delete_eq.
Defined.

(** X16: a printed line names its quadrant: two lines that agree were made
    for the same CCD number and the same quadrant number, whatever the six
    values and however the floats are rendered. *)
Theorem wcsdata_line_names_quadrant (fmt_f : nat → nat → Qc → string)
    (ccdid qid ccdid' qid' : nat) (a b c d p1 p2 a' b' c' d' p1' p2' : Qc) :
  wcsdata_format fmt_f ccdid qid a b c d p1 p2 =
    wcsdata_format fmt_f ccdid' qid' a' b' c' d' p1' p2' →
  ccdid = ccdid' ∧ qid = qid'.
Proof.
  unfold wcsdata_format. intros H. do 2 apply (inj _) in H.
  assert (∀ n : nat, ∃ ch t, pretty n = String ch t ∧ is_digit ch = true) as Hhead.
  { intros n. destruct (pretty_nonempty n) as (ch & t & Hn).
    exists ch, t. split; [done|].
    pose proof (digits_pretty n) as Hd. rewrite Hn in Hd. simpl in Hd.
    by apply andb_prop in Hd as [? _]. }
  assert (pretty ccdid +:+ String " " (" " +:+ fmt_d qid +:+ "  " +:+
            fmt_f 13 10 a +:+ " " +:+ fmt_f 13 10 b +:+ " " +:+
            fmt_f 13 10 c +:+ " " +:+ fmt_f 13 10 d +:+ " " +:+
            fmt_f 10 3 p1 +:+ " " +:+ fmt_f 10 3 p2 +:+ " 0.0" +:+ dquote) =
          pretty ccdid' +:+ String " " (" " +:+ fmt_d qid' +:+ "  " +:+
            fmt_f 13 10 a' +:+ " " +:+ fmt_f 13 10 b' +:+ " " +:+
            fmt_f 13 10 c' +:+ " " +:+ fmt_f 13 10 d' +:+ " " +:+
            fmt_f 10 3 p1' +:+ " " +:+ fmt_f 10 3 p2' +:+ " 0.0" +:+ dquote))
    as H'.
  { unfold fmt_2d in H.
    destruct (decide (ccdid < 10)%nat), (decide (ccdid' < 10)%nat).
    - rewrite !string_app_cons in H. by injection H as H.
    - exfalso. destruct (Hhead ccdid') as (ch & t & Hn & Hd).
      rewrite Hn, !string_app_cons in H. injection H as <- _. done.
    - exfalso. destruct (Hhead ccdid) as (ch & t & Hn & Hd).
      rewrite Hn, !string_app_cons in H. injection H as -> _. done.
    - exact H. }
  apply digits_delimited in H' as (Hc & _ & H');
    [|apply digits_pretty|apply digits_pretty|done|done].
  apply (inj pretty) in Hc. split; [done|].
  apply (inj _) in H'. unfold fmt_d in H'.
  change ("  " +:+ ?s) with (String " " (" " +:+ s)) in H'.
  apply digits_delimited in H' as (Hq & _ & _);
    [|apply digits_pretty|apply digits_pretty|done|done].
  by apply (inj pretty) in Hq.
Qed.

(** X16 on two lines of quadrant 2 of CCD 1 with different values that a
    coarse rendering prints alike. *)
Lemma wcsdata_line_names_quadrant_witness :
  wcsdata_format (λ _ _ _, "0") 1 2 0 0 0 0 0 0 =
    wcsdata_format (λ _ _ _, "0") 1 2 1 1 1 1 1 1 ∧
  1%nat = 1%nat ∧ 2%nat = 2%nat.
Proof.
  split; [reflexivity|].
  apply (wcsdata_line_names_quadrant (λ _ _ _, "0") 1 2 1 2
           0 0 0 0 0 0 1 1 1 1 1 1).
  reflexivity.
Defined.

(** X13: the loop that prints [pv_start] prints its ten entries in the
    order of the keys, which is the order in which the dictionary and the
    header list them, each key with its own value, and raises nothing. *)
Theorem print_pv_order (fmt_repr : Qc → string) (xres yres : Series)
    (pv : gmap string Qc) :
  pv_start xres yres = Ok pv →
  print_pv fmt_repr pv =
    ((λ k, k +:+ ": " +:+ fmt_repr (coef pv k)) <$> pv_keys, None).
Proof.
  unfold pv_start. intros H.
  repeat (apply bind_Ok in H as (? & _ & H)).
  injection H as <-. reflexivity.
Qed.

(** X13 on the sample coefficients. *)
Lemma print_pv_order_witness :
  ∃ pv, pv_start sample_res sample_res = Ok pv ∧
    print_pv (λ _, "0") pv =
      ((λ k, k +:+ ": " +:+ (λ _, "0") (coef pv k)) <$> pv_keys, None).
Proof.
  eexists. split; [reflexivity|].
  apply (print_pv_order (λ _, "0") sample_res sample_res). reflexivity.
Defined.

(** ** What a run is determined by *)

Lemma fit_lookup {R} (cols : list (string * (R → Qc))) (resp : R → Qc)
    (rows : list R) (p : Series) (l : string) :
  ols_fit cols resp rows p → l ∈ cols.*1 → p !! l = Some (coef p l).
Proof.
  intros [Hd _] Hl. apply lookup_coef. rewrite Hd. by apply elem_of_list_to_set.
Qed.

(** Two least-squares solutions over a design of full rank are the same
    vector. *)
Lemma full_rank_fit_unique {R} (cols : list (string * (R → Qc))) (resp : R → Qc)
    (rows : list R) (p q : Series) :
  full_rank cols rows → ols_fit cols resp rows p → ols_fit cols resp rows q →
  p = q.
Proof.
  intros Hfull Hp Hq. apply map_eq. intros l.
  destruct (decide (l ∈ cols.*1)) as [Hl|Hl].
  - rewrite (fit_lookup cols resp rows p l Hp Hl),
      (fit_lookup cols resp rows q l Hq Hl). f_equal.
    apply (Hfull p q); [|done]. by apply (ols_fit_fitted_unique cols resp).
  - destruct Hp as [Hdp _], Hq as [Hdq _].
    transitivity (@None Qc); [|symmetry]; apply not_elem_of_dom;
      rewrite ?Hdp, ?Hdq, elem_of_list_to_set; done.
Qed.

(** The loop of [rcmeta] reads a fit through its offsets and slopes. *)
Lemma rcmeta_entry_ext (df df' : list observation) (px py px' py' : Series) (i : nat) :
  dom px = list_to_set (linear_columns (levels df)).*1 →
  dom py = list_to_set (linear_columns (levels df)).*1 →
  dom px' = list_to_set (linear_columns (levels df')).*1 →
  dom py' = list_to_set (linear_columns (levels df')).*1 →
  0%nat ∈ levels df → i ∈ levels df →
  0%nat ∈ levels df' → i ∈ levels df' →
  offset_of px i = offset_of px' i → slope_x_of px i = slope_x_of px' i →
  slope_y_of px i = slope_y_of px' i →
  offset_of py i = offset_of py' i → slope_x_of py i = slope_x_of py' i →
  slope_y_of py i = slope_y_of py' i →
  rcmeta_entry px py i = rcmeta_entry px' py' i.
Proof.
  intros Hdx Hdy Hdx' Hdy' H0 Hi H0' Hi' E1 E2 E3 E4 E5 E6.
  destruct (quadrant_cd_fit df px py i Hdx Hdy H0 Hi) as (Hcd & Hox & Hoy).
  destruct (quadrant_cd_fit df' px' py' i Hdx' Hdy' H0' Hi') as (Hcd' & Hox' & Hoy').
  unfold rcmeta_entry.
  by rewrite Hcd, Hcd', Hox, Hoy, Hox', Hoy', E1, E2, E3, E4, E5, E6.
Qed.

Lemma rcmeta_loop_ext (px py px' py' : Series) (ids : list nat)
    (acc : gmap nat quadrant_model) :
  (∀ i, i ∈ ids → rcmeta_entry px py i = rcmeta_entry px' py' i) →
  rcmeta_loop px py ids acc = rcmeta_loop px' py' ids acc.
Proof.
  revert acc. induction ids as [|i ids IH]; intros acc Hall; [done|].
  simpl. rewrite <-(Hall i) by apply list_elem_of_here.
  destruct (rcmeta_entry px py i); [done|].
  apply IH. intros j Hj. apply Hall. by apply list_elem_of_further.
Qed.

(** *** Data whose fits are not unique *)

Lemma lone_demo_rows (o : observation) : o ∈ demo_df → o ∈ lone_df.
Proof. intros Ho. unfold lone_df. apply elem_of_app. by left. Qed.

Lemma lone_zero_level : 0%nat ∈ levels lone_df.
Proof.
  apply elem_of_levels. exists (star_of demo_known 0 0 0). split; [|done].
  apply lone_demo_rows, elem_of_synthetic. exists 0%nat. split; [lia|auto].
Qed.

Lemma lone_level : 70%nat ∈ levels lone_df.
Proof.
  apply elem_of_levels. exists (star_of demo_known 70 0 0). split; [|done].
  unfold lone_df. apply elem_of_app. right. apply list_elem_of_here.
Qed.

Lemma lone_three_stars (i : nat) : (i < 64)%nat → three_stars lone_df i.
Proof.
  intros Hi.
  destruct (demo_three_stars i Hi) as (o1 & o2 & o3 & H1 & H2 & H3 & Hrest).
  exists o1, o2, o3. repeat split; try apply lone_demo_rows; tauto.
Qed.

Lemma lone_generated : Forall (generated_by demo_known) lone_df.
Proof.
  apply Forall_app. split; [apply synthetic_generated|].
  apply Forall_singleton. by split.
Qed.

Lemma lone_generated' : Forall (generated_by lone_known) lone_df.
Proof.
  apply Forall_app. split.
  - apply Forall_forall. intros o Ho.
    apply elem_of_synthetic in Ho as (i & Hi & Ho).
    assert (lone_known i = demo_known i) as Hk.
    { unfold lone_known. destruct (decide (i = 70%nat)); [lia|done]. }
    destruct Ho as [-> | [-> | ->]]; unfold generated_by; simpl; by rewrite Hk.
  - apply Forall_singleton. split; simpl; ring.
Qed.

Lemma lone_det (i : nat) :
  det (a11 (lone_known i)) (a12 (lone_known i)) (a21 (lone_known i))
      (a22 (lone_known i)) ≠ 0.
Proof.
  unfold lone_known. destruct (decide (i = 70%nat)); [|apply demo_det].
  apply not_eq_sym, Qclt_not_eq. reflexivity.
Qed.

Lemma lone_notebook : notebook 0 0 lone_df lone_run.
Proof.
  apply exact_notebook; [apply lone_generated|apply lone_three_stars|].
  intros i _. apply demo_det.
Qed.

Lemma lone_notebook' : notebook 0 0 lone_df lone_run'.
Proof.
  apply exact_notebook; [apply lone_generated'|apply lone_three_stars|].
  intros i _. apply lone_det.
Qed.

(** The two runs on [lone_df] rest on different linear fits. *)
Lemma lone_fits_differ : linear_xres lone_run' ≠ linear_xres lone_run.
Proof.
  unfold lone_run, lone_run', exact_run. simpl. intros H.
  destruct (exact_series_model lone_df (λ i, t1 (lone_known i))
              (λ i, a11 (lone_known i)) (λ i, a12 (lone_known i)) 70
              lone_zero_level lone_level) as (_ & E & _).
  destruct (exact_series_model lone_df (λ i, t1 (demo_known i))
              (λ i, a11 (demo_known i)) (λ i, a12 (demo_known i)) 70
              lone_zero_level lone_level) as (_ & E' & _).
  unfold exact_xres in H. rewrite H, E' in E.
  revert E. apply Qclt_not_eq. reflexivity.
Qed.

Lemma lone_has_point i x y e n :
  (i < 64)%nat → (x = 0 ∧ y = 0 ∨ x = 1 ∧ y = 0 ∨ x = 0 ∧ y = 1) →
  qnat i + (1 + 1) * x = e → qnat i + y = n →
  has_point (run_df lone_run) e n.
Proof.
  intros Hi Hxy <- <-.
  assert (star_of demo_known i x y ∈ lone_df) as Hin.
  { apply lone_demo_rows, elem_of_synthetic. exists i. split; [done|].
    destruct Hxy as [[-> ->]|[[-> ->]|[-> ->]]]; auto. }
  exists (assemble_spec (exact_table demo_known) (star_of demo_known i x y)).
  split; [by apply list_elem_of_fmap_2|].
  destruct (exact_rows demo_known (star_of demo_known i x y)) as (_ & -> & ->).
  - by split.
  - intros j _. apply demo_det.
  - simpl. split; ring.
Qed.

Lemma lone_full_rank : full_rank quadratic_columns (run_df lone_run).
Proof.
  apply six_points_full_rank.
  - apply (lone_has_point 0 0 0); [lia|auto|simpl; ring..].
  - apply (lone_has_point 0 1 0); [lia|auto|simpl; ring..].
  - apply (lone_has_point 0 0 1); [lia|auto|simpl; ring..].
  - apply (lone_has_point 1 0 0); [lia|auto|simpl; ring..].
  - apply (lone_has_point 1 1 0); [lia|auto|simpl; ring..].
  - apply (lone_has_point 1 0 1); [lia|auto|simpl; ring..].
Qed.

(** X4: with three stars that are not on one line in each of the 64
    quadrants, the loop of [rcmeta] ends in the same way, with the same
    table or the same exception, for every least-squares solution that the
    two linear fits may return. *)
Theorem rcmeta_well_defined (df : list observation) (px py px' py' : Series) :
  (∀ i, (i < 64)%nat → three_stars df i) →
  ols_fit (linear_columns (levels df)) eta df px →
  ols_fit (linear_columns (levels df)) nu df py →
  ols_fit (linear_columns (levels df)) eta df px' →
  ols_fit (linear_columns (levels df)) nu df py' →
  rcmeta px' py' = rcmeta px py.
Proof.
  intros H3 Hx Hy Hx' Hy'.
  assert (∀ i, (i < 64)%nat → i ∈ levels df) as Hlv.
  { intros i Hi. destruct (H3 i Hi) as (o & _ & _ & Ho & _ & _ & Hr & _).
    apply elem_of_levels. eauto. }
  unfold rcmeta. apply rcmeta_loop_ext. intros i Hi%elem_of_seq.
  assert (i < 64)%nat as Hlt by lia.
  destruct (three_stars_fix_quadrant df px' px i) as (E1 & E2 & E3);
    [apply Hlv; lia|by apply H3|by apply (ols_fit_fitted_unique _ eta)|].
  destruct (three_stars_fix_quadrant df py' py i) as (E4 & E5 & E6);
    [apply Hlv; lia|by apply H3|by apply (ols_fit_fitted_unique _ nu)|].
  apply (rcmeta_entry_ext df df); try done;
    try (apply Hlv; lia); by (apply Hx || apply Hy || apply Hx' || apply Hy').
Qed.

(** X4 on [lone_df], where the lone star of quadrant 70 leaves room for
    different least-squares solutions. *)
Lemma rcmeta_well_defined_witness :
  linear_xres lone_run' ≠ linear_xres lone_run ∧
  rcmeta (linear_xres lone_run') (linear_yres lone_run')
  = rcmeta (linear_xres lone_run) (linear_yres lone_run).
Proof.
  split; [apply lone_fits_differ|].
  destruct lone_notebook as (Hx & Hy & _).
  destruct lone_notebook' as (Hx' & Hy' & _).
  apply (rcmeta_well_defined lone_df _ _ _ _ lone_three_stars Hx Hy Hx' Hy').
Defined.

Lemma pv_start_ext (xres yres xres' yres' : Series) :
  (∀ l, l ∈ quadratic_columns.*1 → xres !! l = xres' !! l) →
  (∀ l, l ∈ quadratic_columns.*1 → yres !! l = yres' !! l) →
  pv_start xres yres = pv_start xres' yres'.
Proof.
  intros Hx Hy. unfold pv_start.
  rewrite !(Hx "etalin"), !(Hx "nulin"), !(Hx "np.power(etalin, 2)"),
    !(Hx "etalin:nulin"), !(Hx "np.power(nulin, 2)") by in_list.
  by rewrite !(Hy "etalin"), !(Hy "nulin"), !(Hy "np.power(etalin, 2)"),
    !(Hy "etalin:nulin"), !(Hy "np.power(nulin, 2)") by in_list.
Qed.

(** X19: the result of the notebook is a function of the data.  With three
    stars that are not on one line in each of the 64 quadrants and a
    distortion design of full rank, any two runs on the same data frame end
    with the same table [rcmeta], the same global and linearized
    coordinates, the same distortion fits, the same [pv_start] and the same
    header, whichever least-squares solutions the fits return. *)
Theorem notebook_deterministic (TELRAD TELDECD : Qc) (df : list observation)
    (r r' : run) :
  (∀ i, (i < 64)%nat → three_stars df i) →
  full_rank quadratic_columns (run_df r) →
  notebook TELRAD TELDECD df r →
  notebook TELRAD TELDECD df r' →
  run_rcmeta r' = run_rcmeta r ∧ run_df r' = run_df r ∧
  xres r' = xres r ∧ yres r' = yres r ∧
  run_pv r' = run_pv r ∧ run_header r' = run_header r.
Proof.
  intros H3 Hfull Hr Hr'.
  assert (∀ i, (i < 64)%nat → i ∈ levels df) as Hlv.
  { intros i Hi. by eapply notebook_level. }
  assert (run_rcmeta r' = run_rcmeta r) as Htbl.
  { destruct Hr as (Hx & Hy & Ht & _), Hr' as (Hx' & Hy' & Ht' & _).
    assert (rcmeta (linear_xres r') (linear_yres r')
            = rcmeta (linear_xres r) (linear_yres r)) as Heq.
    { unfold rcmeta. apply rcmeta_loop_ext. intros i Hi%elem_of_seq.
      assert (i < 64)%nat as Hlt by lia.
      destruct (three_stars_fix_quadrant df (linear_xres r') (linear_xres r) i)
        as (E1 & E2 & E3);
        [apply Hlv; lia|by apply H3|by apply (ols_fit_fitted_unique _ eta)|].
      destruct (three_stars_fix_quadrant df (linear_yres r') (linear_yres r) i)
        as (E4 & E5 & E6);
        [apply Hlv; lia|by apply H3|by apply (ols_fit_fitted_unique _ nu)|].
      apply (rcmeta_entry_ext df df); try done;
        try (apply Hlv; lia);
        by (apply Hx || apply Hy || apply Hx' || apply Hy'). }
    rewrite Ht, Ht' in Heq. by injection Heq. }
  assert (run_df r' = run_df r) as Hdf.
  { by rewrite (notebook_rows _ _ _ _ Hr), (notebook_rows _ _ _ _ Hr'), Htbl. }
  destruct Hr as (_ & _ & _ & _ & Hqx & Hqy & Hpv & Hh).
  destruct Hr' as (_ & _ & _ & _ & Hqx' & Hqy' & Hpv' & Hh').
  rewrite Hdf in Hqx', Hqy'.
  assert (xres r' = xres r) as Ex by (by eapply full_rank_fit_unique).
  assert (yres r' = yres r) as Ey by (by eapply full_rank_fit_unique).
  assert (run_pv r' = run_pv r) as Epv.
  { rewrite Ex, Ey, Hpv in Hpv'. by injection Hpv'. }
  do 4 (split; [done|]). split; [done|].
  rewrite Htbl, Epv, Hh in Hh'. by injection Hh'.
Qed.

(** X19 on [lone_df] and its two runs, which rest on different linear
    fits. *)
Lemma notebook_deterministic_witness :
  linear_xres lone_run' ≠ linear_xres lone_run ∧
  run_rcmeta lone_run' = run_rcmeta lone_run ∧ run_df lone_run' = run_df lone_run ∧
  xres lone_run' = xres lone_run ∧ yres lone_run' = yres lone_run ∧
  run_pv lone_run' = run_pv lone_run ∧ run_header lone_run' = run_header lone_run.
Proof.
  split; [apply lone_fits_differ|].
  apply (notebook_deterministic 0 0 lone_df lone_run lone_run'
           lone_three_stars lone_full_rank lone_notebook lone_notebook').
Defined.

(** X11: on noise-free data of a known regular transform per quadrant the
    linear model leaves nothing to the distortion fit: the linearized
    coordinates are the projected ones, both distortion fits reproduce
    them, and with a design of full rank [pv_start] is the identity
    ([PV1_1 = PV2_1 = 1], every other coefficient 0). *)
Theorem exact_data_identity_distortion (known : nat → affine)
    (df : list observation) (TELRAD TELDECD : Qc) (r : run) :
  Forall (generated_by known) df →
  (∀ i, (i < 64)%nat → three_stars df i) →
  (∀ i, (i < 64)%nat →
     det (a11 (known i)) (a12 (known i)) (a21 (known i)) (a22 (known i)) ≠ 0) →
  notebook TELRAD TELDECD df r →
  (∀ w, w ∈ run_df r →
     etalin w = eta (obs w) ∧ nulin w = nu (obs w) ∧
     predict quadratic_columns (xres r) w = eta (obs w) ∧
     predict quadratic_columns (yres r) w = nu (obs w)) ∧
  (full_rank quadratic_columns (run_df r) → run_pv r = identity_pv).
Proof.
  intros Hgen H3 Hdet Hr.
  pose proof (generated_table known df _ _ r Hgen H3 Hdet Hr) as Htbl.
  pose proof (notebook_rows _ _ _ _ Hr) as Hrows. rewrite Htbl in Hrows.
  destruct Hr as (_ & _ & _ & _ & Hqx & Hqy & Hpv & _).
  rewrite Forall_forall in Hgen.
  assert (∀ w, w ∈ run_df r → etalin w = eta (obs w) ∧ nulin w = nu (obs w))
    as Hlin.
  { intros w Hw. rewrite Hrows in Hw.
    apply list_elem_of_fmap in Hw as (o & -> & Ho).
    destruct (exact_rows known o (Hgen o Ho) Hdet) as (-> & -> & ->). done. }
  assert (ols_fit quadratic_columns (λ w, eta (obs w)) (run_df r) identity_xres)
    as Hix.
  { apply exact_fit_is_ols; [reflexivity|]. intros w Hw.
    rewrite identity_xres_predict. symmetry. by apply Hlin. }
  assert (ols_fit quadratic_columns (λ w, nu (obs w)) (run_df r) identity_yres)
    as Hiy.
  { apply exact_fit_is_ols; [reflexivity|]. intros w Hw.
    rewrite identity_yres_predict. symmetry. by apply Hlin. }
  split.
  - intros w Hw. destruct (Hlin w Hw) as [E1 E2]. do 2 (split; [done|]). split.
    + rewrite (ols_fit_fitted_unique _ _ _ _ _ Hqx Hix w Hw).
      by rewrite identity_xres_predict.
    + rewrite (ols_fit_fitted_unique _ _ _ _ _ Hqy Hiy w Hw).
      by rewrite identity_yres_predict.
  - intros Hfull.
    rewrite (full_rank_fit_unique _ _ _ _ _ Hfull Hqx Hix),
      (full_rank_fit_unique _ _ _ _ _ Hfull Hqy Hiy) in Hpv.
    change (pv_start identity_xres identity_yres) with (Ok identity_pv) in Hpv.
    by injection Hpv.
Qed.

(** X11 on the demonstration data. *)
Lemma exact_data_identity_distortion_witness :
  (∀ w, w ∈ run_df demo_run →
     etalin w = eta (obs w) ∧ nulin w = nu (obs w) ∧
     predict quadratic_columns (xres demo_run) w = eta (obs w) ∧
     predict quadratic_columns (yres demo_run) w = nu (obs w)) ∧
  (full_rank quadratic_columns (run_df demo_run) → run_pv demo_run = identity_pv).
Proof.
  apply (exact_data_identity_distortion demo_known demo_df 0 0 demo_run
           (synthetic_generated _ _) demo_three_stars (λ i _, demo_det i)
           demo_notebook).
Defined.

(** ** The order of the rows *)

Lemma ssr_Permutation {R} (cols : list (string * (R → Qc))) (resp : R → Qc)
    (df df' : list R) (p : Series) :
  df ≡ₚ df' → ssr cols resp df p = ssr cols resp df' p.
Proof.
  induction 1 as [|r l l' _ IH|r r' l|l l' l'' _ IH1 _ IH2].
  - done.
  - by rewrite !ssr_cons, IH.
  - rewrite !ssr_cons. ring.
  - by rewrite IH1.
Qed.

Lemma ols_fit_Permutation {R} (cols : list (string * (R → Qc))) (resp : R → Qc)
    (df df' : list R) (p : Series) :
  df ≡ₚ df' → ols_fit cols resp df p → ols_fit cols resp df' p.
Proof.
  intros Hp [Hd Hmin]. split; [done|]. intros p' Hd'.
  rewrite <-!(ssr_Permutation cols resp df df') by done. by apply Hmin.
Qed.

Lemma levels_Permutation_eq (df df' : list observation) :
  df ≡ₚ df' → levels df' = levels df.
Proof.
  intros Hp. apply (StronglySorted_unique (≤)%nat);
    [apply levels_sorted|apply levels_sorted|].
  apply NoDup_Permutation; [apply NoDup_levels|apply NoDup_levels|].
  intros i. rewrite !elem_of_levels. by setoid_rewrite Hp.
Qed.

(** X20: the order of the rows of the data frame, that is the order in
    which the catalogs are read, does not matter: a run on the rows in
    another order exists with the same fits, the same table [rcmeta], the
    same [pv_start] and the same header, and its rows are those of the
    first run in the other order. *)
Theorem row_order_does_not_matter (TELRAD TELDECD : Qc)
    (df df' : list observation) (r : run) :
  df ≡ₚ df' →
  notebook TELRAD TELDECD df r →
  ∃ r', notebook TELRAD TELDECD df' r' ∧
    linear_xres r' = linear_xres r ∧ linear_yres r' = linear_yres r ∧
    run_rcmeta r' = run_rcmeta r ∧
    run_df r' = assemble_spec (run_rcmeta r) <$> df' ∧ run_df r' ≡ₚ run_df r ∧
    xres r' = xres r ∧ yres r' = yres r ∧
    run_pv r' = run_pv r ∧ run_header r' = run_header r.
Proof.
  intros Hp Hr.
  pose proof (notebook_rows _ _ _ _ Hr) as Hrows.
  assert (∀ i, (i < 64)%nat → is_Some (run_rcmeta r !! i)) as Hall.
  { intros i Hi. destruct (notebook_table _ _ _ _ i Hr Hi) as (m & -> & _). eauto. }
  destruct Hr as (Hx & Hy & Ht & _ & Hqx & Hqy & Hpv & Hh).
  assert (assemble_spec (run_rcmeta r) <$> df' ≡ₚ run_df r) as Hprows.
  { rewrite Hrows. by apply fmap_Permutation. }
  exists (Run (linear_xres r) (linear_yres r) (run_rcmeta r)
            (assemble_spec (run_rcmeta r) <$> df')
            (xres r) (yres r) (run_pv r) (run_header r)).
  split; [|by repeat split].
  unfold notebook. cbn [linear_xres linear_yres run_rcmeta run_df xres yres
    run_pv run_header].
  rewrite (levels_Permutation_eq df df' Hp).
  split; [by apply (ols_fit_Permutation _ _ df)|].
  split; [by apply (ols_fit_Permutation _ _ df)|].
  split; [done|]. split; [by apply assemble_complete|].
  split; [by apply (ols_fit_Permutation _ _ (run_df r))|].
  split; [by apply (ols_fit_Permutation _ _ (run_df r))|].
  done.
Qed.

(** X20 on the demonstration data read backwards. *)
Lemma row_order_does_not_matter_witness :
  ∃ r', notebook 0 0 (reverse demo_df) r' ∧
    linear_xres r' = linear_xres demo_run ∧ linear_yres r' = linear_yres demo_run ∧
    run_rcmeta r' = run_rcmeta demo_run ∧
    run_df r' = assemble_spec (run_rcmeta demo_run) <$> reverse demo_df ∧
    run_df r' ≡ₚ run_df demo_run ∧
    xres r' = xres demo_run ∧ yres r' = yres demo_run ∧
    run_pv r' = run_pv demo_run ∧ run_header r' = run_header demo_run.
Proof.
  apply (row_order_does_not_matter 0 0 demo_df (reverse demo_df) demo_run);
    [|apply demo_notebook].
  symmetry. apply reverse_Permutation.
Defined.

(** ** The pooled fit, quadrant by quadrant *)

Lemma ssr_Qc_sum {R} (cols : list (string * (R → Qc))) (resp : R → Qc)
    (df : list R) (p : Series) :
  ssr cols resp df p =
    Qc_sum ((λ r, (resp r - predict cols p r) * (resp r - predict cols p r)) <$> df).
Proof.
  induction df as [|r df IH]; [done|].
  by rewrite ssr_cons, fmap_cons, Qc_sum_cons, IH, Qc_pow2.
Qed.

Lemma Qc_sum_quadrant_split (g : observation → Qc) (i : nat) (df : list observation) :
  Qc_sum (g <$> df) =
    Qc_sum (g <$> quadrant_rows i df)
    + Qc_sum (g <$> filter (λ o, rcid o ≠ i) df).
Proof.
  induction df as [|o df IH]; [unfold Qc_sum; simpl; ring|].
  rewrite quadrant_rows_cons, filter_cons, fmap_cons, Qc_sum_cons, IH.
  destruct (decide (rcid o = i)) as [Hi|Hi].
  - rewrite decide_False by (by intros ?). rewrite fmap_cons, Qc_sum_cons. ring.
  - rewrite decide_True by done. rewrite fmap_cons, Qc_sum_cons. ring.
Qed.

Lemma predict_affine (q : Series) (o : observation) :
  predict affine_columns q o =
    coef q "Intercept" + coef q "x_image" * x_image o + coef q "y_image" * y_image o.
Proof. unfold predict, affine_columns. simpl. ring. Qed.

Lemma coef_quadrant_fit (p : Series) (i : nat) :
  coef (quadrant_fit p i) "Intercept" = offset_of p i ∧
  coef (quadrant_fit p i) "x_image" = slope_x_of p i ∧
  coef (quadrant_fit p i) "y_image" = slope_y_of p i.
Proof. split_and!; reflexivity. Qed.

(** On the stars of its quadrant the pooled model is the model of the
    quadrant. *)
Lemma predict_quadrant_fit (df : list observation) (p : Series) (o : observation) :
  0%nat ∈ levels df → o ∈ df →
  predict (linear_columns (levels df)) p o =
    predict affine_columns (quadrant_fit p (rcid o)) o.
Proof.
  intros H0 Ho. rewrite predict_linear, predict_affine; [|done|].
  - by destruct (coef_quadrant_fit p (rcid o)) as (-> & -> & ->).
  - apply elem_of_levels. eauto.
Qed.

(** The pooled fit cannot be improved on one quadrant alone. *)
Lemma pooled_fit_quadrant (resp : observation → Qc) (df : list observation)
    (p : Series) (i : nat) :
  0%nat ∈ levels df → i ∈ levels df →
  ols_fit (linear_columns (levels df)) resp df p →
  ols_fit affine_columns resp (quadrant_rows i df) (quadrant_fit p i).
Proof.
  intros H0 Hi [Hd Hmin]. split; [reflexivity|]. intros q' _.
  set (off' := λ j, if decide (j = i) then coef q' "Intercept" else offset_of p j).
  set (sx' := λ j, if decide (j = i) then coef q' "x_image" else slope_x_of p j).
  set (sy' := λ j, if decide (j = i) then coef q' "y_image" else slope_y_of p j).
  pose proof (Hmin (exact_series (levels df) off' sx' sy') (dom_exact_series _ _ _ _))
    as Hle.
  rewrite !ssr_Qc_sum in Hle |- *.
  rewrite (Qc_sum_quadrant_split _ i df) in Hle.
  rewrite (Qc_sum_quadrant_split
             (λ r, (resp r - predict _ (exact_series _ _ _ _) r) * _) i df) in Hle.
  assert (∀ o, o ∈ df →
    predict (linear_columns (levels df)) (exact_series (levels df) off' sx' sy') o
    = off' (rcid o) + sx' (rcid o) * x_image o + sy' (rcid o) * y_image o) as Hp'.
  { intros o Ho. assert (rcid o ∈ levels df) as Hl by (apply elem_of_levels; eauto).
    rewrite predict_linear by done.
    by destruct (exact_series_model df off' sx' sy' (rcid o) H0 Hl) as (-> & -> & ->). }
  rewrite (Qc_sum_ext
    (λ r, (resp r - predict _ (exact_series _ _ _ _) r) * _)
    (λ r, (resp r - predict (linear_columns (levels df)) p r)
          * (resp r - predict (linear_columns (levels df)) p r))
    (filter (λ o, rcid o ≠ i) df)) in Hle.
  2:{ intros o [Hne Ho]%list_elem_of_filter.
      rewrite (Hp' o Ho), predict_linear by (try done; apply elem_of_levels; eauto).
      unfold off', sx', sy'. by rewrite !decide_False by done. }
  apply Qcplus_le_mono_r in Hle.
  rewrite (Qc_sum_ext _
    (λ r, (resp r - predict (linear_columns (levels df)) p r)
          * (resp r - predict (linear_columns (levels df)) p r))).
  2:{ intros o [Hr Ho]%elem_of_quadrant_rows.
      by rewrite (predict_quadrant_fit df p o H0 Ho), Hr. }
  eapply Qcle_trans; [exact Hle|].
  rewrite (Qc_sum_ext _
    (λ r, (resp r - predict affine_columns q' r)
          * (resp r - predict affine_columns q' r))); [apply Qcle_refl|].
  intros o [Hr Ho]%elem_of_quadrant_rows.
  rewrite (Hp' o Ho), predict_affine. unfold off', sx', sy'.
  by rewrite !decide_True by done.
Qed.

Lemma Qc_sum_le {A} (f g : A → Qc) (l : list A) :
  (∀ a, a ∈ l → f a ≤ g a) → Qc_sum (f <$> l) ≤ Qc_sum (g <$> l).
Proof.
  induction l as [|a l IH]; intros H; [done|].
  rewrite !fmap_cons, !Qc_sum_cons. apply Qcplus_le_compat.
  - apply H, list_elem_of_here.
  - apply IH. intros b Hb. by apply H, list_elem_of_further.
Qed.

(** The pooled sum of squares is the sum over the quadrants of the sums of
    squares of the quadrants' own models. *)
Lemma ssr_by_quadrant (resp : observation → Qc) (df : list observation) (p : Series) :
  0%nat ∈ levels df →
  ssr (linear_columns (levels df)) resp df p =
    Qc_sum ((λ l, ssr affine_columns resp (quadrant_rows l df) (quadrant_fit p l))
              <$> levels df).
Proof.
  intros H0. rewrite ssr_Qc_sum.
  rewrite (Qc_sum_by_quadrant _ (levels df) df (NoDup_levels df))
    by (intros o Ho; apply elem_of_levels; eauto).
  apply Qc_sum_ext. intros l _. rewrite ssr_Qc_sum. apply Qc_sum_ext.
  intros o [Hr Ho]%elem_of_quadrant_rows.
  by rewrite (predict_quadrant_fit df p o H0 Ho), Hr.
Qed.

(** X21: the pooled linear fit is 64 separate fits.  When quadrant 0 has
    stars, a vector is a least-squares solution of the pooled formula
    exactly when, in every quadrant with stars, the offset and the two
    slopes that the loop of [rcmeta] reads for that quadrant are a
    least-squares plane through the stars of that quadrant alone. *)
Theorem linear_fit_is_per_quadrant (resp : observation → Qc)
    (df : list observation) (p : Series) :
  0%nat ∈ levels df →
  dom p = list_to_set (linear_columns (levels df)).*1 →
  (ols_fit (linear_columns (levels df)) resp df p ↔
   ∀ i, i ∈ levels df →
     ols_fit affine_columns resp (quadrant_rows i df) (quadrant_fit p i)).
Proof.
  intros H0 Hd. split.
  - intros Hfit i Hi. by apply pooled_fit_quadrant.
  - intros Hall. split; [done|]. intros p' _.
    rewrite !ssr_by_quadrant by done. apply Qc_sum_le. intros l Hl.
    by apply (Hall l Hl).
Qed.

(** X21 on the four stars of [noisy_df]. *)
Lemma linear_fit_is_per_quadrant_witness :
  ols_fit (linear_columns (levels noisy_df)) eta noisy_df noisy_res ↔
  ∀ i, i ∈ levels noisy_df →
    ols_fit affine_columns eta (quadrant_rows i noisy_df) (quadrant_fit noisy_res i).
Proof.
  apply (linear_fit_is_per_quadrant eta noisy_df noisy_res).
  - apply elem_of_levels. exists (Observation 0 0 0 0 0 0 0).
    split; [apply list_elem_of_here|done].
  - reflexivity.
Defined.

(** X22: a quadrant is fitted from its own stars only.  If two data frames
    have the same stars in quadrant [i], three of them not on one line (and
    both have stars in quadrant 0), then whatever else they hold and
    whichever least-squares solutions the fits return, the loop of [rcmeta]
    computes the same entry, or raises the same exception, for quadrant
    [i]. *)
Theorem quadrant_fit_is_local (df df' : list observation)
    (px py px' py' : Series) (i : nat) :
  0%nat ∈ levels df → 0%nat ∈ levels df' →
  quadrant_rows i df' ≡ₚ quadrant_rows i df →
  three_stars df i →
  ols_fit (linear_columns (levels df)) eta df px →
  ols_fit (linear_columns (levels df)) nu df py →
  ols_fit (linear_columns (levels df')) eta df' px' →
  ols_fit (linear_columns (levels df')) nu df' py' →
  rcmeta_entry px' py' i = rcmeta_entry px py i.
Proof.
  intros H0 H0' Hperm H3 Hx Hy Hx' Hy'.
  destruct H3 as (o1 & o2 & o3 & Ho1 & Ho2 & Ho3 & Hr1 & Hr2 & Hr3 & Hnc).
  assert (i ∈ levels df) as Hi by (apply elem_of_levels; eauto).
  assert (∀ o, o ∈ df → rcid o = i → o ∈ quadrant_rows i df) as Hq.
  { intros o Ho Hr. by apply elem_of_quadrant_rows. }
  assert (i ∈ levels df') as Hi'.
  { assert (o1 ∈ quadrant_rows i df') as [Hr Ho]%elem_of_quadrant_rows
      by (rewrite Hperm; by apply Hq).
    apply elem_of_levels. eauto. }
  assert (∀ (resp : observation → Qc) (p p' : Series),
    ols_fit (linear_columns (levels df)) resp df p →
    ols_fit (linear_columns (levels df')) resp df' p' →
    offset_of p' i = offset_of p i ∧ slope_x_of p' i = slope_x_of p i ∧
    slope_y_of p' i = slope_y_of p i) as Hsame.
  { intros resp p p' Hp Hp'.
    pose proof (pooled_fit_quadrant resp df p i H0 Hi Hp) as Hq1.
    pose proof (pooled_fit_quadrant resp df' p' i H0' Hi' Hp') as Hq2.
    apply (ols_fit_Permutation _ _ _ _ _ Hperm) in Hq2.
    pose proof (ols_fit_fitted_unique _ _ _ _ _ Hq2 Hq1) as Hagree.
    assert (∀ o, o ∈ df → rcid o = i →
      offset_of p' i + slope_x_of p' i * x_image o + slope_y_of p' i * y_image o =
      offset_of p i + slope_x_of p i * x_image o + slope_y_of p i * y_image o)
      as Hpt.
    { intros o Ho Hr. specialize (Hagree o (Hq o Ho Hr)).
      rewrite !predict_affine in Hagree.
      destruct (coef_quadrant_fit p i) as (E1 & E2 & E3).
      destruct (coef_quadrant_fit p' i) as (E1' & E2' & E3').
      by rewrite E1, E2, E3, E1', E2', E3' in Hagree. }
    apply (affine_unique _ _ _ _ _ _ _ _ _ _ _ _ Hnc);
      [by apply Hpt|by apply Hpt|by apply Hpt]. }
  destruct (Hsame eta px px' Hx Hx') as (E1 & E2 & E3).
  destruct (Hsame nu py py' Hy Hy') as (E4 & E5 & E6).
  apply (rcmeta_entry_ext df' df); try done;
    by (apply Hx || apply Hy || apply Hx' || apply Hy').
Qed.

(** X22 on quadrant 3 of the demonstration data, with and without the lone
    star of quadrant 70. *)
Lemma quadrant_fit_is_local_witness :
  rcmeta_entry (linear_xres lone_run') (linear_yres lone_run') 3
  = rcmeta_entry (linear_xres demo_run) (linear_yres demo_run) 3.
Proof.
  destruct demo_notebook as (Hx & Hy & _).
  destruct lone_notebook' as (Hx' & Hy' & _).
  apply (quadrant_fit_is_local demo_df lone_df _ _ _ _ 3
           (demo_zero_level 64 ltac:(lia)) lone_zero_level).
  - unfold lone_df, quadrant_rows. rewrite filter_app, filter_cons, filter_nil.
    rewrite decide_False by (simpl; lia). by rewrite app_nil_r.
  - apply demo_three_stars. lia.
  - exact Hx.
  - exact Hy.
  - exact Hx'.
  - exact Hy'.
Defined.

(** ** The header and the fitted model *)

(** X23: the linear part of the header is the linear fit of the selected
    quadrant: in a run that completes and whose matrix for the selected
    quadrant is regular, the cards [CRPIX1], [CRPIX2] and [CD1_1] .. [CD2_2]
    are such that, at every pixel of the selected quadrant, the [CD] matrix
    applied to the pixel minus [CRPIX] gives the fitted values of the two
    linear fits. *)
Theorem header_reproduces_linear_fit (TELRAD TELDECD : Qc)
    (df : list observation) (r : run) :
  notebook TELRAD TELDECD df r →
  (∀ m, run_rcmeta r !! my_rcid = Some m →
     det (cd11 m) (cd12 m) (cd21 m) (cd22 m) ≠ 0) →
  ∃ p1 p2 c11 c12 c21 c22,
    ("CRPIX1", VFloat p1) ∈ run_header r ∧ ("CRPIX2", VFloat p2) ∈ run_header r ∧
    ("CD1_1", VFloat c11) ∈ run_header r ∧ ("CD1_2", VFloat c12) ∈ run_header r ∧
    ("CD2_1", VFloat c21) ∈ run_header r ∧ ("CD2_2", VFloat c22) ∈ run_header r ∧
    det c11 c12 c21 c22 ≠ 0 ∧
    ∀ o, rcid o = my_rcid →
      c11 * (x_image o - p1) + c12 * (y_image o - p2)
        = predict (linear_columns (levels df)) (linear_xres r) o ∧
      c21 * (x_image o - p1) + c22 * (y_image o - p2)
        = predict (linear_columns (levels df)) (linear_yres r) o.
Proof.
  intros Hr Hreg.
  assert (my_rcid < 64)%nat as Hq by (unfold my_rcid; lia).
  assert (0%nat ∈ levels df) as H0 by (eapply notebook_level; [done|lia]).
  assert (my_rcid ∈ levels df) as Hl by (by eapply notebook_level).
  destruct (notebook_row _ _ _ _ (Observation my_rcid 0 0 0 0 0 0) Hr Hq)
    as (m & Hm & _ & C11 & C12 & C21 & C22 & Hzero).
  cbn [rcid] in Hm, C11, C12, C21, C22, Hzero.
  pose proof (Hreg m Hm) as Hdet. destruct (Hzero Hdet) as [Z1 Z2].
  pose proof Hr as (_ & _ & _ & _ & _ & _ & _ & Hh).
  apply output_header_inv in Hh as (m' & Hm' & _ & Hh).
  assert (m' = m) as -> by congruence.
  exists (crpix1 m), (crpix2 m), (cd11 m), (cd12 m), (cd21 m), (cd22 m).
  rewrite Hh. unfold header_cards.
  do 6 (split; [in_list|]). split; [exact Hdet|].
  intros o Ho. rewrite !predict_linear by (by rewrite ?Ho).
  rewrite Ho, <-C11, <-C12, <-C21, <-C22. split.
  - transitivity (offset_of (linear_xres r) my_rcid
      + cd11 m * x_image o + cd12 m * y_image o
      - (offset_of (linear_xres r) my_rcid
         + cd11 m * crpix1 m + cd12 m * crpix2 m)); [ring|].
    rewrite Z1. ring.
  - transitivity (offset_of (linear_yres r) my_rcid
      + cd21 m * x_image o + cd22 m * y_image o
      - (offset_of (linear_yres r) my_rcid
         + cd21 m * crpix1 m + cd22 m * crpix2 m)); [ring|].
    rewrite Z2. ring.
Qed.

(** X23 on the run of the demonstration data. *)
Lemma header_reproduces_linear_fit_witness :
  ∃ p1 p2 c11 c12 c21 c22,
    ("CRPIX1", VFloat p1) ∈ run_header demo_run ∧
    ("CRPIX2", VFloat p2) ∈ run_header demo_run ∧
    ("CD1_1", VFloat c11) ∈ run_header demo_run ∧
    ("CD1_2", VFloat c12) ∈ run_header demo_run ∧
    ("CD2_1", VFloat c21) ∈ run_header demo_run ∧
    ("CD2_2", VFloat c22) ∈ run_header demo_run ∧
    det c11 c12 c21 c22 ≠ 0 ∧
    ∀ o, rcid o = my_rcid →
      c11 * (x_image o - p1) + c12 * (y_image o - p2)
        = predict (linear_columns (levels demo_df)) (linear_xres demo_run) o ∧
      c21 * (x_image o - p1) + c22 * (y_image o - p2)
        = predict (linear_columns (levels demo_df)) (linear_yres demo_run) o.
Proof.
  apply (header_reproduces_linear_fit 0 0 demo_df demo_run demo_notebook).
  apply demo_regular.
Defined.

(** X24: on noise-free data of a known regular transform per quadrant, with
    three stars that are not on one line in each of the 64 quadrants and a
    distortion design of full rank, the header of every run is the known
    model of the selected quadrant: [CD] is the known transform, [CRPIX] the
    pixel it sends to zero, and the distortion is the identity. *)
Theorem exact_data_header (known : nat → affine) (df : list observation)
    (TELRAD TELDECD : Qc) (r : run) :
  Forall (generated_by known) df →
  (∀ i, (i < 64)%nat → three_stars df i) →
  (∀ i, (i < 64)%nat →
     det (a11 (known i)) (a12 (known i)) (a21 (known i)) (a22 (known i)) ≠ 0) →
  full_rank quadratic_columns (run_df r) →
  notebook TELRAD TELDECD df r →
  ∃ p1 p2,
    t1 (known my_rcid) + a11 (known my_rcid) * p1 + a12 (known my_rcid) * p2 = 0 ∧
    t2 (known my_rcid) + a21 (known my_rcid) * p1 + a22 (known my_rcid) * p2 = 0 ∧
    run_header r =
      [("NAXIS", VInt 2); ("NAXIS1", VInt 3072); ("NAXIS2", VInt 3080);
       ("CTYPE1", VStr "RA---TPV"); ("CTYPE2", VStr "DEC--TPV");
       ("CRVAL1", VFloat TELRAD); ("CRVAL2", VFloat TELDECD);
       ("CRPIX1", VFloat p1); ("CRPIX2", VFloat p2);
       ("CD1_1", VFloat (a11 (known my_rcid)));
       ("CD1_2", VFloat (a12 (known my_rcid)));
       ("CD2_1", VFloat (a21 (known my_rcid)));
       ("CD2_2", VFloat (a22 (known my_rcid)));
       ("PV1_1", VFloat 1); ("PV1_2", VFloat 0); ("PV1_4", VFloat 0);
       ("PV1_5", VFloat 0); ("PV1_6", VFloat 0);
       ("PV2_1", VFloat 1); ("PV2_2", VFloat 0); ("PV2_4", VFloat 0);
       ("PV2_5", VFloat 0); ("PV2_6", VFloat 0)].
Proof.
  intros Hgen H3 Hdet Hfull Hr.
  assert (my_rcid < 64)%nat as Hq by (unfold my_rcid; lia).
  pose proof (generated_table known df _ _ r Hgen H3 Hdet Hr) as Htbl.
  pose proof (notebook_rows _ _ _ _ Hr) as Hrows. rewrite Htbl in Hrows.
  destruct Hr as (_ & _ & _ & _ & Hqx & Hqy & Hpv & Hh).
  rewrite Forall_forall in Hgen.
  assert (∀ w, w ∈ run_df r → etalin w = eta (obs w) ∧ nulin w = nu (obs w))
    as Hlin.
  { intros w Hw. rewrite Hrows in Hw.
    apply list_elem_of_fmap in Hw as (o & -> & Ho).
    destruct (exact_rows known o (Hgen o Ho) Hdet) as (-> & -> & ->). done. }
  assert (ols_fit quadratic_columns (λ w, eta (obs w)) (run_df r) identity_xres)
    as Hix.
  { apply exact_fit_is_ols; [reflexivity|]. intros w Hw.
    rewrite identity_xres_predict. symmetry. by apply Hlin. }
  assert (ols_fit quadratic_columns (λ w, nu (obs w)) (run_df r) identity_yres)
    as Hiy.
  { apply exact_fit_is_ols; [reflexivity|]. intros w Hw.
    rewrite identity_yres_predict. symmetry. by apply Hlin. }
  rewrite (full_rank_fit_unique _ _ _ _ _ Hfull Hqx Hix),
    (full_rank_fit_unique _ _ _ _ _ Hfull Hqy Hiy) in Hpv.
  change (pv_start identity_xres identity_yres) with (Ok identity_pv) in Hpv.
  injection Hpv as Hpv. rewrite Htbl, <-Hpv in Hh.
  rewrite (output_header_Ok _ _ _ _ _ (known_entry (known my_rcid))
             (coef identity_pv)) in Hh.
  - injection Hh as Hh. rewrite <-Hh.
    exists (crpix1 (known_entry (known my_rcid))),
           (crpix2 (known_entry (known my_rcid))).
    destruct (proj2 (zero_point_unique
      (a11 (known my_rcid)) (a12 (known my_rcid))
      (a21 (known my_rcid)) (a22 (known my_rcid))
      (t1 (known my_rcid)) (t2 (known my_rcid))
      (crpix1 (known_entry (known my_rcid)))
      (crpix2 (known_entry (known my_rcid))) (Hdet _ Hq))) as [E1 E2]; [done|].
    split; [exact E1|]. split; [exact E2|]. reflexivity.
  - by apply exact_table_lookup.
  - intros k Hk. apply lookup_coef. unfold identity_pv.
    rewrite dom_list_to_map_L. apply elem_of_list_to_set. exact Hk.
Qed.

(** X24 on the demonstration data: the header of quadrant 32. *)
Lemma exact_data_header_witness :
  ∃ p1 p2,
    t1 (demo_known my_rcid) + a11 (demo_known my_rcid) * p1
      + a12 (demo_known my_rcid) * p2 = 0 ∧
    t2 (demo_known my_rcid) + a21 (demo_known my_rcid) * p1
      + a22 (demo_known my_rcid) * p2 = 0 ∧
    run_header demo_run =
      [("NAXIS", VInt 2); ("NAXIS1", VInt 3072); ("NAXIS2", VInt 3080);
       ("CTYPE1", VStr "RA---TPV"); ("CTYPE2", VStr "DEC--TPV");
       ("CRVAL1", VFloat 0); ("CRVAL2", VFloat 0);
       ("CRPIX1", VFloat p1); ("CRPIX2", VFloat p2);
       ("CD1_1", VFloat (a11 (demo_known my_rcid)));
       ("CD1_2", VFloat (a12 (demo_known my_rcid)));
       ("CD2_1", VFloat (a21 (demo_known my_rcid)));
       ("CD2_2", VFloat (a22 (demo_known my_rcid)));
       ("PV1_1", VFloat 1); ("PV1_2", VFloat 0); ("PV1_4", VFloat 0);
       ("PV1_5", VFloat 0); ("PV1_6", VFloat 0);
       ("PV2_1", VFloat 1); ("PV2_2", VFloat 0); ("PV2_4", VFloat 0);
       ("PV2_5", VFloat 0); ("PV2_6", VFloat 0)].
Proof.
  apply (exact_data_header demo_known demo_df 0 0 demo_run
           (synthetic_generated _ _) demo_three_stars (λ i _, demo_det i)
           demo_full_rank demo_notebook).
Defined.

(** ** The unit of the projection on data with a distortion *)

(** *** Least squares from the balance of each quadrant *)

(** When in every quadrant the residuals sum to zero, and so do their
    products with [x_image] and with [y_image], the vector is a
    least-squares solution of the pooled formula. *)
Lemma balanced_fit (resp : observation → Qc) (df : list observation) (p : Series) :
  dom p = list_to_set (linear_columns (levels df)).*1 →
  (∀ i, i ∈ levels df →
     Qc_sum (resid (linear_columns (levels df)) resp p <$> quadrant_rows i df) = 0 ∧
     Qc_sum ((λ o, resid (linear_columns (levels df)) resp p o * x_image o)
               <$> quadrant_rows i df) = 0 ∧
     Qc_sum ((λ o, resid (linear_columns (levels df)) resp p o * y_image o)
               <$> quadrant_rows i df) = 0) →
  ols_fit (linear_columns (levels df)) resp df p.
Proof.
  intros Hd Hbal. apply normal_equations_sufficient; [done|].
  set (e := resid (linear_columns (levels df)) resp p) in *.
  assert (∀ l, l ∈ levels df → ∀ g : observation → Qc,
    Qc_sum ((λ o, e o * g o) <$> quadrant_rows l df) = 0 →
    Qc_sum ((λ o, e o * (dummy l o * g o)) <$> df) = 0) as Hdummy.
  { intros l Hl g Hg. rewrite <-Hg, <-(Qc_sum_dummy (λ o, e o * g o)).
    apply Qc_sum_ext. intros o _. ring. }
  assert (∀ g : observation → Qc,
    (∀ l, l ∈ levels df → Qc_sum ((λ o, e o * g o) <$> quadrant_rows l df) = 0) →
    Qc_sum ((λ o, e o * g o) <$> df) = 0) as Hall.
  { intros g Hg.
    rewrite (Qc_sum_by_quadrant _ (levels df) df (NoDup_levels df))
      by (intros o Ho; apply elem_of_levels; eauto).
    by apply Qc_sum_all_zero. }
  assert (∀ l, l ∈ tail (levels df) → l ∈ levels df) as Htl.
  { intros l Hl. destruct (levels df); [done|]. by apply list_elem_of_further. }
  intros c [(l & Hl & ->)|[->|[(l & Hl & ->)|[->|(l & Hl & ->)]]]]%elem_of_linear_columns;
    cbn [snd].
  - destruct (Hbal l Hl) as (B0 & _ & _).
    rewrite <-B0, <-(Qc_sum_dummy e). done.
  - apply Hall. intros l Hl. by destruct (Hbal l Hl) as (_ & B1 & _).
  - apply Hdummy; [by apply Htl|]. by destruct (Hbal l (Htl l Hl)) as (_ & B1 & _).
  - apply Hall. intros l Hl. by destruct (Hbal l Hl) as (_ & _ & B2).
  - apply Hdummy; [by apply Htl|]. by destruct (Hbal l (Htl l Hl)) as (_ & _ & B2).
Qed.

(** *** A run on the rescaled data *)

Lemma rescale_entry_known (s : Qc) (k : affine) :
  s ≠ 0 → det (a11 k) (a12 k) (a21 k) (a22 k) ≠ 0 →
  known_entry (scale_affine s k) = rescale_entry s (known_entry k).
Proof.
  intros Hs Hdet.
  destruct (known_entry_scale s k Hs Hdet) as (P1 & P2 & C11 & C12 & C21 & C22).
  destruct (known_entry (scale_affine s k)) as [a b c d p1 p2].
  cbn [cd11 cd12 cd21 cd22 crpix1 crpix2] in *. unfold rescale_entry.
  by rewrite P1, P2, C11, C12, C21, C22.
Qed.

(** The body of the loop on [s] times the two fits. *)
Lemma rescaled_entry (df : list observation) (s : Qc) (px py : Series) (i : nat)
    (m : quadrant_model) :
  s ≠ 0 →
  dom px = list_to_set (linear_columns (levels df)).*1 →
  dom py = list_to_set (linear_columns (levels df)).*1 →
  0%nat ∈ levels df → i ∈ levels df →
  rcmeta_entry px py i = Ok m →
  det (cd11 m) (cd12 m) (cd21 m) (cd22 m) ≠ 0 →
  rcmeta_entry (scale_series s px) (scale_series s py) i = Ok (rescale_entry s m).
Proof.
  intros Hs Hdx Hdy H0 Hi He Hdet.
  apply rcmeta_entry_model in He as ((C11 & C12 & C21 & C22) & Hmod).
  specialize (Hmod Hdet). rewrite C11, C12, C21, C22 in Hdet.
  destruct (quadrant_cd_fit df (scale_series s px) (scale_series s py) i)
    as (Hcd & Hox & Hoy); [by rewrite dom_scale_series..|done|done|].
  destruct (slope_scale_series s px i) as (X0 & X1 & X2).
  destruct (slope_scale_series s py i) as (Y0 & Y1 & Y2).
  rewrite X0 in Hox. rewrite Y0 in Hoy. rewrite X1, X2, Y1, Y2 in Hcd.
  rewrite (rcmeta_entry_regular _ _ _ _ _ _ _ _ _ Hcd Hox Hoy).
  - f_equal. rewrite Hmod.
    exact (rescale_entry_known s
             (Affine (slope_x_of px i) (slope_y_of px i)
                     (slope_x_of py i) (slope_y_of py i)
                     (offset_of px i) (offset_of py i)) Hs Hdet).
  - rewrite det_scale. intros [H|H]%Qcmult_integral; [|done].
    by apply Qcmult_integral in H as [H|H].
Qed.

Lemma pv_start_rescale (s : Qc) (xres yres : Series) (pv : gmap string Qc) :
  pv_start xres yres = Ok pv →
  pv_start (rescale_quadratic s xres) (rescale_quadratic s yres)
    = Ok (rescale_pv s pv).
Proof.
  intros Hpv.
  destruct (pv_start_coef _ _ _ Hpv)
    as (E1 & E2 & E3 & E4 & E5 & E6 & E7 & E8 & E9 & E10).
  unfold rescale_pv. rewrite E1, E2, E3, E4, E5, E6, E7, E8, E9, E10.
  reflexivity.
Qed.

(** A run that completes with regular matrices gives a run on the data with
    every [(eta, nu)] multiplied by [s]. *)
Lemma rescaled_notebook (TELRAD TELDECD : Qc) (df : list observation) (s : Qc)
    (r : run) :
  s ≠ 0 →
  (∀ i m, (i < 64)%nat → run_rcmeta r !! i = Some m →
     det (cd11 m) (cd12 m) (cd21 m) (cd22 m) ≠ 0) →
  notebook TELRAD TELDECD df r →
  notebook TELRAD TELDECD (rescale s <$> df) (rescale_run s TELRAD TELDECD r).
Proof.
  intros Hs Hreg Hr.
  assert (∀ i, (i < 64)%nat → i ∈ levels df) as Hlv.
  { intros i Hi. by eapply notebook_level. }
  pose proof Hr as (Hx & Hy & Htbl & Hasm & Hqx & Hqy & Hpv & Hh).
  assert (∀ i, (i < 64)%nat → ∃ m, run_rcmeta r !! i = Some m ∧
    rcmeta_entry (scale_series s (linear_xres r)) (scale_series s (linear_yres r)) i
      = Ok (rescale_entry s m)) as Hent.
  { intros i Hi. destruct (notebook_table _ _ _ _ i Hr Hi) as (m & Hm & He).
    exists m. split; [done|].
    apply (rescaled_entry df); try done; try (by apply Hx || by apply Hy);
      try (apply Hlv; lia). by eapply Hreg. }
  assert (rcmeta (scale_series s (linear_xres r)) (scale_series s (linear_yres r))
          = (rescale_entry s <$> run_rcmeta r, None)) as Htbl'.
  { destruct (rcmeta_total (scale_series s (linear_xres r))
                (scale_series s (linear_yres r))
                (λ i, rescale_entry s
                        (default (QuadrantModel 0 0 0 0 0 0) (run_rcmeta r !! i))))
      as (tbl & Ht & Hl).
    { intros i Hi. destruct (Hent i Hi) as (m & -> & He). exact He. }
    rewrite Ht. f_equal. apply map_eq. intros i. rewrite lookup_fmap.
    destruct (decide (i < 64)%nat) as [Hi|Hi].
    - rewrite Hl by done. by destruct (Hent i Hi) as (m & -> & _).
    - unfold rcmeta in Ht, Htbl.
      apply rcmeta_loop_done in Ht as (Hdom & _ & _).
      apply rcmeta_loop_done in Htbl as (Hdom0 & _ & _).
      assert (tbl !! i = None) as ->.
      { apply not_elem_of_dom. rewrite Hdom, dom_empty_L, elem_of_union,
          elem_of_list_to_set, elem_of_seq. set_solver by lia. }
      assert (run_rcmeta r !! i = None) as ->; [|done].
      apply not_elem_of_dom. rewrite Hdom0, dom_empty_L, elem_of_union,
        elem_of_list_to_set, elem_of_seq. set_solver by lia. }
  assert (∀ i, (i < 64)%nat → ∃ m m', run_rcmeta r !! i = Some m ∧
     (rescale_entry s <$> run_rcmeta r) !! i = Some m' ∧
     crpix1 m' = crpix1 m ∧ crpix2 m' = crpix2 m ∧
     cd11 m' = s * cd11 m ∧ cd12 m' = s * cd12 m ∧
     cd21 m' = s * cd21 m ∧ cd22 m' = s * cd22 m) as Hrel.
  { intros i Hi. destruct (Hent i Hi) as (m & Hm & _).
    exists m, (rescale_entry s m). rewrite lookup_fmap, Hm. by repeat split. }
  unfold notebook, rescale_run.
  cbn [linear_xres linear_yres run_rcmeta run_df xres yres run_pv run_header].
  split; [by apply scale_series_fit|]. split; [by apply scale_series_fit|].
  split; [exact Htbl'|]. split.
  { rewrite assemble_complete.
    - f_equal. rewrite (notebook_rows _ _ _ _ Hr), <-!list_fmap_compose.
      apply list_fmap_ext. intros k o _. simpl.
      by apply assemble_spec_rescale.
    - intros i Hi. destruct (Hrel i Hi) as (_ & m' & _ & -> & _). eauto. }
  split; [by apply (rescale_quadratic_fit (λ w, eta (obs w)))|].
  split; [by apply (rescale_quadratic_fit (λ w, nu (obs w)))|].
  split; [by apply pv_start_rescale|].
  apply output_header_Ok.
  - rewrite lookup_fmap.
    destruct (Hent my_rcid) as (m & -> & _); [unfold my_rcid; lia|]. done.
  - intros k Hk. apply lookup_coef. unfold rescale_pv.
    rewrite dom_list_to_map_L. apply elem_of_list_to_set. exact Hk.
Qed.

(** *** The bent data *)

Lemma corners_rcid (i : nat) (o : observation) : o ∈ corners i → rcid o = i.
Proof.
  unfold corners. intros Ho. simpl in Ho.
  repeat (apply elem_of_cons in Ho as [->|Ho]); [done..|by apply elem_of_nil in Ho].
Qed.

Lemma elem_of_curved (o : observation) :
  o ∈ curved_df ↔ ∃ i, (i < 64)%nat ∧ o ∈ corners i.
Proof.
  unfold curved_df. rewrite list_elem_of_bind. split.
  - intros (i & Ho & Hi%elem_of_seq). exists i. split; [lia|done].
  - intros (i & Hi & Ho). exists i. split; [done|]. apply elem_of_seq. lia.
Qed.

Lemma curved_levels (i : nat) : i ∈ levels curved_df ↔ (i < 64)%nat.
Proof.
  rewrite elem_of_levels. split.
  - intros (o & (j & Hj & Ho)%elem_of_curved & <-).
    by rewrite (corners_rcid j o Ho).
  - intros Hi. exists (bend (star_of curved_known i 0 0)). split; [|done].
    apply elem_of_curved. exists i. split; [done|]. apply list_elem_of_here.
Qed.

Lemma curved_three_stars (i : nat) : (i < 64)%nat → three_stars curved_df i.
Proof.
  intros Hi.
  exists (bend (star_of curved_known i 0 0)), (bend (star_of curved_known i 1 0)),
         (bend (star_of curved_known i 0 1)).
  repeat split;
    try (apply elem_of_curved; exists i; split; [done|]; unfold corners; in_list).
  unfold non_collinear. simpl. by vm_compute.
Qed.

(** The rows of a quadrant in a list built quadrant by quadrant. *)
Lemma quadrant_rows_bind (f : nat → list observation) (ids : list nat) (i : nat) :
  (∀ j o, o ∈ f j → rcid o = j) → NoDup ids → i ∈ ids →
  quadrant_rows i (ids ≫= f) = f i.
Proof.
  intros Hf Hnd Hi. unfold quadrant_rows.
  assert (∀ j, j ≠ i → filter (λ o, rcid o = i) (f j) = []) as Hout.
  { intros j Hj. apply elem_of_nil_inv. intros o [Hr Ho]%list_elem_of_filter.
    rewrite (Hf j o Ho) in Hr. done. }
  assert (filter (λ o, rcid o = i) (f i) = f i) as Hin.
  { assert (∀ l : list observation, (∀ o, o ∈ l → rcid o = i) →
            filter (λ o, rcid o = i) l = l) as Hall.
    { induction l as [|o l IH]; intros Hl; [done|].
      rewrite filter_cons, decide_True by (apply Hl, list_elem_of_here).
      f_equal. apply IH. intros o' Ho'. by apply Hl, list_elem_of_further. }
    apply Hall, Hf. }
  induction ids as [|j ids IH]; [by apply elem_of_nil in Hi|].
  apply NoDup_cons in Hnd as [Hj Hnd].
  rewrite bind_cons, filter_app.
  destruct (decide (j = i)) as [->|Hne].
  - rewrite Hin. rewrite <-(app_nil_r (f i)) at 2. f_equal.
    apply elem_of_nil_inv. intros o [Hr Ho]%list_elem_of_filter.
    apply list_elem_of_bind in Ho as (k & Ho & Hk).
    rewrite (Hf k o Ho) in Hr. congruence.
  - rewrite (Hout j Hne). simpl. apply IH; [done|].
    apply elem_of_cons in Hi as [?|Hi]; [congruence|done].
Qed.

Lemma curved_quadrant (i : nat) :
  (i < 64)%nat → quadrant_rows i curved_df = corners i.
Proof.
  intros Hi. apply quadrant_rows_bind.
  - apply corners_rcid.
  - apply NoDup_seq.
  - apply elem_of_seq. lia.
Qed.

(** The fitted values of the exact vectors of [curved_known]. *)
Lemma curved_predict (i : nat) (o : observation) :
  (i < 64)%nat → rcid o = i →
  predict (linear_columns (levels curved_df)) (exact_xres curved_known curved_df) o
    = t1 (curved_known i) + a11 (curved_known i) * x_image o
      + a12 (curved_known i) * y_image o ∧
  predict (linear_columns (levels curved_df)) (exact_yres curved_known curved_df) o
    = t2 (curved_known i) + a21 (curved_known i) * x_image o
      + a22 (curved_known i) * y_image o.
Proof.
  intros Hi <-.
  assert (0%nat ∈ levels curved_df) as H0 by (apply curved_levels; lia).
  assert (rcid o ∈ levels curved_df) as Hl by (by apply curved_levels).
  rewrite !predict_linear by done. unfold exact_xres, exact_yres.
  destruct (exact_series_model curved_df
              (λ i, t1 (curved_known i)) (λ i, a11 (curved_known i))
              (λ i, a12 (curved_known i)) (rcid o) H0 Hl) as (-> & -> & ->).
  destruct (exact_series_model curved_df
              (λ i, t2 (curved_known i)) (λ i, a21 (curved_known i))
              (λ i, a22 (curved_known i)) (rcid o) H0 Hl) as (-> & -> & ->).
  done.
Qed.

(** The four kinds of quadrants. *)
Lemma curved_known_cases (i : nat) :
  curved_known i = Affine 1 0 0 1 0 0 ∨
  curved_known i = Affine (Qc_of_Z 3) 0 0 1 (- (1)) 0 ∨
  curved_known i = Affine (Qc_of_Z 5) 0 0 1 (- Qc_of_Z 2) 0 ∨
  curved_known i = Affine 1 0 0 (Qc_of_Z 3) 0 (- (1)).
Proof. destruct i as [|[|[|i]]]; auto. Qed.

Lemma curved_det (i : nat) :
  det (a11 (curved_known i)) (a12 (curved_known i)) (a21 (curved_known i))
      (a22 (curved_known i)) ≠ 0.
Proof.
  destruct (curved_known_cases i) as [-> | [-> | [-> | ->]]];
    apply not_eq_sym, Qclt_not_eq; reflexivity.
Qed.

(** The planes of [curved_known] are the least-squares planes of the bent
    data: in every quadrant the residuals of [eta] are [k, -k, -k, k] at the
    four corners, and [nu] has none. *)
Lemma curved_fits :
  ols_fit (linear_columns (levels curved_df)) eta curved_df
    (exact_xres curved_known curved_df) ∧
  ols_fit (linear_columns (levels curved_df)) nu curved_df
    (exact_yres curved_known curved_df).
Proof.
  split.
  - apply balanced_fit; [apply dom_exact_series|].
    intros i Hi%curved_levels. rewrite (curved_quadrant i Hi).
    unfold corners, resid. rewrite !fmap_cons, !fmap_nil, !Qc_sum_cons.
    rewrite (proj1 (curved_predict i (bend (star_of curved_known i 0 0)) Hi eq_refl)),
      (proj1 (curved_predict i (bend (star_of curved_known i 1 0)) Hi eq_refl)),
      (proj1 (curved_predict i (bend (star_of curved_known i 0 1)) Hi eq_refl)),
      (proj1 (curved_predict i (bend (star_of curved_known i 1 1)) Hi eq_refl)).
    cbn [bend star_of eta nu x_image y_image rcid].
    destruct (curved_known_cases i) as [-> | [-> | [-> | ->]]];
      cbn [a11 a12 a21 a22 t1 t2]; split_and!; apply Qc_is_canon; reflexivity.
  - apply exact_fit_is_ols; [apply dom_exact_series|].
    intros o (i & Hi & Ho)%elem_of_curved.
    rewrite (proj2 (curved_predict i o Hi (corners_rcid i o Ho))).
    unfold corners in Ho. simpl in Ho.
    repeat (apply elem_of_cons in Ho as [->|Ho]); [done..|by apply elem_of_nil in Ho].
Qed.

(** *** The runs on the bent data *)

(** A loop whose body returns the known entries builds their table. *)
Lemma known_entries_table (known : nat → affine) (px py : Series) :
  (∀ i, (i < 64)%nat → rcmeta_entry px py i = Ok (known_entry (known i))) →
  rcmeta px py = (exact_table known, None).
Proof.
  intros Hent.
  destruct (rcmeta_total px py (λ i, known_entry (known i)) Hent) as (tbl & Ht & Hl).
  rewrite Ht. f_equal. apply map_eq. intros i.
  destruct (decide (i < 64)%nat) as [Hi|Hi].
  - by rewrite Hl, exact_table_lookup.
  - unfold rcmeta in Ht. apply rcmeta_loop_done in Ht as (Hdom & _ & _).
    transitivity (@None quadrant_model); [|symmetry].
    + apply not_elem_of_dom. rewrite Hdom, dom_empty_L, elem_of_union,
        elem_of_list_to_set, elem_of_seq. set_solver by lia.
    + apply not_elem_of_dom. rewrite exact_table_dom, elem_of_list_to_set,
        elem_of_seq. lia.
Qed.

(** Every pair of least-squares fits of the bent data gives the loop the
    planes of [curved_known]. *)
Lemma curved_table (px py : Series) :
  ols_fit (linear_columns (levels curved_df)) eta curved_df px →
  ols_fit (linear_columns (levels curved_df)) nu curved_df py →
  rcmeta px py = (exact_table curved_known, None).
Proof.
  intros Hx Hy. destruct curved_fits as [Hx0 Hy0].
  assert (0%nat ∈ levels curved_df) as H0 by (apply curved_levels; lia).
  apply known_entries_table. intros i Hi.
  assert (i ∈ levels curved_df) as Hl by (by apply curved_levels).
  destruct (three_stars_fix_quadrant curved_df px
              (exact_xres curved_known curved_df) i H0 (curved_three_stars i Hi))
    as (E1 & E2 & E3); [exact (ols_fit_fitted_unique _ eta _ _ _ Hx Hx0)|].
  destruct (three_stars_fix_quadrant curved_df py
              (exact_yres curved_known curved_df) i H0 (curved_three_stars i Hi))
    as (E4 & E5 & E6); [exact (ols_fit_fitted_unique _ nu _ _ _ Hy Hy0)|].
  destruct (quadrant_cd_fit curved_df px py i (proj1 Hx) (proj1 Hy) H0 Hl)
    as (Hcd & Hox & Hoy).
  unfold exact_xres in E1, E2, E3. unfold exact_yres in E4, E5, E6.
  destruct (exact_series_model curved_df
              (λ i, t1 (curved_known i)) (λ i, a11 (curved_known i))
              (λ i, a12 (curved_known i)) i H0 Hl) as (M1 & M2 & M3).
  destruct (exact_series_model curved_df
              (λ i, t2 (curved_known i)) (λ i, a21 (curved_known i))
              (λ i, a22 (curved_known i)) i H0 Hl) as (M4 & M5 & M6).
  rewrite M1 in E1. rewrite M2 in E2. rewrite M3 in E3.
  rewrite M4 in E4. rewrite M5 in E5. rewrite M6 in E6.
  rewrite E1 in Hox. rewrite E4 in Hoy. rewrite E2, E3, E5, E6 in Hcd.
  rewrite (rcmeta_entry_regular _ _ _ _ _ _ _ _ _ Hcd Hox Hoy (curved_det i)).
  reflexivity.
Qed.

(** Bending changes [eta] only, which the loop does not read. *)
Lemma assemble_spec_bend (tbl : gmap nat quadrant_model) (o : observation) :
  assemble_spec tbl (bend o) =
    Row (bend o) (x_global (assemble_spec tbl o)) (y_global (assemble_spec tbl o))
        (if decide (rcid o < 64 ∧ is_Some (tbl !! rcid o))%nat
         then etalin (assemble_spec tbl o) else eta (bend o))
        (nulin (assemble_spec tbl o)).
Proof.
  unfold assemble_spec. change (rcid (bend o)) with (rcid o).
  destruct (tbl !! rcid o) as [m|] eqn:Hm.
  - destruct (decide (rcid o < 64)%nat) as [Hi|Hi].
    + rewrite decide_True by eauto. reflexivity.
    + rewrite decide_False by (intros [? _]; done). reflexivity.
  - rewrite decide_False by (intros [_ [? ?]]; done). reflexivity.
Qed.

(** The rows of a run on the bent data: the linearized coordinates are the
    linear coordinates [(u, v)], and the projected ones are bent. *)
Lemma curved_rows (w : row) :
  w ∈ assemble_spec (exact_table curved_known) <$> curved_df →
  eta (obs w) = etalin w + ((1 + 1) * etalin w - 1) * ((1 + 1) * nulin w - 1) ∧
  nu (obs w) = nulin w.
Proof.
  intros (o & -> & (i & Hi & Ho)%elem_of_curved)%list_elem_of_fmap.
  assert (∃ o0, o = bend o0 ∧ rcid o0 = i ∧ generated_by curved_known o0)
    as (o0 & -> & Hr & Hgen).
  { unfold corners in Ho. simpl in Ho.
    repeat (apply elem_of_cons in Ho as [->|Ho]); [..|by apply elem_of_nil in Ho];
      eexists; (split; [reflexivity|]); by split. }
  rewrite assemble_spec_bend, decide_True.
  2:{ rewrite Hr. split; [done|]. rewrite exact_table_lookup by done. eauto. }
  destruct (exact_rows curved_known o0 Hgen (λ i _, curved_det i)) as (_ & -> & ->).
  by cbn [obs etalin nulin bend eta nu].
Qed.

Lemma curved_xres_predict (w : row) :
  predict quadratic_columns curved_xres w =
    etalin w + ((1 + 1) * etalin w - 1) * ((1 + 1) * nulin w - 1).
Proof.
  rewrite predict_quadratic.
  change (coef curved_xres "Intercept") with 1.
  change (coef curved_xres "etalin") with (- (1)).
  change (coef curved_xres "nulin") with (- Qc_of_Z 2).
  change (coef curved_xres "np.power(etalin, 2)") with 0.
  change (coef curved_xres "etalin:nulin") with (Qc_of_Z 4).
  change (coef curved_xres "np.power(nulin, 2)") with 0.
  replace (Qc_of_Z 2) with (1 + 1) by (apply Qc_is_canon; reflexivity).
  replace (Qc_of_Z 4) with ((1 + 1) * (1 + 1)) by (apply Qc_is_canon; reflexivity).
  ring.
Qed.

Lemma curved_has_point (i : nat) (x y e n : Qc) :
  (i < 64)%nat → bend (star_of curved_known i x y) ∈ corners i →
  t1 (curved_known i) + a11 (curved_known i) * x + a12 (curved_known i) * y = e →
  t2 (curved_known i) + a21 (curved_known i) * x + a22 (curved_known i) * y = n →
  has_point (assemble_spec (exact_table curved_known) <$> curved_df) e n.
Proof.
  intros Hi Hin <- <-.
  exists (assemble_spec (exact_table curved_known) (bend (star_of curved_known i x y))).
  split.
  { apply list_elem_of_fmap_2, elem_of_curved. eauto. }
  rewrite assemble_spec_bend, decide_True.
  2:{ split; [done|]. cbn [star_of rcid]. rewrite exact_table_lookup by done. eauto. }
  destruct (exact_rows curved_known (star_of curved_known i x y))
    as (_ & -> & ->); [by split|intros j _; apply curved_det|].
  by split.
Qed.

Lemma curved_full_rank :
  full_rank quadratic_columns (assemble_spec (exact_table curved_known) <$> curved_df).
Proof.
  apply six_points_full_rank.
  - apply (curved_has_point 0 0 0); [lia|unfold corners; in_list|
      apply Qc_is_canon; reflexivity..].
  - apply (curved_has_point 1 1 0); [lia|unfold corners; in_list|
      apply Qc_is_canon; reflexivity..].
  - apply (curved_has_point 0 0 1); [lia|unfold corners; in_list|
      apply Qc_is_canon; reflexivity..].
  - apply (curved_has_point 0 1 1); [lia|unfold corners; in_list|
      apply Qc_is_canon; reflexivity..].
  - apply (curved_has_point 2 1 1); [lia|unfold corners; in_list|
      apply Qc_is_canon; reflexivity..].
  - apply (curved_has_point 3 1 1); [lia|unfold corners; in_list|
      apply Qc_is_canon; reflexivity..].
Qed.

Lemma curved_quadratic_fits :
  ols_fit quadratic_columns (λ w, eta (obs w))
    (assemble_spec (exact_table curved_known) <$> curved_df) curved_xres ∧
  ols_fit quadratic_columns (λ w, nu (obs w))
    (assemble_spec (exact_table curved_known) <$> curved_df) identity_yres.
Proof.
  split; (apply exact_fit_is_ols; [reflexivity|]); intros w Hw;
    destruct (curved_rows w Hw) as [He Hn].
  - by rewrite curved_xres_predict.
  - by rewrite identity_yres_predict.
Qed.

Lemma curved_notebook : notebook 0 0 curved_df curved_run.
Proof.
  destruct curved_fits as [Hx Hy]. destruct curved_quadratic_fits as [Hqx Hqy].
  unfold notebook, curved_run.
  cbn [linear_xres linear_yres run_rcmeta run_df xres yres run_pv run_header].
  split; [exact Hx|]. split; [exact Hy|].
  split; [exact (curved_table _ _ Hx Hy)|].
  split.
  { apply assemble_complete. intros i Hi. rewrite exact_table_lookup by exact Hi.
    eexists. reflexivity. }
  split; [exact Hqx|]. split; [exact Hqy|]. split; [reflexivity|].
  apply output_header_Ok.
  - apply exact_table_lookup. unfold my_rcid. lia.
  - intros k Hk. apply lookup_coef. unfold curved_pv.
    rewrite dom_list_to_map_L. apply elem_of_list_to_set. exact Hk.
Qed.

Lemma curved_regular (i : nat) (m : quadrant_model) :
  (i < 64)%nat → run_rcmeta curved_run !! i = Some m →
  det (cd11 m) (cd12 m) (cd21 m) (cd22 m) ≠ 0.
Proof.
  intros Hi. change (run_rcmeta curved_run) with (exact_table curved_known).
  rewrite exact_table_lookup by done. intros [= <-]. apply (curved_det i).
Qed.

(** Every run on the bent data ends with the table, the rows and the
    distortion coefficients of [curved_run]. *)
Lemma curved_runs (r : run) :
  notebook 0 0 curved_df r →
  run_rcmeta r = exact_table curved_known ∧
  run_df r = run_df curved_run ∧
  xres r = curved_xres ∧ yres r = identity_yres ∧ run_pv r = curved_pv.
Proof.
  intros Hr. pose proof Hr as (Hx & Hy & Htbl & _ & Hqx & Hqy & Hpv & _).
  assert (run_rcmeta r = exact_table curved_known) as Et.
  { rewrite (curved_table _ _ Hx Hy) in Htbl. injection Htbl as Htbl.
    symmetry. exact Htbl. }
  assert (run_df r = run_df curved_run) as Ed.
  { rewrite (notebook_rows _ _ _ _ Hr), Et. reflexivity. }
  rewrite Ed in Hqx, Hqy. destruct curved_quadratic_fits as [Hqx0 Hqy0].
  assert (xres r = curved_xres) as Ex.
  { exact (full_rank_fit_unique _ _ _ _ _ curved_full_rank Hqx Hqx0). }
  assert (yres r = identity_yres) as Ey.
  { exact (full_rank_fit_unique _ _ _ _ _ curved_full_rank Hqy Hqy0). }
  split; [exact Et|]. split; [exact Ed|]. split; [exact Ex|]. split; [exact Ey|].
  rewrite Ex, Ey in Hpv.
  change (pv_start curved_xres identity_yres) with (Ok curved_pv) in Hpv.
  injection Hpv as Hpv. symmetry. exact Hpv.
Qed.

(** C2, amended, on the bent data doubled: the distortion coefficient
    [PV1_5] of the bent data is 4, and on the doubled data it is half of
    that. *)
Lemma rescaling_the_projection_witness :
  coef (run_pv curved_run) "PV1_5" = Qc_of_Z 4 ∧
  (∀ i, (i < 64)%nat →
     ∃ m m', run_rcmeta curved_run !! i = Some m ∧
       run_rcmeta (rescale_run (1 + 1) 0 0 curved_run) !! i = Some m' ∧
       crpix1 m' = crpix1 m ∧ crpix2 m' = crpix2 m ∧
       cd11 m' = (1 + 1) * cd11 m ∧ cd12 m' = (1 + 1) * cd12 m ∧
       cd21 m' = (1 + 1) * cd21 m ∧ cd22 m' = (1 + 1) * cd22 m) ∧
  run_df (rescale_run (1 + 1) 0 0 curved_run)
    = rescale_row (1 + 1) <$> run_df curved_run ∧
  coef (run_pv (rescale_run (1 + 1) 0 0 curved_run)) "PV1_1"
    = coef (run_pv curved_run) "PV1_1" ∧
  coef (run_pv (rescale_run (1 + 1) 0 0 curved_run)) "PV1_2"
    = coef (run_pv curved_run) "PV1_2" ∧
  coef (run_pv (rescale_run (1 + 1) 0 0 curved_run)) "PV2_1"
    = coef (run_pv curved_run) "PV2_1" ∧
  coef (run_pv (rescale_run (1 + 1) 0 0 curved_run)) "PV2_2"
    = coef (run_pv curved_run) "PV2_2" ∧
  (1 + 1) * coef (run_pv (rescale_run (1 + 1) 0 0 curved_run)) "PV1_4"
    = coef (run_pv curved_run) "PV1_4" ∧
  (1 + 1) * coef (run_pv (rescale_run (1 + 1) 0 0 curved_run)) "PV1_5"
    = coef (run_pv curved_run) "PV1_5" ∧
  (1 + 1) * coef (run_pv (rescale_run (1 + 1) 0 0 curved_run)) "PV1_6"
    = coef (run_pv curved_run) "PV1_6" ∧
  (1 + 1) * coef (run_pv (rescale_run (1 + 1) 0 0 curved_run)) "PV2_4"
    = coef (run_pv curved_run) "PV2_4" ∧
  (1 + 1) * coef (run_pv (rescale_run (1 + 1) 0 0 curved_run)) "PV2_5"
    = coef (run_pv curved_run) "PV2_5" ∧
  (1 + 1) * coef (run_pv (rescale_run (1 + 1) 0 0 curved_run)) "PV2_6"
    = coef (run_pv curved_run) "PV2_6".
Proof.
  split; [reflexivity|].
  destruct (rescaling_the_projection 0 0 curved_df (1 + 1) curved_run
              (rescale_run (1 + 1) 0 0 curved_run)
              Qc_two_nonzero curved_three_stars curved_regular curved_notebook
              (rescaled_notebook 0 0 curved_df (1 + 1) curved_run
                 Qc_two_nonzero curved_regular curved_notebook))
    as (H1 & H2 & H3).
  split; [exact H1|]. split; [exact H2|]. exact (H3 curved_full_rank).
Defined.

(** C2 as worded fails: on [curved_df] (64 quadrants, four stars each,
    [eta = u + (2u - 1)(2v - 1)] and [nu = v] for the linear coordinates
    [(u, v)]) a run and a run with all [(eta, nu)] doubled both complete.  In
    every run on the original data [cd11] of quadrant 0 is 1 and [PV1_5] is
    4; in every run on the doubled data [cd11] is 2 and [PV1_5] is 2.  So
    neither the tables nor the distortion coefficients are the same. *)
Lemma scale_does_not_cancel :
  (1 + 1 : Qc) ≠ 0 ∧
  notebook 0 0 curved_df curved_run ∧
  notebook 0 0 (rescale (1 + 1) <$> curved_df) (rescale_run (1 + 1) 0 0 curved_run) ∧
  (∀ r, notebook 0 0 curved_df r →
     cd11 <$> run_rcmeta r !! 0%nat = Some 1 ∧
     run_pv r !! "PV1_5" = Some ((1 + 1) * (1 + 1))) ∧
  (∀ r', notebook 0 0 (rescale (1 + 1) <$> curved_df) r' →
     cd11 <$> run_rcmeta r' !! 0%nat = Some (1 + 1) ∧
     run_pv r' !! "PV1_5" = Some (1 + 1)) ∧
  ¬ scale_cancels 0 0 curved_df (1 + 1) ∧
  ¬ (∀ r r', notebook 0 0 curved_df r →
       notebook 0 0 (rescale (1 + 1) <$> curved_df) r' →
       run_rcmeta r' = run_rcmeta r) ∧
  ¬ (∀ r r', notebook 0 0 curved_df r →
       notebook 0 0 (rescale (1 + 1) <$> curved_df) r' →
       run_pv r' = run_pv r).
Proof.
  pose proof curved_notebook as Hr0.
  pose proof (rescaled_notebook 0 0 curved_df (1 + 1) curved_run
                Qc_two_nonzero curved_regular curved_notebook) as Hr0'.
  assert ((1 + 1 : Qc) ≠ 1) as H21.
  { apply not_eq_sym, Qclt_not_eq. reflexivity. }
  assert ((1 + 1 : Qc) ≠ (1 + 1) * (1 + 1)) as H24.
  { apply Qclt_not_eq. reflexivity. }
  assert (∀ r, notebook 0 0 curved_df r →
     cd11 <$> run_rcmeta r !! 0%nat = Some 1 ∧
     run_pv r !! "PV1_5" = Some ((1 + 1) * (1 + 1))) as H1.
  { intros r Hr. destruct (curved_runs r Hr) as (-> & _ & _ & _ & ->).
    split; [rewrite exact_table_lookup by lia; reflexivity|].
    apply (f_equal Some), Qc_is_canon. reflexivity. }
  assert (∀ r', notebook 0 0 (rescale (1 + 1) <$> curved_df) r' →
     cd11 <$> run_rcmeta r' !! 0%nat = Some (1 + 1) ∧
     run_pv r' !! "PV1_5" = Some (1 + 1)) as H2.
  { intros r' Hr'.
    assert (∀ i, (i < 64)%nat →
      ∃ m m', run_rcmeta curved_run !! i = Some m ∧ run_rcmeta r' !! i = Some m' ∧
        crpix1 m' = crpix1 m ∧ crpix2 m' = crpix2 m ∧
        cd11 m' = (1 + 1) * cd11 m ∧ cd12 m' = (1 + 1) * cd12 m ∧
        cd21 m' = (1 + 1) * cd21 m ∧ cd22 m' = (1 + 1) * cd22 m) as Hrel.
    { intros i Hi.
      apply (rescaled_table 0 0 curved_df (1 + 1) curved_run r' i
               Qc_two_nonzero curved_three_stars Hr0 Hr' Hi).
      intros m. exact (curved_regular i m Hi). }
    split.
    - destruct (Hrel 0%nat) as (m & m' & Hm & Hm' & _ & _ & C11 & _); [lia|].
      change (run_rcmeta curved_run) with (exact_table curved_known) in Hm.
      rewrite exact_table_lookup in Hm by lia. injection Hm as <-.
      rewrite Hm'. cbn [fmap option_fmap option_map]. rewrite C11.
      apply (f_equal Some), Qc_is_canon. reflexivity.
    - assert (run_df r' = rescale_row (1 + 1) <$> run_df curved_run) as Hrows.
      { rewrite (notebook_rows _ _ _ _ Hr'), (notebook_rows _ _ _ _ Hr0),
          <-!list_fmap_compose.
        apply list_fmap_ext. intros k o _. cbn [compose].
        exact (assemble_spec_rescale (1 + 1) _ _ o Hrel). }
      pose proof Hr' as (_ & _ & _ & _ & Hqx' & _ & Hpv' & _).
      pose proof Hr0 as (_ & _ & _ & _ & Hqx & _).
      rewrite Hrows in Hqx'.
      destruct (rescaled_quadratic_fit (λ w, eta (obs w)) (1 + 1) _ _ _
                  Qc_two_nonzero (λ _, eq_refl) curved_full_rank Hqx Hqx')
        as (_ & _ & _ & X4 & _).
      apply pv_start_Ok in Hpv' as (_ & _ & _ & _ & -> & _).
      rewrite (fit_lookup _ _ _ _ "etalin:nulin" Hqx') by in_list.
      f_equal. apply (Qc_mult_cancel_l (1 + 1)); [exact Qc_two_nonzero|].
      rewrite X4. apply Qc_is_canon. reflexivity. }
  split; [exact Qc_two_nonzero|]. split; [exact Hr0|]. split; [exact Hr0'|].
  split; [exact H1|]. split; [exact H2|].
  assert (¬ (∀ r r', notebook 0 0 curved_df r →
       notebook 0 0 (rescale (1 + 1) <$> curved_df) r' →
       run_rcmeta r' = run_rcmeta r)) as Ht.
  { intros Hclaim. specialize (Hclaim _ _ Hr0 Hr0').
    destruct (H1 _ Hr0) as [E1 _]. destruct (H2 _ Hr0') as [E2 _].
    rewrite Hclaim, E1 in E2. apply (inj Some) in E2. apply H21. symmetry. exact E2. }
  assert (¬ (∀ r r', notebook 0 0 curved_df r →
       notebook 0 0 (rescale (1 + 1) <$> curved_df) r' →
       run_pv r' = run_pv r)) as Hp.
  { intros Hclaim. specialize (Hclaim _ _ Hr0 Hr0').
    destruct (H1 _ Hr0) as [_ E1]. destruct (H2 _ Hr0') as [_ E2].
    rewrite Hclaim, E1 in E2. apply (inj Some) in E2. apply H24. symmetry. exact E2. }
  split; [|split; [exact Ht|exact Hp]].
  intros Hclaim. apply Ht. intros r r' Hr Hr'.
  exact (proj1 (Hclaim r r' Hr Hr')).
Qed.

(** The matrices have to be regular for this: the singular
    [[3, 3], [5, 5]] is stored by the loop, while for the same fits in a
    unit three times smaller, [[9, 9], [15, 15]], the elimination meets a
    zero pivot and the inversion raises. *)
Lemma singular_matrix_does_not_rescale :
  (∃ m, rcmeta_entry skew_xres skew_yres 0 = Ok m) ∧
  rcmeta_entry (scale_series (Qc_of_Z 3) skew_xres)
               (scale_series (Qc_of_Z 3) skew_yres) 0 = Raise LinAlgError.
Proof.
  split.
  - destruct (rcmeta_entry skew_xres skew_yres 0) as [e|m] eqn:He;
      [by vm_compute in He|]. by exists m.
  - by vm_compute.
Qed.
